(** * cracked: selector-addressed audio graph and step sequencer

    A shallow embedding of the core of [dist/cracked.js] and
    [src/sequence.js]: the node registry and selector lookup, the macro
    recorder, the connection resolver, node reset, and the sequencer
    clock.  Module-level JavaScript variables become the fields of one
    [Engine] record that every operation receives and returns; wrapper
    objects are referred to by their uuid, host primitives by a handle
    into a heap of native objects. *)

From stdpp Require Import base strings gmap list fin_maps.
From Equations Require Import Equations.
From Stdlib Require Import Ascii QArith Lqa.
Close Scope Q_scope.

(** ** JavaScript primitives *)

Module Js.

(** [s.split(sep)] for a one-character separator: the pieces between
    the separators, so the empty string yields one empty piece. *)
Fixpoint split (sep : Ascii.ascii) (s : string) : list string :=
  match s with
  | EmptyString => [EmptyString]
  | String c r =>
      if decide (c = sep) then EmptyString :: split sep r
      else match split sep r with
           | [] => [String c EmptyString]
           | w :: ws => String c w :: ws
           end
  end.

Fixpoint startsWith (pat s : string) : bool :=
  match pat, s with
  | EmptyString, _ => true
  | String a p, String b r => if decide (a = b) then startsWith p r else false
  | String _ _, EmptyString => false
  end.

(** [s.indexOf(pat) !== -1] *)
Fixpoint includes (pat s : string) : bool :=
  if startsWith pat s then true
  else match s with
       | EmptyString => false
       | String _ r => includes pat r
       end.

Fixpoint drop (n : nat) (s : string) : string :=
  match n, s with
  | S k, String _ r => drop k r
  | _, _ => s
  end.

(** [s.replace(pat, "")] with a string pattern: only the first
    occurrence is removed. *)
Fixpoint removeFirst (pat s : string) : string :=
  if startsWith pat s then drop (String.length pat) s
  else match s with
       | EmptyString => EmptyString
       | String c r => String c (removeFirst pat r)
       end.

(** truthiness of a string value *)
Definition truthyStr (s : string) : bool :=
  match s with EmptyString => false | _ => true end.

(** [arr.join("")] *)
Definition join (l : list string) : string := foldr String.append EmptyString l.

End Js.

(** ** Values and host objects *)

Abbreviation uuid := string (only parsing).
Abbreviation handle := nat (only parsing).

(** What a property of a host object can hold.  Host nodes themselves
    never occur as property values; [PParam h name] is the live
    control-parameter object that the primitive [h] exposes as [name]. *)
Inductive propval :=
| PUndefined
| PNull
| PBool (b : bool)
| PNum (n : Z)
| PStr (s : string)
| PParam (h : handle) (name : string)
| PBuffer (b : nat)
| PFun (name : string)
| PObj (o : nat).

Global Instance propval_eq_dec : EqDecision propval.
Proof. solve_decision. Defined.

Definition truthy (v : propval) : bool :=
  match v with
  | PUndefined | PNull => false
  | PBool b => b
  | PNum n => negb (n =? 0)%Z
  | PStr s => Js.truthyStr s
  | PParam _ _ | PBuffer _ | PFun _ | PObj _ => true
  end.

Definition isNotUndef (v : propval) : bool :=
  match v with PUndefined => false | _ => true end.

(** An element of a macro's member array: a host primitive, or the
    member array of a nested macro (an array object is identified by the
    uuid of the macro wrapper that owns it, which is also the [uuid] tag
    the constructor writes on it). *)
Inductive member :=
| MNative (h : handle)
| MArray (owner : uuid).

(** The [nativeNode] of a wrapper: one primitive, or the member array. *)
Inductive nativeRef :=
| Leaf (h : handle)
| Members (ms : list member).

(** What [getNodesToConnect] can hand to the native [connect]. *)
Inductive endpoint :=
| EUndefined
| ENull
| ENode (h : handle)
| EArr (owner : uuid)
| EVal (v : propval).

Global Instance member_eq_dec : EqDecision member.
Proof. solve_decision. Defined.
Global Instance nativeRef_eq_dec : EqDecision nativeRef.
Proof. solve_decision. Defined.
Global Instance endpoint_eq_dec : EqDecision endpoint.
Proof. solve_decision. Defined.

(** A host primitive: its [uuid] tag, its property table and the
    destinations its output has been connected to. *)
Record Native := mkNative {
  n_uuid : uuid;
  n_props : gmap string propval;
  n_out : list endpoint
}.

(** [settings] of the creation parameters; [s_extra] holds every key
    other than id, class, modulates and mapping. *)
Record Settings := mkSettings {
  s_id : option string;
  s_class : option string;
  s_modulates : option string;
  s_mapping : option (gmap string string);
  s_extra : gmap string propval
}.

Record CreationParams := mkParams {
  cp_method : option string;
  cp_settings : Settings;
  cp_mapping : option (gmap string string)
}.

Definition emptySettings : Settings :=
  mkSettings None None None None ∅.

(** The wrapper class [AudioNode]: the closure variables of the
    constructor. *)
Record AudioNode := mkNode {
  a_uuid : uuid;
  macroContainerUUID : option uuid;
  macroNameSpace : string;
  parameters : CreationParams;
  nodeType : string;
  nativeNode : nativeRef;
  prevNode : option uuid;
  isPlaying : bool;
  nextNode : list uuid;
  paramMapping : gmap string string
}.

(** An entry of the recording stack [_currentMacro]: a reference to the
    macro wrapper together with its (immutable) type. *)
Record MacroRef := mkMacroRef { m_uuid : uuid; m_type : string }.

(** A step listener as pushed by [cracked.bind]. *)
Record Listener := mkListener {
  l_eventType : string;
  l_callback : nat;
  l_data : list propval;
  l_loopStepSize : Z;
  l_loopIndex : Z;
  l_selection : list uuid;
  l_selector : string
}.

(** One invocation of a user callback by [loopStep]: which callback,
    its three arguments, and the selection it could see. *)
Record Call := mkCall {
  c_callback : nat;
  c_index : Z;
  c_item : propval;
  c_data : list propval;
  c_selection : list uuid
}.

(** The module-level state of [cracked.js] and [sequence.js]. *)
Record Engine := mkEngine {
  nodeStore : gmap string AudioNode;
  nodeLookup : gmap string (list string);
  previousNode : option uuid;
  selectedNodes : list uuid;
  currentSelector : string;
  currentMacro : list MacroRef;
  heap : gmap nat Native;
  destination : handle;
  isLoopRunning : bool;
  ignoreGrid : bool;
  loopStepSize : Z;
  loopInterval : Q;
  loopCB : option nat;
  loopData : list propval;
  loopIndex : Z;
  loopListeners : list Listener;
  loopTimeToNextStep : Q;
  calls : list Call
}.

(** ** Errors *)

Inductive result (A : Type) :=
| Ok (a : A)
| Throw (msg : string).
Arguments Ok {A} a.
Arguments Throw {A} msg.

Global Instance result_ret : MRet result := fun A a => Ok a.
Global Instance result_bind : MBind result := fun A B f m =>
  match m with Ok a => f a | Throw e => Throw e end.

Definition ofOption {A} (msg : string) (o : option A) : result A :=
  match o with Some a => Ok a | None => Throw msg end.

(** ** Field updates *)

Definition set_macroContainerUUID v (s : AudioNode) : AudioNode :=
  mkNode (a_uuid s) v (macroNameSpace s) (parameters s) (nodeType s) (nativeNode s) (prevNode s) (isPlaying s) (nextNode s) (paramMapping s).

Definition set_macroNameSpace v (s : AudioNode) : AudioNode :=
  mkNode (a_uuid s) (macroContainerUUID s) v (parameters s) (nodeType s) (nativeNode s) (prevNode s) (isPlaying s) (nextNode s) (paramMapping s).

Definition set_nativeNode v (s : AudioNode) : AudioNode :=
  mkNode (a_uuid s) (macroContainerUUID s) (macroNameSpace s) (parameters s) (nodeType s) v (prevNode s) (isPlaying s) (nextNode s) (paramMapping s).

Definition set_prevNode v (s : AudioNode) : AudioNode :=
  mkNode (a_uuid s) (macroContainerUUID s) (macroNameSpace s) (parameters s) (nodeType s) (nativeNode s) v (isPlaying s) (nextNode s) (paramMapping s).

Definition set_isPlaying v (s : AudioNode) : AudioNode :=
  mkNode (a_uuid s) (macroContainerUUID s) (macroNameSpace s) (parameters s) (nodeType s) (nativeNode s) (prevNode s) v (nextNode s) (paramMapping s).

Definition set_nextNode v (s : AudioNode) : AudioNode :=
  mkNode (a_uuid s) (macroContainerUUID s) (macroNameSpace s) (parameters s) (nodeType s) (nativeNode s) (prevNode s) (isPlaying s) v (paramMapping s).

Definition set_nodeStore v (s : Engine) : Engine :=
  mkEngine v (nodeLookup s) (previousNode s) (selectedNodes s) (currentSelector s) (currentMacro s) (heap s) (destination s) (isLoopRunning s) (ignoreGrid s) (loopStepSize s) (loopInterval s) (loopCB s) (loopData s) (loopIndex s) (loopListeners s) (loopTimeToNextStep s) (calls s).

Definition set_nodeLookup v (s : Engine) : Engine :=
  mkEngine (nodeStore s) v (previousNode s) (selectedNodes s) (currentSelector s) (currentMacro s) (heap s) (destination s) (isLoopRunning s) (ignoreGrid s) (loopStepSize s) (loopInterval s) (loopCB s) (loopData s) (loopIndex s) (loopListeners s) (loopTimeToNextStep s) (calls s).

Definition set_previousNode v (s : Engine) : Engine :=
  mkEngine (nodeStore s) (nodeLookup s) v (selectedNodes s) (currentSelector s) (currentMacro s) (heap s) (destination s) (isLoopRunning s) (ignoreGrid s) (loopStepSize s) (loopInterval s) (loopCB s) (loopData s) (loopIndex s) (loopListeners s) (loopTimeToNextStep s) (calls s).

Definition set_selectedNodes v (s : Engine) : Engine :=
  mkEngine (nodeStore s) (nodeLookup s) (previousNode s) v (currentSelector s) (currentMacro s) (heap s) (destination s) (isLoopRunning s) (ignoreGrid s) (loopStepSize s) (loopInterval s) (loopCB s) (loopData s) (loopIndex s) (loopListeners s) (loopTimeToNextStep s) (calls s).

Definition set_currentSelector v (s : Engine) : Engine :=
  mkEngine (nodeStore s) (nodeLookup s) (previousNode s) (selectedNodes s) v (currentMacro s) (heap s) (destination s) (isLoopRunning s) (ignoreGrid s) (loopStepSize s) (loopInterval s) (loopCB s) (loopData s) (loopIndex s) (loopListeners s) (loopTimeToNextStep s) (calls s).

Definition set_currentMacro v (s : Engine) : Engine :=
  mkEngine (nodeStore s) (nodeLookup s) (previousNode s) (selectedNodes s) (currentSelector s) v (heap s) (destination s) (isLoopRunning s) (ignoreGrid s) (loopStepSize s) (loopInterval s) (loopCB s) (loopData s) (loopIndex s) (loopListeners s) (loopTimeToNextStep s) (calls s).

Definition set_heap v (s : Engine) : Engine :=
  mkEngine (nodeStore s) (nodeLookup s) (previousNode s) (selectedNodes s) (currentSelector s) (currentMacro s) v (destination s) (isLoopRunning s) (ignoreGrid s) (loopStepSize s) (loopInterval s) (loopCB s) (loopData s) (loopIndex s) (loopListeners s) (loopTimeToNextStep s) (calls s).

Definition set_isLoopRunning v (s : Engine) : Engine :=
  mkEngine (nodeStore s) (nodeLookup s) (previousNode s) (selectedNodes s) (currentSelector s) (currentMacro s) (heap s) (destination s) v (ignoreGrid s) (loopStepSize s) (loopInterval s) (loopCB s) (loopData s) (loopIndex s) (loopListeners s) (loopTimeToNextStep s) (calls s).

Definition set_ignoreGrid v (s : Engine) : Engine :=
  mkEngine (nodeStore s) (nodeLookup s) (previousNode s) (selectedNodes s) (currentSelector s) (currentMacro s) (heap s) (destination s) (isLoopRunning s) v (loopStepSize s) (loopInterval s) (loopCB s) (loopData s) (loopIndex s) (loopListeners s) (loopTimeToNextStep s) (calls s).

Definition set_loopStepSize v (s : Engine) : Engine :=
  mkEngine (nodeStore s) (nodeLookup s) (previousNode s) (selectedNodes s) (currentSelector s) (currentMacro s) (heap s) (destination s) (isLoopRunning s) (ignoreGrid s) v (loopInterval s) (loopCB s) (loopData s) (loopIndex s) (loopListeners s) (loopTimeToNextStep s) (calls s).

Definition set_loopInterval v (s : Engine) : Engine :=
  mkEngine (nodeStore s) (nodeLookup s) (previousNode s) (selectedNodes s) (currentSelector s) (currentMacro s) (heap s) (destination s) (isLoopRunning s) (ignoreGrid s) (loopStepSize s) v (loopCB s) (loopData s) (loopIndex s) (loopListeners s) (loopTimeToNextStep s) (calls s).

Definition set_loopCB v (s : Engine) : Engine :=
  mkEngine (nodeStore s) (nodeLookup s) (previousNode s) (selectedNodes s) (currentSelector s) (currentMacro s) (heap s) (destination s) (isLoopRunning s) (ignoreGrid s) (loopStepSize s) (loopInterval s) v (loopData s) (loopIndex s) (loopListeners s) (loopTimeToNextStep s) (calls s).

Definition set_loopData v (s : Engine) : Engine :=
  mkEngine (nodeStore s) (nodeLookup s) (previousNode s) (selectedNodes s) (currentSelector s) (currentMacro s) (heap s) (destination s) (isLoopRunning s) (ignoreGrid s) (loopStepSize s) (loopInterval s) (loopCB s) v (loopIndex s) (loopListeners s) (loopTimeToNextStep s) (calls s).

Definition set_loopIndex v (s : Engine) : Engine :=
  mkEngine (nodeStore s) (nodeLookup s) (previousNode s) (selectedNodes s) (currentSelector s) (currentMacro s) (heap s) (destination s) (isLoopRunning s) (ignoreGrid s) (loopStepSize s) (loopInterval s) (loopCB s) (loopData s) v (loopListeners s) (loopTimeToNextStep s) (calls s).

Definition set_loopListeners v (s : Engine) : Engine :=
  mkEngine (nodeStore s) (nodeLookup s) (previousNode s) (selectedNodes s) (currentSelector s) (currentMacro s) (heap s) (destination s) (isLoopRunning s) (ignoreGrid s) (loopStepSize s) (loopInterval s) (loopCB s) (loopData s) (loopIndex s) v (loopTimeToNextStep s) (calls s).

Definition set_loopTimeToNextStep v (s : Engine) : Engine :=
  mkEngine (nodeStore s) (nodeLookup s) (previousNode s) (selectedNodes s) (currentSelector s) (currentMacro s) (heap s) (destination s) (isLoopRunning s) (ignoreGrid s) (loopStepSize s) (loopInterval s) (loopCB s) (loopData s) (loopIndex s) (loopListeners s) v (calls s).

Definition set_calls v (s : Engine) : Engine :=
  mkEngine (nodeStore s) (nodeLookup s) (previousNode s) (selectedNodes s) (currentSelector s) (currentMacro s) (heap s) (destination s) (isLoopRunning s) (ignoreGrid s) (loopStepSize s) (loopInterval s) (loopCB s) (loopData s) (loopIndex s) (loopListeners s) (loopTimeToNextStep s) v.

Definition set_n_uuid v (n : Native) : Native :=
  mkNative v (n_props n) (n_out n).

Definition set_n_props v (n : Native) : Native :=
  mkNative (n_uuid n) v (n_out n).

Definition set_n_out v (n : Native) : Native :=
  mkNative (n_uuid n) (n_props n) v.

(** ** Selector lookup *)

Inductive selectorType := SelClass | SelId | SelType.

(** [getSelectorType]: a leading [.] means class, a leading [#] means
    id, anything else is a type. *)
Definition getSelectorType (str : string) : selectorType :=
  match str with
  | String "."%char _ => SelClass
  | String "#"%char _ => SelId
  | _ => SelType
  end.

(** Inner loop of [arrayUnique] for a fixed [i]: every later element
    equal to [a[i]] is spliced out. *)
Fixpoint spliceDups (x : string) (rest : list string) : list string :=
  match rest with
  | [] => []
  | y :: r => if decide (x = y) then spliceDups x r else y :: spliceDups x r
  end.

(** [arrayUnique]: the outer loop keeps [a[i]] and continues on the
    spliced remainder. *)
Equations arrayUnique (a : list string) : list string by wf (length a) lt :=
  arrayUnique [] := [];
  arrayUnique (x :: rest) := x :: arrayUnique (spliceDups x rest).
Next Obligation.
  clear arrayUnique.
  induction rest as [|y r IH]; simpl; [lia|].
  destruct (decide (x = y)); simpl in *; lia.
Qed.

(** The callback of the [forEach] in [getNodesWithSelector]: an empty
    or unindexed clause leaves [nodes] alone; an id clause with several
    entries contributes only the first. *)
Definition selectorStep (lookup : gmap string (list string))
  (nodes : list string) (currSelector : string) : list string :=
  if Js.truthyStr currSelector then
    match lookup !! currSelector with
    | Some tmp =>
        let tmp' :=
          match getSelectorType currSelector with
          | SelId => if decide (1 < length tmp) then take 1 tmp else tmp
          | _ => tmp
          end in
        arrayUnique (nodes ++ tmp')
    | None => nodes
    end
  else nodes.

(** [getNodesWithSelector], over the own entries of [_nodeLookup]. *)
Definition getNodesWithSelector (lookup : gmap string (list string))
  (selector : string) : list string :=
  foldl (selectorStep lookup) [] (Js.split ","%char selector).

(** [setter(map, key, value)] *)
Definition setter (map : gmap string (list string)) (key value : string)
  : gmap string (list string) :=
  if Js.truthyStr key then
    match map !! key with
    | Some l => <[key := l ++ [value]]> map
    | None => <[key := [value]]> map
    end
  else map.

(** ** Macro recorder: stack queries *)

Definition recordingMacro (s : Engine) : bool :=
  match currentMacro s with [] => false | _ => true end.

Definition getCurrentMacro (s : Engine) : option MacroRef :=
  last (currentMacro s).

Definition getCurrentMacroNamespace (s : Engine) : string :=
  Js.join (flat_map (fun m => [m_type m; " "]) (currentMacro s)).

(** ** Registry access *)

Definition getNodeWithUUID (s : Engine) (u : uuid) : option AudioNode :=
  if Js.truthyStr u then nodeStore s !! u else None.

Definition getPreviousNode (s : Engine) : option uuid := previousNode s.

Definition setPreviousNode (node : option uuid) (s : Engine) : Engine :=
  match node with
  | Some n => set_previousNode (Some n) s
  | None => s
  end.

Definition setNode (node : AudioNode) (s : Engine) : Engine :=
  set_nodeStore (<[a_uuid node := node]> (nodeStore s)) s.

(** [setNodeLookup]: the id key, the class key once per comma-separated
    token (always the whole class string), the wildcard, the type. *)
Definition setNodeLookup (node : AudioNode) (s : Engine) : Engine :=
  let params := cp_settings (parameters node) in
  let prefix := getCurrentMacroNamespace s in
  let l0 := nodeLookup s in
  let l1 := match s_id params with
            | Some i => setter l0 (prefix +:+ "#" +:+ i) (a_uuid node)
            | None => l0
            end in
  let l2 := match s_class params with
            | Some c =>
                foldl (fun l _ => setter l (prefix +:+ "." +:+ c) (a_uuid node))
                      l1 (Js.split ","%char c)
            | None => l1
            end in
  let l3 := setter l2 "*" (a_uuid node) in
  set_nodeLookup (setter l3 (prefix +:+ nodeType node) (a_uuid node)) s.

(** [updateMacro]: tag the node with the recording macro and append its
    native node to that macro's member array (only macro wrappers are
    ever pushed on the stack, so the top's native node is an array). *)
Definition asMember (node : AudioNode) : member :=
  match nativeNode node with
  | Leaf h => MNative h
  | Members _ => MArray (a_uuid node)
  end.

Definition addNativeNode (m : member) (macro : AudioNode) : AudioNode :=
  match nativeNode macro with
  | Members ms => set_nativeNode (Members (ms ++ [m])) macro
  | Leaf _ => macro
  end.

Definition setMacroContainerUUID (u : uuid) (node : AudioNode) : AudioNode :=
  if Js.truthyStr u then set_macroContainerUUID (Some u) node else node.

Definition updateMacro (node : AudioNode) (s : Engine) : AudioNode * Engine :=
  match getCurrentMacro s with
  | Some top =>
      (setMacroContainerUUID (m_uuid top) node,
       set_nodeStore (alter (addNativeNode (asMember node)) (m_uuid top) (nodeStore s)) s)
  | None => (node, s)
  end.

Definition saveNode (node : AudioNode) (s : Engine) : AudioNode * Engine :=
  let '(node1, s1) := updateMacro node s in
  (node1, setNodeLookup node1 (setNode node1 s1)).

Definition reset (s : Engine) : Engine :=
  set_currentSelector "" (set_selectedNodes [] (set_previousNode None s)).

Definition resetSelection (s : Engine) : Engine :=
  set_currentSelector "" (set_selectedNodes [] s).

(** ** Node construction *)

Definition orElse {A} (x y : option A) : option A :=
  match x with Some _ => x | None => y end.

(** [mergeObjects(source, target)] on settings objects: every own key of
    [source] overwrites the key of [target]. *)
Definition mergeSettings (source target : Settings) : Settings :=
  mkSettings (orElse (s_id source) (s_id target))
             (orElse (s_class source) (s_class target))
             (orElse (s_modulates source) (s_modulates target))
             (orElse (s_mapping source) (s_mapping target))
             (s_extra source ∪ s_extra target).

(** The two [mergeObjects] calls of the constructor: user settings into
    the creation settings, the user's mapping into the creation mapping
    (when the creation parameters have one). *)
Definition mergedParams (cp : CreationParams) (userSettings : Settings)
  : CreationParams :=
  mkParams (cp_method cp)
           (mergeSettings userSettings (cp_settings cp))
           (match cp_mapping cp with
            | Some m => Some (default ∅ (s_mapping userSettings) ∪ m)
            | None => None
            end).

(** [creationParams.mapping || creationParams.settings.mapping] *)
Definition mappingOf (cp : CreationParams) : gmap string string :=
  match cp_mapping cp with
  | Some m => m
  | None => default ∅ (s_mapping (cp_settings cp))
  end.

Definition methodOf (cp : CreationParams) : option string :=
  match cp_method cp with
  | Some m => if Js.truthyStr m then Some m else None
  | None => None
  end.

Definition isMacro (node : AudioNode) : bool :=
  match nativeNode node with Members _ => true | Leaf _ => false end.

Definition modulatesOf (node : AudioNode) : option string :=
  match s_modulates (cp_settings (parameters node)) with
  | Some m => if Js.truthyStr m then Some m else None
  | None => None
  end.

(** [resolveParamMapping(name, map).path]; a mapping entry is modelled
    by its path (the optional value transform plays no part in
    connecting). *)
Definition resolveParamMapping (name : string) (map : gmap string string) : string :=
  match map !! name with
  | Some p => if Js.truthyStr p then p else name
  | None => name
  end.

(** [resolveParamMapping(property, mapping).path.replace(".value", "")] *)
Definition resolvedProperty (property : string) (map : gmap string string) : string :=
  Js.removeFirst ".value" (resolveParamMapping property map).

(** [rawNode[key]] on a host primitive; the [uuid] tag written by the
    constructor shadows whatever the host exposes under that name. *)
Definition nativeProp (n : Native) (key : string) : propval :=
  if decide (key = "uuid") then PStr (n_uuid n)
  else default PUndefined (n_props n !! key).

Inductive side := FromSide | ToSide.

Record NodesToConnect := mkNodes { nc_from : endpoint; nc_to : endpoint }.

Definition memberEndpoint (m : option member) : endpoint :=
  match m with
  | None => EUndefined
  | Some (MNative h) => ENode h
  | Some (MArray u) => EArr u
  end.

(** [getNodeToConnect]: a leaf's primitive; for a macro the last member
    on the [from] side and the first member on the [to] side. *)
Definition getNodeToConnect (node : AudioNode) (whichNode : side) : endpoint :=
  match nativeNode node with
  | Leaf h => ENode h
  | Members ms =>
      match whichNode with
      | FromSide => memberEndpoint (last ms)
      | ToSide => memberEndpoint (head ms)
      end
  end.

Definition areSiblings (this node : AudioNode) : bool :=
  bool_decide (macroContainerUUID node = macroContainerUUID this).

(** truthiness of an endpoint handed to the native [connect] *)
Definition endpointTruthy (e : endpoint) : bool :=
  match e with
  | EUndefined | ENull => false
  | ENode _ | EArr _ => true
  | EVal v => truthy v
  end.

Section Host.

(** The host audio runtime is an external collaborator:
    [hostHas m] tells whether the audio context has a factory method
    [m]; [hostProps h cp] is the property table of the primitive that
    the factory returns at handle [h] once the creation settings have
    been applied; [hostConnects n e] tells whether the native
    [connect] of primitive [n] accepts [e] (it throws otherwise). *)
Variable hostHas : string -> bool.
Variable hostProps : handle -> CreationParams -> gmap string propval.
Variable hostConnects : Native -> endpoint -> bool.

(** [audioNodeFactory]: a fresh primitive from the named factory method,
    the context's single destination object when the context has no such
    method, an empty member array when no method is given. *)
Definition audioNodeFactory (cp : CreationParams) (s : Engine) : nativeRef * Engine :=
  match methodOf cp with
  | Some m =>
      if hostHas m then
        let h := fresh (dom (heap s)) in
        (Leaf h, set_heap (<[h := mkNative "" (hostProps h cp) []]> (heap s)) s)
      else (Leaf (destination s), s)
  | None => (Members [], s)
  end.

(** [nativeNode.uuid = uuid] *)
Definition tagNative (r : nativeRef) (u : uuid) (s : Engine) : Engine :=
  match r with
  | Leaf h => set_heap (alter (set_n_uuid u) h (heap s)) s
  | Members _ => s
  end.

(** [new AudioNode(type, creationParams, userSettings)]; [u] is the value
    [generateUUID()] returns for this node. *)
Definition newAudioNode (type : string) (creationParams : CreationParams)
  (userSettings : Settings) (u : uuid) (s : Engine) : AudioNode * Engine :=
  let params := mergedParams creationParams userSettings in
  let '(native, s1) := audioNodeFactory params s in
  (mkNode u None "" params type native None false [] (mappingOf params),
   tagNative native u s1).

(** ** Connection resolver *)

Definition derefNative (s : Engine) (h : handle) : result Native :=
  ofOption "TypeError: no such primitive" (heap s !! h).

Definition derefNode (s : Engine) (u : uuid) : result AudioNode :=
  ofOption "TypeError: null wrapper" (getNodeWithUUID s u).

(** [m.uuid] for an element of a member array *)
Definition memberUUID (s : Engine) (m : member) : result uuid :=
  match m with
  | MNative h => n ← derefNative s h; Ok (n_uuid n)
  | MArray u => Ok u
  end.

(** [m[key]] for an element of a member array.  A nested member array
    exposes its [uuid] tag and its [length]; its index keys and the
    properties inherited from the array prototype are not modelled. *)
Definition memberProp (s : Engine) (m : member) (key : string) : result propval :=
  match m with
  | MNative h => n ← derefNative s h; Ok (nativeProp n key)
  | MArray u =>
      if decide (key = "uuid") then Ok (PStr u)
      else if decide (key = "length") then
        match nodeStore s !! u with
        | Some w =>
            match nativeNode w with
            | Members ms => Ok (PNum (Z.of_nat (length ms)))
            | Leaf _ => Ok PUndefined
            end
        | None => Ok PUndefined
        end
      else Ok PUndefined
  end.

Definition isModulator (this : AudioNode) (s : Engine) : result bool :=
  match macroContainerUUID this with
  | Some c =>
      container ← derefNode s c;
      match modulatesOf container with
      | Some _ => Ok true
      | None => Ok (bool_decide (is_Some (modulatesOf this)))
      end
  | None => Ok (bool_decide (is_Some (modulatesOf this)))
  end.

Definition isModulatorType (this : AudioNode) (s : Engine) : result string :=
  m ← isModulator this s;
  if (m : bool) then
    match macroContainerUUID this with
    | Some c =>
        container ← derefNode s c;
        match modulatesOf container with
        | Some p => Ok p
        | None => Ok (default "" (modulatesOf this))
        end
    | None => Ok (default "" (modulatesOf this))
    end
  else Ok "".

(** The loop of [getNodeToConnectToModulator] over the elements of a
    member array: the first element that exposes the property (resolved
    through that element's own wrapper's mapping) supplies the result;
    when none does, [rawNode] is still the array itself. *)
Fixpoint modulatorScan (s : Engine) (self : uuid) (property : string)
  (ms : list member) : result endpoint :=
  match ms with
  | [] => Ok (EArr self)
  | m :: rest =>
      u ← memberUUID s m;
      w ← derefNode s u;
      v ← memberProp s m (resolvedProperty property (paramMapping w));
      if isNotUndef v then Ok (EVal v)
      else modulatorScan s self property rest
  end.

Definition getNodeToConnectToModulator (node : AudioNode) (property : string)
  (s : Engine) : result endpoint :=
  match nativeNode node with
  | Members ms => modulatorScan s (a_uuid node) property ms
  | Leaf h =>
      n ← derefNative s h;
      let v := nativeProp n (resolvedProperty property (paramMapping node)) in
      Ok (if truthy v then EVal v else ENull)
  end.

Definition getNodesToConnect (fromNode toNode : AudioNode) (s : Engine)
  : result NodesToConnect :=
  m ← isModulator fromNode s;
  if m && negb (areSiblings fromNode toNode) then
    property ← isModulatorType fromNode s;
    to ← getNodeToConnectToModulator toNode property s;
    Ok (mkNodes (getNodeToConnect fromNode FromSide) to)
  else
    Ok (mkNodes (getNodeToConnect fromNode FromSide)
                (getNodeToConnect toNode ToSide)).

(** The native [from.connect(to)]: it throws when the host refuses the
    destination, and otherwise records the edge. *)
Definition nativeConnect (h : handle) (to : endpoint) (s : Engine) : result Engine :=
  n ← derefNative s h;
  if hostConnects n to then
    Ok (set_heap (<[h := set_n_out (n_out n ++ [to]) n]> (heap s)) s)
  else Throw "native connect failed".

(** The shared body of [connect] and [connectPrevious]: only a
    primitive has a [connect] method, and the destination must be
    truthy; otherwise the failure is only logged. *)
Definition connectResolved (nodes : NodesToConnect) (s : Engine) : result Engine :=
  match nc_from nodes with
  | ENode h =>
      if endpointTruthy (nc_to nodes) then nativeConnect h (nc_to nodes) s
      else Ok s
  | _ => Ok s
  end.

(** [this.connect(nodeToConnect)] *)
Definition connect (this nodeToConnect : uuid) (s : Engine) : result Engine :=
  thisNode ← derefNode s this;
  toNode ← derefNode s nodeToConnect;
  if decide (a_uuid thisNode ≠ a_uuid toNode) then
    nodes ← getNodesToConnect thisNode toNode s;
    connectResolved nodes s
  else Ok s.

(** [this.connectPrevious()] *)
Definition connectPrevious (this : uuid) (s : Engine) : result Engine :=
  thisNode ← derefNode s this;
  match prevNode thisNode with
  | Some p =>
      pNode ← derefNode s p;
      if decide (a_uuid thisNode ≠ a_uuid pNode) then
        nodes ← getNodesToConnect pNode thisNode s;
        connectResolved nodes s
      else Ok s
  | None => Ok s
  end.

(** [nodes.from.uuid] *)
Definition endpointUUID (s : Engine) (e : endpoint) : result uuid :=
  match e with
  | ENode h => n ← derefNative s h; Ok (n_uuid n)
  | EArr u => Ok u
  | _ => Throw "TypeError: uuid of undefined"
  end.

(** [this.pushNextNode(node)]: the next node is recorded on the wrapper
    of the primitive the connection really starts from.  The recursion
    descends through nested macros; [fuel] bounds its depth. *)
Fixpoint pushNextNode (fuel : nat) (this node : uuid) (s : Engine) : result Engine :=
  match fuel with
  | O => Throw "pushNextNode: out of fuel"
  | S fuel' =>
      thisNode ← derefNode s this;
      toNode ← derefNode s node;
      nodes ← getNodesToConnect thisNode toNode s;
      fromId ← endpointUUID s (nc_from nodes);
      fromNode ← derefNode s fromId;
      if decide (a_uuid fromNode ≠ a_uuid thisNode) then
        pushNextNode fuel' fromId node s
      else
        Ok (set_nodeStore
              (alter (fun n => set_nextNode (nextNode n ++ [node]) n) this (nodeStore s)) s)
  end.

Definition pushFuel (s : Engine) : nat := S (size (nodeStore s)).

Definition setPrevNode (this p : uuid) (s : Engine) : Engine :=
  set_nodeStore (alter (set_prevNode (Some p)) this (nodeStore s)) s.

(** ** Node creation *)

(** One round of the loop in [createNode] (and of the [forEach] in
    [connectPreviousToSelected]) for a source wrapper that exists:
    connect, record the next node, record the previous node.  A wrapper
    found in the registry is passed on by the key it was found under. *)
Definition connectOne (nodeToConnect node : uuid) (s : Engine) : result Engine :=
  s1 ← connect nodeToConnect node s;
  s2 ← pushNextNode (pushFuel s1) nodeToConnect node s1;
  Ok (setPrevNode node nodeToConnect s2).

Fixpoint connectAll (nodesToConnect : list uuid) (node : uuid) (s : Engine)
  : result Engine :=
  match nodesToConnect with
  | [] => Ok s
  | x :: rest =>
      match getNodeWithUUID s x with
      | Some _ =>
          s1 ← connectOne x node s;
          connectAll rest node s1
      | None => connectAll rest node s
      end
  end.

(** [_selectedNodes.length ? _selectedNodes : [getPreviousNode()]]; a
    null previous node is skipped by the loop, so it is left out. *)
Definition nodesToConnect (s : Engine) : list uuid :=
  match selectedNodes s with
  | [] => option_list (getPreviousNode s)
  | l => l
  end.

(** [createNode(type, creationParams, userSettings)], where [u] is the
    uuid generated for the new wrapper. *)
Definition createNode (type : string) (creationParams : CreationParams)
  (userSettings : Settings) (u : uuid) (s : Engine) : result Engine :=
  let '(node0, s0) := newAudioNode type creationParams userSettings u s in
  let '(node, s1) := saveNode node0 s0 in
  if isMacro node then Ok s1
  else
    s2 ← connectAll (nodesToConnect s1) (a_uuid node) s1;
    Ok (setPreviousNode (Some (a_uuid node)) (resetSelection s2)).

(** ** Macro recorder *)

Definition macroParams : CreationParams := mkParams None emptySettings None.

Definition createMacro (name : string) (userParams : Settings) (u : uuid)
  (s : Engine) : result Engine :=
  createNode name macroParams userParams u s.

(** [cracked.begin(name, userParams)] *)
Definition begin (name : string) (userParams : Settings) (u : uuid) (s : Engine)
  : result Engine :=
  if Js.truthyStr name then
    s1 ← createMacro name userParams u s;
    Ok (set_currentMacro (currentMacro s1 ++ [mkMacroRef u name]) s1)
  else Ok s.

Definition setMacroNameSpace (name : string) (node : AudioNode) : AudioNode :=
  if Js.truthyStr name then set_macroNameSpace name node else node.

(** [cracked.end(name)] *)
Definition end_ (name : string) (s : Engine) : Engine :=
  match getCurrentMacro s with
  | Some top =>
      if decide (m_type top = name) then
        set_currentMacro (removelast (currentMacro s))
          (set_nodeStore
             (alter (setMacroNameSpace (getCurrentMacroNamespace s)) (m_uuid top)
                    (nodeStore s)) s)
      else s
  | None => s
  end.

(** ** Finding *)

Fixpoint joinWith (sep : string) (l : list string) : string :=
  match l with
  | [] => ""
  | [x] => x
  | x :: rest => x +:+ sep +:+ joinWith sep rest
  end.

(** The [forEach] at the end of [findInMacro], which splices foreign
    ids out of the array it is iterating over: index [i] is visited
    while it is still inside the (shrinking) array. *)
Fixpoint stripForeign (s : Engine) (macroUUID : uuid) (fuel i : nat)
  (arr : list uuid) : result (list uuid) :=
  match fuel with
  | O => Ok arr
  | S fuel' =>
      match arr !! i with
      | None => Ok arr
      | Some el =>
          if Js.truthyStr el then
            w ← derefNode s el;
            if decide (macroContainerUUID w ≠ Some macroUUID) then
              stripForeign s macroUUID fuel' (S i) (delete i arr)
            else stripForeign s macroUUID fuel' (S i) arr
          else stripForeign s macroUUID fuel' (S i) arr
      end
  end.

Definition findInMacro (selector0 : string) (s : Engine) : result Engine :=
  top ← ofOption "TypeError: no current macro" (getCurrentMacro s);
  let prefix := getCurrentMacroNamespace s in
  let selectorArr :=
    (fun c => if Js.includes prefix c then c else prefix +:+ c)
      <$> Js.split ","%char selector0 in
  let selector := joinWith "," selectorArr in
  let found := getNodesWithSelector (nodeLookup s) selector in
  kept ← stripForeign s (m_uuid top) (length found) 0 found;
  Ok (set_selectedNodes kept (set_currentSelector selector s)).

(** [find(selector?)], the function [cracked] itself *)
Definition find (selector : option string) (s : Engine) : result Engine :=
  match selector with
  | Some sel =>
      if recordingMacro s then
        s1 ← findInMacro sel s;
        Ok (set_previousNode None s1)
      else
        Ok (set_previousNode None
              (set_selectedNodes (getNodesWithSelector (nodeLookup s) sel)
                 (set_currentSelector sel s)))
  | None => Ok (set_previousNode None (reset s))
  end.

Fixpoint connectPreviousToSelected_loop (pNode : option uuid) (ids : list uuid)
  (s : Engine) : result Engine :=
  match ids with
  | [] => Ok s
  | x :: rest =>
      match getNodeWithUUID s x, pNode with
      | Some _, Some p =>
          s1 ← connectOne p x s;
          connectPreviousToSelected_loop pNode rest s1
      | _, _ => connectPreviousToSelected_loop pNode rest s
      end
  end.

Definition connectPreviousToSelected (s : Engine) : result Engine :=
  connectPreviousToSelected_loop (getPreviousNode s) (selectedNodes s) s.

(** [cracked.connect(selector)] *)
Definition cracked_connect (selector : string) (s : Engine) : result Engine :=
  let tmp :=
    match getPreviousNode s with
    | Some p => Some p
    | None =>
        match selectedNodes s with
        | x :: _ => match getNodeWithUUID s x with Some _ => Some x | None => None end
        | [] => None
        end
    end in
  s1 ← find (Some selector) s;
  connectPreviousToSelected (setPreviousNode tmp s1).

(** ** Node reset *)

Fixpoint connectEach (this : uuid) (next : list uuid) (s : Engine) : result Engine :=
  match next with
  | [] => Ok s
  | n :: rest => s1 ← connect this n s; connectEach this rest s1
  end.

Definition setIsPlaying (this : uuid) (b : bool) (s : Engine) : Engine :=
  set_nodeStore (alter (set_isPlaying b) this (nodeStore s)) s.

(** [nativeNode.buffer = saved_buffer] *)
Definition setBuffer (r : nativeRef) (b : propval) (s : Engine) : Engine :=
  match r with
  | Leaf h =>
      set_heap (alter (fun n => set_n_props (<["buffer" := b]> (n_props n)) n) h (heap s)) s
  | Members _ => s
  end.

(** The [else] branch of [resetNode], for a wrapper of one primitive. *)
Definition resetLeaf (thisNode : AudioNode) (h : handle) (s : Engine) : result Engine :=
  old ← derefNative s h;
  let saved_buffer := nativeProp old "buffer" in
  let '(native, s1) := audioNodeFactory (parameters thisNode) s in
  let s2 := tagNative native (a_uuid thisNode) s1 in
  let s3 := set_nodeStore
              (alter (set_nativeNode native) (a_uuid thisNode) (nodeStore s2)) s2 in
  s4 ← connectEach (a_uuid thisNode) (nextNode thisNode) s3;
  s5 ← connectPrevious (a_uuid thisNode) s4;
  let s6 := setIsPlaying (a_uuid thisNode) false s5 in
  Ok (if truthy saved_buffer then setBuffer native saved_buffer s6 else s6).

(** [updateNativeNodeHelper]: replace, in the member array owned by
    [arr] and in the nested arrays, the primitive tagged [id]. *)
Fixpoint updateNativeNodeHelper (fuel : nat) (arr : uuid) (newNode : handle)
  (id : uuid) (s : Engine) : result Engine :=
  match fuel with
  | O => Throw "updateNativeNodeHelper: out of fuel"
  | S fuel' =>
      w ← ofOption "TypeError: null wrapper" (nodeStore s !! arr);
      match nativeNode w with
      | Leaf _ => Throw "TypeError: forEach of a primitive"
      | Members ms =>
          (fix each (i : nat) (todo : list member) (s : Engine) : result Engine :=
             match todo with
             | [] => Ok s
             | MArray inner :: rest =>
                 s1 ← updateNativeNodeHelper fuel' inner newNode id s;
                 each (S i) rest s1
             | MNative h :: rest =>
                 n ← derefNative s h;
                 if decide (n_uuid n = id) then
                   each (S i) rest
                     (set_nodeStore
                        (alter (fun a =>
                                  match nativeNode a with
                                  | Members cur =>
                                      set_nativeNode (Members (<[i := MNative newNode]> cur)) a
                                  | Leaf _ => a
                                  end) arr (nodeStore s)) s)
                 else each (S i) rest s
             end) 0 ms s
      end
  end.

(** [this.resetNode(currNode)] *)
Definition resetNode (this : uuid) (currNode : option handle) (s : Engine)
  : result Engine :=
  thisNode ← derefNode s this;
  match nativeNode thisNode with
  | Members _ =>
      c ← ofOption "TypeError: uuid of undefined" currNode;
      n ← derefNative s c;
      w ← derefNode s (n_uuid n);
      match nativeNode w with
      | Leaf h =>
          s1 ← resetLeaf w h s;
          w1 ← derefNode s1 (n_uuid n);
          match nativeNode w1 with
          | Leaf h1 =>
              updateNativeNodeHelper (pushFuel s1) this h1 (n_uuid n)
                (tagNative (Leaf h1) (n_uuid n) s1)
          | Members _ => Throw "TypeError: forEach of a primitive"
          end
      | Members _ => Throw "TypeError: uuid of undefined"
      end
  | Leaf h => resetLeaf thisNode h s
  end.

End Host.

(** ** Sequencer clock ([sequence.js])

    Host time and the step period are exact rationals; the period is
    kept in milliseconds and divided by 1000 wherever it meets host
    time, as in the source.  User callbacks are opaque: an invocation
    is recorded in [calls] together with the selection it runs under,
    and the timer handle [_loopID] is left to the host. *)

Definition Qltb (x y : Q) : bool := negb (Qle_bool y x).

Definition stepPeriod (s : Engine) : Q := (loopInterval s / (1000 # 1))%Q.

Definition toggleGrid (s : Engine) : Engine :=
  if isLoopRunning s then set_ignoreGrid (negb (ignoreGrid s)) s else s.

(** [startLoop], with [now] the host's [currentTime] *)
Definition startLoop (now : Q) (s : Engine) : Engine :=
  if isLoopRunning s then s
  else set_ignoreGrid false
         (set_isLoopRunning true
            (set_loopTimeToNextStep (now + stepPeriod s)%Q s)).

Definition stopLoop (s : Engine) : Engine :=
  if isLoopRunning s then
    set_ignoreGrid true (set_loopTimeToNextStep 0%Q (set_isLoopRunning false s))
  else s.

Definition resetLoop (s : Engine) : Engine :=
  set_loopTimeToNextStep 0%Q
    (set_isLoopRunning false
       (set_loopIndex (-1)%Z
          (set_loopListeners []
             (set_loopData []
                (set_loopCB None
                   (set_ignoreGrid true
                      (set_loopInterval (100 # 1)%Q
                         (set_loopStepSize 16%Z s)))))))).

(** The first argument of [configureLoop]: an options object or a bare
    tempo. *)
Inductive loopOpts :=
| OptsObject (steps : option Z) (interval : option Q)
| OptsTempo (interval : Q).

Definition truthyQ (q : Q) : bool := negb (Qeq_bool q 0%Q).

Definition configureLoop (opts : loopOpts) (fn : option nat)
  (data : option (list propval)) (s : Engine) : Engine :=
  let s1 :=
    match opts with
    | OptsObject steps interval =>
        set_loopInterval
          (match interval with
           | Some i => if truthyQ i then i else (100 # 1)%Q
           | None => (100 # 1)%Q
           end)
          (set_loopStepSize
             (match steps with
              | Some n => if (n =? 0)%Z then 16%Z else n
              | None => 16%Z
              end) s)
    | OptsTempo i =>
        match fn, data with
        | None, None =>
            if truthyQ i then set_loopInterval i (set_loopStepSize 0%Z s) else s
        | _, _ => s
        end
    end in
  let s2 := match fn with Some f => set_loopCB (Some f) s1 | None => s1 end in
  match data with
  | Some d =>
      if decide (Z.of_nat (length d) = loopStepSize s2) then set_loopData d s2
      else set_loopData [] s2
  | None => set_loopData [] s2
  end.

(** [arr[i]] for a numeric index *)
Definition arrayAt (arr : list propval) (i : Z) : propval :=
  if (i <? 0)%Z then PUndefined else default PUndefined (arr !! Z.to_nat i).

(** [cracked.ifUndef(test, def)] *)
Definition ifUndef (test def : propval) : propval :=
  match test with PUndefined => def | _ => test end.

(** The circular advance used for the global and the listener index *)
Definition advance (index stepSize : Z) : Z :=
  if (index <? stepSize - 1)%Z then (index + 1)%Z else 0%Z.

(** One round of the listener loop in [loopStep]: the listener as it
    is left behind, and the call that was made. *)
Definition serveListener (globalStepSize : Z) (l : Listener) : Listener * Call :=
  let index := l_loopIndex l in
  let stepSize := l_loopStepSize l in
  let data := l_data l in
  let l' :=
    if (globalStepSize =? 0)%Z && negb (stepSize =? 0)%Z then
      mkListener (l_eventType l) (l_callback l) (l_data l) (l_loopStepSize l)
                 (advance index stepSize) (l_selection l) (l_selector l)
    else l in
  (l', mkCall (l_callback l) index (ifUndef (arrayAt data index) PNull) data
              (l_selection l)).

(** [loopStep] *)
Definition loopStep (s : Engine) : Engine :=
  let s1 :=
    if (loopStepSize s =? 0)%Z then s
    else set_loopIndex (advance (loopIndex s) (loopStepSize s)) s in
  let s2 :=
    match loopCB s1 with
    | Some cb =>
        set_calls (calls s1 ++
                   [mkCall cb (loopIndex s1)
                      (ifUndef (arrayAt (loopData s1) (loopIndex s1)) PNull)
                      (loopData s1) (selectedNodes s1)]) s1
    | None => s1
    end in
  let served := serveListener (loopStepSize s2) <$> loopListeners s2 in
  set_calls (calls s2 ++ (snd <$> served))
    (set_loopListeners (fst <$> served) s2).

(** [checkup], the timer callback, with [now] the host's [currentTime] *)
Definition checkup (now : Q) (s : Engine) : Engine :=
  let timeAtPreviousStep := (loopTimeToNextStep s - stepPeriod s)%Q in
  if Qltb now (loopTimeToNextStep s) && Qltb timeAtPreviousStep now then
    let s1 := loopStep s in
    set_loopTimeToNextStep (loopTimeToNextStep s1 + stepPeriod s1)%Q s1
  else s.

(** [cracked.bind(eventType, fn, data)]: reading [data.length] throws
    when no data array is passed. *)
Definition bind (eventType : string) (fn : option nat)
  (data : option (list propval)) (s : Engine) : result Engine :=
  match fn with
  | Some f =>
      if decide (eventType = "step") then
        match data with
        | Some d =>
            Ok (set_loopListeners
                  (loopListeners s ++
                   [mkListener eventType f d (Z.of_nat (length d)) (-1)%Z
                               (selectedNodes s) (currentSelector s)]) s)
        | None => Throw "TypeError: length of undefined"
        end
      else Ok s
  | None => Ok s
  end.

(** [cracked.unbind(eventType)] *)
Definition unbind (eventType : string) (s : Engine) : Engine :=
  if decide (eventType = "step") then
    let tmp :=
      foldl (fun tmp el =>
               if decide (currentSelector s ≠ l_selector el) then tmp ++ [el]
               else tmp)
            [] (loopListeners s) in
    set_loopListeners tmp s
  else s.

(** The arguments [cracked.loop] dispatches on *)
Inductive loopArg :=
| LoopStop
| LoopStart
| LoopReset
| LoopToggleGrid
| LoopConfigure (opts : loopOpts) (fn : option nat) (data : option (list propval)).

(** [cracked.loop(...)]; a bare tempo reaches [configureLoop] without
    callback and data. *)
Definition loop (arg : loopArg) (now : Q) (s : Engine) : Engine :=
  match arg with
  | LoopStop => stopLoop s
  | LoopStart => startLoop now s
  | LoopReset => resetLoop s
  | LoopToggleGrid => toggleGrid s
  | LoopConfigure (OptsTempo i) _ _ => configureLoop (OptsTempo i) None None s
  | LoopConfigure opts fn data => configureLoop opts fn data s
  end.

(** The state the script starts from: empty registry, no selection, the
    context's destination as the only primitive, sequencer defaults. *)
Definition initialEngine : Engine :=
  mkEngine ∅ ∅ None [] "" [] {[ 0 := mkNative "" ∅ [] ]} 0
           false true 16%Z (100 # 1)%Q None [] (-1)%Z [] 0%Q [].

(** The bundled [dist/cracked.js] carries an earlier [loopStep]: the
    global index always advances and every listener is called with it.
    [checkup] and [unbind] have the same text in both files. *)
Module Dist.

Definition loopStep (s : Engine) : Engine :=
  let s1 := set_loopIndex (advance (loopIndex s) (loopStepSize s)) s in
  let s2 :=
    match loopCB s1 with
    | Some cb =>
        set_calls (calls s1 ++
                   [mkCall cb (loopIndex s1)
                      (ifUndef (arrayAt (loopData s1) (loopIndex s1)) PNull)
                      (loopData s1) (selectedNodes s1)]) s1
    | None => s1
    end in
  set_calls (calls s2 ++
             ((fun l => mkCall (l_callback l) (loopIndex s2)
                          (ifUndef (arrayAt (l_data l) (loopIndex s2)) PNull)
                          (l_data l) (l_selection l)) <$> loopListeners s2)) s2.

Definition checkup (now : Q) (s : Engine) : Engine :=
  let timeAtPreviousStep := (loopTimeToNextStep s - stepPeriod s)%Q in
  if Qltb now (loopTimeToNextStep s) && Qltb timeAtPreviousStep now then
    let s1 := loopStep s in
    set_loopTimeToNextStep (loopTimeToNextStep s1 + stepPeriod s1)%Q s1
  else s.

End Dist.

(** ** Specification-side notions *)

(** What a single clause resolves to: nothing when it is empty or not
    indexed, the first indexed id for an id clause, the whole index
    entry otherwise. *)
Definition clauseNodes (lookup : gmap string (list string)) (clause : string)
  : list string :=
  if Js.truthyStr clause then
    match lookup !! clause with
    | Some ids =>
        match getSelectorType clause with
        | SelId => take 1 ids
        | _ => ids
        end
    | None => []
    end
  else [].

(** The ids of all clauses, left to right, duplicates included. *)
Definition allClauseNodes (lookup : gmap string (list string)) (selector : string)
  : list string :=
  mjoin (clauseNodes lookup <$> Js.split ","%char selector).

Definition bucket (lookup : gmap string (list string)) (k : string) : list string :=
  default [] (lookup !! k).

(** The keys [setNodeLookup] files a wrapper under. *)
Definition indexKeys (ns type : string) (settings : Settings) : list string :=
  match s_id settings with Some i => [ns +:+ "#" +:+ i] | None => [] end ++
  match s_class settings with Some c => [ns +:+ "." +:+ c] | None => [] end ++
  ["*"; ns +:+ type].

(** The bare selectors for a wrapper's type, id and class. *)
Definition bareKeys (type : string) (settings : Settings) : list string :=
  [type] ++
  match s_id settings with Some i => ["#" +:+ i] | None => [] end ++
  match s_class settings with Some c => ["." +:+ c] | None => [] end.

(** A selector made of one plain token: no comma, no space, not the
    wildcard. *)
Definition plainToken (t : string) : Prop :=
  Js.includes "," t = false ∧ Js.includes " " t = false ∧ t ≠ "*".

(** The step window of the sequencer, in host time. *)
Definition inStepWindow (now : Q) (s : Engine) : Prop :=
  (loopTimeToNextStep s - stepPeriod s < now)%Q ∧ (now < loopTimeToNextStep s)%Q.

(** Everything of the state except the registry and the primitives. *)
Definition session (s : Engine) : Engine := set_heap ∅ (set_nodeStore ∅ s).


(** The wrapper on which a connection out of [this] is recorded by
    [pushNextNode]: the wrapper of the primitive at the output boundary
    of [this] -- [this] itself for a leaf, and for a macro the carrier
    of its last member. *)
Inductive carrier (s : Engine) : uuid → uuid → Prop :=
| carrier_here this thisNode fromId fromNode :
    derefNode s this = Ok thisNode →
    endpointUUID s (getNodeToConnect thisNode FromSide) = Ok fromId →
    derefNode s fromId = Ok fromNode →
    a_uuid fromNode = a_uuid thisNode →
    carrier s this this
| carrier_step this thisNode fromId fromNode w :
    derefNode s this = Ok thisNode →
    endpointUUID s (getNodeToConnect thisNode FromSide) = Ok fromId →
    derefNode s fromId = Ok fromNode →
    a_uuid fromNode ≠ a_uuid thisNode →
    carrier s fromId w →
    carrier s this w.

Definition pushNext (node : uuid) (n : AudioNode) : AudioNode :=
  set_nextNode (nextNode n ++ [node]) n.





(** The state right after the primitive swap of [resetNode]: the fresh
    primitive, tagged with the wrapper's uuid, built by the host from
    the wrapper's creation parameters and without edges, is the
    wrapper's primitive. *)
Definition afterSwap (hostProps : handle -> CreationParams -> gmap string propval)
  (node : AudioNode) (s : Engine) : Engine :=
  let h' := fresh (dom (heap s)) in
  set_nodeStore (<[a_uuid node := set_nativeNode (Leaf h') node]> (nodeStore s))
    (set_heap (<[h' := mkNative (a_uuid node) (hostProps h' (parameters node)) []]>
                 (heap s)) s).

(** Native edges are only ever added: every primitive keeps its tag,
    its properties and the edges it has. *)
Definition outGrows (s s' : Engine) : Prop :=
  ∀ h n, heap s !! h = Some n →
    ∃ n', heap s' !! h = Some n' ∧ n_uuid n' = n_uuid n ∧ n_props n' = n_props n ∧
          ∀ e, e ∈ n_out n → e ∈ n_out n'.

(** The fields of a wrapper and of a primitive that connecting never
    writes. *)
Definition nodeCore (n : AudioNode) : AudioNode :=
  set_isPlaying false (set_nextNode [] (set_prevNode None n)).

Definition nativeCore (n : Native) : Native := set_n_out [] n.

(** Two states with the same wrappers and primitives up to adjacency
    links, playing flags and native edges. *)
Definition sameShape (s s' : Engine) : Prop :=
  (∀ u, nodeCore <$> nodeStore s !! u = nodeCore <$> nodeStore s' !! u) ∧
  (∀ h, nativeCore <$> heap s !! h = nativeCore <$> heap s' !! h).

Definition resultRel {A} (R : A → A → Prop) (r r' : result A) : Prop :=
  match r, r' with
  | Ok a, Ok a' => R a a'
  | Throw e, Throw e' => e = e'
  | _, _ => False
  end.

Definition coreEq (n n' : AudioNode) : Prop := nodeCore n = nodeCore n'.
Definition nativeCoreEq (n n' : Native) : Prop := nativeCore n = nativeCore n'.

(** ** Scripts: sequences of public operations *)

Inductive op :=
| OpFind (selector : option string)
| OpBegin (name : string) (userParams : Settings) (u : uuid)
| OpEnd (name : string)
| OpCreate (type : string) (cp : CreationParams) (userSettings : Settings) (u : uuid)
| OpConnect (selector : string)
| OpLoop (arg : loopArg) (now : Q)
| OpTick (now : Q)
| OpBind (eventType : string) (fn : option nat) (data : option (list propval))
| OpUnbind (eventType : string).

(** The uuid an operation generates, if it creates a wrapper. *)
Definition opUUID (o : op) : list uuid :=
  match o with
  | OpBegin _ _ u | OpCreate _ _ _ u => [u]
  | _ => []
  end.

Section Scripts.

Variable hostHas : string -> bool.
Variable hostProps : handle -> CreationParams -> gmap string propval.
Variable hostConnects : Native -> endpoint -> bool.

Definition runOp (o : op) (s : Engine) : result Engine :=
  match o with
  | OpFind selector => find selector s
  | OpBegin name userParams u => begin hostHas hostProps hostConnects name userParams u s
  | OpEnd name => Ok (end_ name s)
  | OpCreate type cp userSettings u =>
      createNode hostHas hostProps hostConnects type cp userSettings u s
  | OpConnect selector => cracked_connect hostConnects selector s
  | OpLoop arg now => Ok (loop arg now s)
  | OpTick now => Ok (checkup now s)
  | OpBind eventType fn data => bind eventType fn data s
  | OpUnbind eventType => Ok (unbind eventType s)
  end.

Fixpoint runOps (ops : list op) (s : Engine) : result Engine :=
  match ops with
  | [] => Ok s
  | o :: rest => s1 ← runOp o s; runOps rest s1
  end.

End Scripts.

(** ** A small host and some scripts *)

(** A host with oscillators, gains and buffer sources, whose native
    [connect] accepts primitives and control parameters. *)
Definition demoHas (m : string) : bool :=
  bool_decide (m ∈ ["createOscillator"; "createGain"; "createBufferSource"]).

Definition demoProps (h : handle) (cp : CreationParams) : gmap string propval :=
  match cp_method cp with
  | Some "createOscillator" =>
      {[ "frequency" := PParam h "frequency"; "detune" := PParam h "detune" ]}
  | Some "createGain" => {[ "gain" := PParam h "gain" ]}
  | Some "createBufferSource" =>
      {[ "playbackRate" := PParam h "playbackRate"; "buffer" := PBuffer 7 ]}
  | _ => ∅
  end.

Definition demoConnects (n : Native) (e : endpoint) : bool :=
  match e with
  | ENode _ | EVal (PParam _ _) => true
  | _ => false
  end.

(** Creation parameters of [cracked.osc], [cracked.gain] and
    [cracked.buffer]. *)
Definition oscParams : CreationParams :=
  mkParams (Some "createOscillator") emptySettings
           (Some {[ "frequency" := "frequency.value"; "detune" := "detune.value" ]}).

Definition gainParams : CreationParams :=
  mkParams (Some "createGain") emptySettings (Some {[ "gain" := "gain.value" ]}).

Definition bufferParams : CreationParams :=
  mkParams (Some "createBufferSource") emptySettings
           (Some {[ "speed" := "playbackRate.value"; "start" := "loopStart";
                    "end" := "loopEnd" ]}).

Definition modulating (p : string) : Settings := mkSettings None None (Some p) None ∅.

Definition demoCreate := createNode demoHas demoProps demoConnects.
Definition demoBegin := begin demoHas demoProps demoConnects.

Definition orInitial (r : result Engine) : Engine :=
  match r with Ok s => s | Throw _ => initialEngine end.

(** A running clock with a 100 ms period whose next step is due at
    host time 1: a tick at 19/20 fires and moves the target to 11/10, a
    tick at exactly 1 does not. *)
Definition tickingEngine : Engine :=
  set_loopTimeToNextStep (1 # 1)%Q (set_isLoopRunning true initialEngine).

(** [__().lfo()]: an oscillator into a gain inside a macro that
    modulates [frequency]; then, on a new chain, a macro [outer] whose
    only member is the macro [sine] around one oscillator. *)
Definition lfoThenNested : Engine :=
  Eval vm_compute in
    orInitial
      (s ← demoBegin "lfo" (modulating "frequency") "L" initialEngine;
       s ← demoCreate "osc" oscParams emptySettings "L1" s;
       s ← demoCreate "gain" gainParams emptySettings "L2" s;
       s ← find None (end_ "lfo" s);
       s ← demoBegin "outer" emptySettings "T" s;
       s ← demoBegin "sine" emptySettings "S" s;
       s ← demoCreate "osc" oscParams emptySettings "S1" s;
       Ok (end_ "outer" (end_ "sine" s))).

Definition lfoGain : AudioNode :=
  Eval vm_compute in
    default (mkNode "" None "" macroParams "" (Members []) None false [] ∅)
            (nodeStore lfoThenNested !! "L2").

Definition outerMacro : AudioNode :=
  Eval vm_compute in
    default (mkNode "" None "" macroParams "" (Members []) None false [] ∅)
            (nodeStore lfoThenNested !! "T").

(** [begin("O"); begin("M"); osc(); end("M"); end("O")] *)
Definition nestedMacroScript : list op :=
  [OpBegin "O" emptySettings "uo"; OpBegin "M" emptySettings "um";
   OpCreate "osc" oscParams emptySettings "u1"; OpEnd "M"; OpEnd "O"].

Definition afterNestedMacro : Engine :=
  Eval vm_compute in
    orInitial (runOps demoHas demoProps demoConnects nestedMacroScript initialEngine).

(** [begin("M")], then inside it an oscillator with id [foo]. *)
Definition recordingM : Engine :=
  Eval vm_compute in orInitial (demoBegin "M" emptySettings "um" initialEngine).

Definition fooSettings : Settings := mkSettings (Some "foo") None None None ∅.

Definition recordedFoo : Engine :=
  Eval vm_compute in
    orInitial (demoCreate "osc" oscParams fooSettings "u1" recordingM).

Definition afterEndM : Engine :=
  Eval vm_compute in
    orInitial (runOps demoHas demoProps demoConnects
                 [OpEnd "M"; OpFind (Some "osc")] recordedFoo).

(** [__().buffer()], then [__("buffer")], then [gain()]: the gain is
    created with the buffer source selected. *)
Definition selectedBuffer : Engine :=
  Eval vm_compute in
    orInitial (s ← demoCreate "buffer" bufferParams emptySettings "a" initialEngine;
               find (Some "buffer") s).

Definition afterGain : Engine :=
  Eval vm_compute in
    orInitial (demoCreate "gain" gainParams emptySettings "b" selectedBuffer).

(** The buffer source of [afterGain], and the state after resetting
    it. *)
Definition bufferWrapper : AudioNode :=
  Eval vm_compute in
    default (mkNode "" None "" macroParams "" (Members []) None false [] ∅)
            (nodeStore afterGain !! "a").

Definition afterReset : Engine :=
  Eval vm_compute in
    orInitial (resetNode demoHas demoProps demoConnects "a" None afterGain).

(** Listeners bound under ["sine"] and under [".bar"]; with [".bar"]
    the current selector, [unbind("step")] removes only the second. *)
Definition twoListeners : Engine :=
  Eval vm_compute in
    orInitial (s ← find (Some "sine") initialEngine;
               s ← bind "step" (Some 1) (Some []) s;
               s ← find (Some ".bar") s;
               s ← bind "step" (Some 2) (Some []) s;
               find (Some ".bar") s).

(** ** Runs of the sequencer *)

(** [k] steps in a row. *)
Definition steps (k : nat) (s : Engine) : Engine := Nat.iter k loopStep s.

(** The timer firing at each of the host times [ts] in turn. *)
Definition ticks (ts : list Q) (s : Engine) : Engine :=
  foldl (fun st t => checkup t st) s ts.


(** The call one step makes to a listener, and the listener as a step
    leaves it when no global step count is configured. *)
Definition callOf (l : Listener) : Call :=
  mkCall (l_callback l) (l_loopIndex l)
         (ifUndef (arrayAt (l_data l) (l_loopIndex l)) PNull) (l_data l)
         (l_selection l).

Definition stepListener (l : Listener) : Listener :=
  if (l_loopStepSize l =? 0)%Z then l
  else mkListener (l_eventType l) (l_callback l) (l_data l) (l_loopStepSize l)
                  (advance (l_loopIndex l) (l_loopStepSize l))
                  (l_selection l) (l_selector l).

(** The call a step makes to the global callback, if there is one. *)
Definition globalCall (s : Engine) : list Call :=
  match loopCB s with
  | Some cb =>
      [mkCall cb (loopIndex s) (ifUndef (arrayAt (loopData s) (loopIndex s)) PNull)
              (loopData s) (selectedNodes s)]
  | None => []
  end.

(** The sequencer's variables and the graph's variables. *)
Definition sequencerOf (s : Engine) :=
  (isLoopRunning s, ignoreGrid s, loopStepSize s, loopInterval s, loopCB s,
   loopData s, loopIndex s, loopListeners s, loopTimeToNextStep s, calls s).

Definition graphOf (s : Engine) :=
  (nodeStore s, nodeLookup s, previousNode s, selectedNodes s, currentSelector s,
   currentMacro s, heap s, destination s).

Definition isSequencerOp (o : op) : bool :=
  match o with
  | OpLoop _ _ | OpTick _ | OpBind _ _ _ | OpUnbind _ => true
  | _ => false
  end.

(** The step data, when there is any, has one item per step, and the
    step index is never below its initial value. *)
Definition stepDataFits (s : Engine) : Prop :=
  (-1 ≤ loopIndex s)%Z ∧
  (loopData s = [] ∨ Z.of_nat (length (loopData s)) = loopStepSize s).

(** [k] steps of the bundled file's sequencer. *)
Definition distSteps (k : nat) (s : Engine) : Engine := Nat.iter k Dist.loopStep s.

(** [loop(200)] then [bind("step", f, [10, 20, 30])]: a tempo without a
    global step count, and one listener with three items. *)
Definition tempoEngine : Engine :=
  Eval vm_compute in
    orInitial (bind "step" (Some 1) (Some [PNum 10; PNum 20; PNum 30])
                 (loop (LoopConfigure (OptsTempo (200 # 1)%Q) None None) 0%Q
                       initialEngine)).

(** ** Finding inside a macro *)

(** The test of the [forEach] in [findInMacro] on an id whose wrapper
    exists: a truthy id whose wrapper belongs to another macro (or to
    none). *)
Definition foreignTo (s : Engine) (macroUUID : uuid) (el : uuid) : bool :=
  Js.truthyStr el &&
  match getNodeWithUUID s el with
  | Some w => bool_decide (macroContainerUUID w ≠ Some macroUUID)
  | None => false
  end.

(** What that [forEach] leaves of the array: a foreign element is
    spliced out, and the element that slides into its place is passed
    over. *)
Fixpoint afterStrip (foreign : uuid → bool) (arr : list uuid) : list uuid :=
  match arr with
  | [] => []
  | x :: rest =>
      if foreign x then
        match rest with
        | [] => []
        | y :: rest' => y :: afterStrip foreign rest'
        end
      else x :: afterStrip foreign rest
  end.

(** The selector [findInMacro] really looks up: every clause that does
    not contain the namespace gets it as a prefix. *)
Definition scopedSelector (s : Engine) (selector0 : string) : string :=
  let prefix := getCurrentMacroNamespace s in
  joinWith ","
    ((fun c => if Js.includes prefix c then c else prefix +:+ c)
       <$> Js.split ","%char selector0).

(** Three [sine]-like macros in a row, each around one oscillator, the
    third still recording. *)
Definition thirdSine : Engine :=
  Eval vm_compute in
    orInitial
      (s ← demoBegin "sine" emptySettings "A" initialEngine;
       s ← demoCreate "osc" oscParams emptySettings "a1" s;
       s ← find None (end_ "sine" s);
       s ← demoBegin "sine" emptySettings "B" s;
       s ← demoCreate "osc" oscParams emptySettings "b1" s;
       s ← find None (end_ "sine" s);
       s ← demoBegin "sine" emptySettings "C" s;
       demoCreate "osc" oscParams emptySettings "c1" s).

(** A wrapper with the class attribute ["a,b"]. *)
Definition twoClasses : AudioNode :=
  mkNode "u" None ""
         (mkParams (Some "createOscillator") (mkSettings None (Some "a,b") None None ∅) None)
         "osc" (Leaf 1) None false [] ∅.

(** ** Filtering and searching *)

(** [this.getID()] and [this.getClass()] *)
Definition getID (n : AudioNode) : string :=
  default "" (s_id (cp_settings (parameters n))).

Definition getClass (n : AudioNode) : string :=
  default "" (s_class (cp_settings (parameters n))).

(** The [match] of [cracked.filter]: the pattern [/^\.|\#/] matches a
    leading dot or a hash anywhere, and then the first character is
    dropped. *)
Definition filterName (str : string) : string :=
  if Js.startsWith "." str || Js.includes "#" str then Js.drop 1 str else str.

(** The test in the [forEach] of [cracked.filter] *)
Definition filterTest (str : string) (node : AudioNode) : bool :=
  match getSelectorType str with
  | SelType => bool_decide (nodeType node = filterName str)
  | SelClass => bool_decide (getClass node = filterName str)
  | SelId => bool_decide (getID node = filterName str)
  end.

(** [cracked.filter(selector?)]: the selected ids that pass the test;
    a selected id without wrapper makes it throw. *)
Definition cracked_filter (selector : option string) (s : Engine) : result (list uuid) :=
  match selector with
  | Some str =>
      foldl (fun acc nodeID =>
               tmp ← acc;
               node ← derefNode s nodeID;
               Ok (if filterTest str node then tmp ++ [nodeID] else tmp))
            (Ok []) (selectedNodes s)
  | None => Ok []
  end.

(** [this.search(str)] on a wrapper *)
Definition search (this : AudioNode) (str : string) (s : Engine) : result (list uuid) :=
  if Js.truthyStr str then
    foldl (fun acc id =>
             nodes ← acc;
             w ← derefNode s id;
             Ok (if bool_decide (macroContainerUUID w = Some (a_uuid this))
                 then nodes ++ [id] else nodes))
          (Ok []) (getNodesWithSelector (nodeLookup s) (macroNameSpace this +:+ str))
  else Ok [].

(** Whether the wrapper of a selected id passes the filter, and whether
    a found id belongs to a macro. *)
Definition passes (s : Engine) (str : string) (u : uuid) : bool :=
  match getNodeWithUUID s u with
  | Some n => filterTest str n
  | None => false
  end.

Definition memberOf (s : Engine) (macroUUID : uuid) (u : uuid) : bool :=
  match getNodeWithUUID s u with
  | Some w => bool_decide (macroContainerUUID w = Some macroUUID)
  | None => false
  end.

(** The three [sine] macros of [thirdSine] with the third one closed,
    and the wrapper of that third macro. *)
Definition closedSines : Engine := Eval vm_compute in end_ "sine" thirdSine.

Definition sineC : AudioNode :=
  Eval vm_compute in
    default (mkNode "" None "" macroParams "" (Members []) None false [] ∅)
            (nodeStore closedSines !! "C").

(** ** What scripts keep *)

(** The uuids of the wrappers an operation registers, and the type it
    registers them with. *)
Definition createdBy (o : op) : list uuid :=
  match o with
  | OpBegin name _ u => if Js.truthyStr name then [u] else []
  | OpCreate _ _ _ u => [u]
  | _ => []
  end.

Definition createdType (o : op) : option string :=
  match o with
  | OpBegin name _ _ => Some name
  | OpCreate type _ _ _ => Some type
  | _ => None
  end.



(** ** Nested arrays *)

(** An array whose elements are items or again such arrays. *)
Inductive nested (A : Type) : Type :=
| NItem (a : A)
| NArray (l : list (nested A)).
Arguments NItem {A} a.
Arguments NArray {A} l.

(** One round of the loop in [flatten(a, r)]: an element that is an
    array is flattened into the accumulator [r], any other element is
    pushed on it. *)
Fixpoint flattenInto {A : Type} (x : nested A) (r : list A) : list A :=
  match x with
  | NItem a => r ++ [a]
  | NArray l =>
      (fix loop (l : list (nested A)) (r : list A) : list A :=
         match l with
         | [] => r
         | y :: rest => loop rest (flattenInto y r)
         end) l r
  end.

(** [flatten(a, r)] *)
Definition flatten {A : Type} (a : list (nested A)) (r : list A) : list A :=
  foldl (fun r x => flattenInto x r) r a.

(** The items of a nested array, from left to right. *)
Fixpoint itemsOf {A : Type} (x : nested A) : list A :=
  match x with
  | NItem a => [a]
  | NArray l => flat_map itemsOf l
  end.

(** ** Playback *)

(** The engine together with what the host has been asked to play: the
    primitives on which the native [start], and those on which the
    native [stop], has been called, in call order. *)
Record Player := mkPlayer {
  engine : Engine;
  started : list handle;
  stopped : list handle
}.

(** [__.isFun(node[name])] for a primitive *)
Definition hasMethod (n : Native) (name : string) : bool :=
  match nativeProp n name with PFun _ => true | _ => false end.

(** The elements of the member array that the macro wrapper [owner]
    owns, as they are now. *)
Definition membersOf (s : Engine) (owner : uuid) : result (list member) :=
  w ← ofOption "TypeError: null wrapper" (nodeStore s !! owner);
  match nativeNode w with
  | Members ms => Ok ms
  | Leaf _ => Throw "TypeError: forEach of a primitive"
  end.

(** [array.forEach(body)] over the member array of [owner], whose
    length was [len] when the loop began: index [i] is read when it is
    reached. *)
Fixpoint forEachMember (body : member → Player → result Player) (owner : uuid)
  (len i : nat) (p : Player) : result Player :=
  match len with
  | O => Ok p
  | S len' =>
      ms ← membersOf (engine p) owner;
      match ms !! i with
      | Some m => p1 ← body m p; forEachMember body owner len' (S i) p1
      | None => forEachMember body owner len' (S i) p
      end
  end.

Section Playback.

Variable hostHas : string -> bool.
Variable hostProps : handle -> CreationParams -> gmap string propval.
Variable hostConnects : Native -> endpoint -> bool.

(** [this.start(nodeParam)], with [cur] the node it works on: the
    wrapper's own native node at first, a member in the recursion.
    [fuel] bounds the nesting depth. *)
Fixpoint startFrom (fuel : nat) (this : uuid) (cur : member) (p : Player)
  : result Player :=
  match fuel with
  | O => Throw "start: out of fuel"
  | S fuel' =>
      match cur with
      | MArray owner =>
          ms ← membersOf (engine p) owner;
          forEachMember (startFrom fuel' this) owner (length ms) 0 p
      | MNative h =>
          n ← derefNative (engine p) h;
          if hasMethod n "start" then
            wrapper ← derefNode (engine p) (n_uuid n);
            if negb (isPlaying wrapper) then
              Ok (mkPlayer (setIsPlaying this true
                              (setIsPlaying (n_uuid n) true (engine p)))
                           (started p ++ [h]) (stopped p))
            else Ok p
          else Ok p
      end
  end.

(** [this.stop(nodeParam)] *)
Fixpoint stopFrom (fuel : nat) (this : uuid) (cur : member) (p : Player)
  : result Player :=
  match fuel with
  | O => Throw "stop: out of fuel"
  | S fuel' =>
      match cur with
      | MArray owner =>
          ms ← membersOf (engine p) owner;
          forEachMember (stopFrom fuel' this) owner (length ms) 0 p
      | MNative h =>
          n ← derefNative (engine p) h;
          if hasMethod n "stop" then
            wrapper ← derefNode (engine p) (n_uuid n);
            if isPlaying wrapper then
              s1 ← resetNode hostHas hostProps hostConnects this (Some h) (engine p);
              Ok (mkPlayer (setIsPlaying this false (setIsPlaying (n_uuid n) false s1))
                           (started p) (stopped p ++ [h]))
            else Ok p
          else Ok p
      end
  end.

(** The native node of the wrapper found under [id], as an element:
    its primitive, or its own member array. *)
Definition ownNode (id : uuid) (node : AudioNode) : member :=
  match nativeNode node with
  | Leaf h => MNative h
  | Members _ => MArray id
  end.

(** One round of the loop in [cracked.start]. *)
Definition startSelected (id : uuid) (p : Player) : result Player :=
  match getNodeWithUUID (engine p) id with
  | Some currNode =>
      if negb (isPlaying currNode)
      then startFrom (pushFuel (engine p)) id (ownNode id currNode) p
      else Ok p
  | None => Ok p
  end.

(** [cracked.start()]: nothing while a macro is recording; otherwise
    every selected wrapper that is not playing is started. *)
Definition cracked_start (p : Player) : result Player :=
  if recordingMacro (engine p) then Ok p
  else foldl (fun acc id => p0 ← acc; startSelected id p0) (Ok p)
             (selectedNodes (engine p)).

(** One round of the loop in [cracked.stop]. *)
Definition stopSelected (id : uuid) (p : Player) : result Player :=
  match getNodeWithUUID (engine p) id with
  | Some currNode =>
      if isPlaying currNode
      then stopFrom (pushFuel (engine p)) id (ownNode id currNode) p
      else Ok p
  | None => Ok p
  end.

(** [cracked.stop()]: every selected wrapper that is playing is
    stopped. *)
Definition cracked_stop (p : Player) : result Player :=
  foldl (fun acc id => p0 ← acc; stopSelected id p0) (Ok p)
        (selectedNodes (engine p)).

(** A primitive that can be played: it has a native [start] or a
    native [stop]. *)
Definition isSource (n : Native) : bool := hasMethod n "start" || hasMethod n "stop".

(** What playback through leaf wrappers keeps: no primitive has been
    started twice, every started primitive and every wrapper's
    primitive exists, and every wrapper of a playable primitive is
    filed under its own non-empty uuid, is the wrapper its primitive is
    tagged with, was made by a factory method of the host, and, unless
    it is playing, has a primitive that was never started. *)
Definition playsOnce (p : Player) : Prop :=
  NoDup (started p) ∧
  (∀ h, h ∈ started p → is_Some (heap (engine p) !! h)) ∧
  (∀ u w h, nodeStore (engine p) !! u = Some w → nativeNode w = Leaf h →
            is_Some (heap (engine p) !! h)) ∧
  (∀ u w h n, nodeStore (engine p) !! u = Some w → nativeNode w = Leaf h →
              heap (engine p) !! h = Some n → isSource n = true →
              Js.truthyStr u = true ∧ a_uuid w = u ∧ n_uuid n = u ∧
              (isPlaying w = false → h ∉ started p) ∧
              ∃ m, methodOf (parameters w) = Some m ∧ hostHas m = true).

(** Only wrappers of one primitive are selected. *)
Definition leavesSelected (p : Player) : Prop :=
  ∀ u w, u ∈ selectedNodes (engine p) → nodeStore (engine p) !! u = Some w →
         isMacro w = false.

(** What the loops of [cracked.start] and [cracked.stop] keep from one
    selected wrapper to the next. *)
Definition playbackFrame (p p0 : Player) : Prop :=
  playsOnce p0 ∧
  selectedNodes (engine p0) = selectedNodes (engine p) ∧
  currentMacro (engine p0) = currentMacro (engine p) ∧
  (∀ k, isMacro <$> nodeStore (engine p0) !! k = isMacro <$> nodeStore (engine p) !! k).

(** [playsOnce] as a check that runs on a given state: the part for one
    registry entry, and the whole. *)
Definition sourceKept (p : Player) (u : uuid) (w : AudioNode) : bool :=
  match nativeNode w with
  | Members _ => true
  | Leaf h =>
      match heap (engine p) !! h with
      | None => false
      | Some n =>
          negb (isSource n)
          || (Js.truthyStr u && bool_decide (a_uuid w = u) && bool_decide (n_uuid n = u)
              && (isPlaying w || bool_decide (h ∉ started p))
              && match methodOf (parameters w) with
                 | Some m => hostHas m
                 | None => false
                 end)
      end
  end.

Definition playsOnceb (p : Player) : bool :=
  bool_decide (NoDup (started p))
  && forallb (fun h => bool_decide (is_Some (heap (engine p) !! h))) (started p)
  && forallb (fun uw => sourceKept p uw.1 uw.2) (map_to_list (nodeStore (engine p))).

End Playback.

(** A host whose oscillators and buffer sources can be started and
    stopped. *)
Definition playableProps (h : handle) (cp : CreationParams) : gmap string propval :=
  match cp_method cp with
  | Some "createOscillator" | Some "createBufferSource" =>
      <["start" := PFun "start"]> (<["stop" := PFun "stop"]> (demoProps h cp))
  | _ => demoProps h cp
  end.

(** [__().osc().gain()] followed by [__("osc")] on that host; the
    player with nothing played yet, and after [start()]. *)
Definition oscChain : Engine :=
  Eval vm_compute in
    orInitial (s ← createNode demoHas playableProps demoConnects
                     "osc" oscParams emptySettings "o" initialEngine;
               s ← createNode demoHas playableProps demoConnects
                     "gain" gainParams emptySettings "g" s;
               find (Some "osc") s).

Definition oscSelected : Player := mkPlayer oscChain [] [].

Definition oscPlaying : Player :=
  Eval vm_compute in
    match cracked_start oscSelected with
    | Ok p => p
    | Throw _ => oscSelected
    end.

(** * Theorems *)

(** ** Strings *)

Example split_examples :
  Js.split "," "a,,b" = ["a"; ""; "b"] ∧ Js.split "," "" = [""] ∧
  Js.split "," "sine" = ["sine"] ∧ Js.split "," ",x" = [""; "x"].
Proof. repeat split. Qed.

Example removeFirst_examples :
  Js.removeFirst ".value" "frequency.value" = "frequency" ∧
  Js.removeFirst ".value" "loopStart" = "loopStart" ∧
  Js.removeFirst ".value" "a.value.value" = "a.value".
Proof. repeat split. Qed.

Lemma split_nonempty sep s : Js.split sep s ≠ [].
Proof.
  destruct s as [|c r]; simpl; [done|].
  destruct (decide (c = sep)); [done|]. by destruct (Js.split sep r).
Qed.

Lemma split_no_sep sep s :
  Js.includes (String sep EmptyString) s = false → Js.split sep s = [s].
Proof.
  induction s as [|c r IH]; simpl; [done|].
  destruct (decide (sep = c)) as [->|Hne].
  - by destruct r.
  - intros H. destruct (decide (c = sep)); [congruence|].
    rewrite IH; [done|].
    destruct r; simpl in *; [done|]. exact H.
Qed.

(** ** [arrayUnique] *)

Lemma spliceDups_elem x y l : y ∈ spliceDups x l ↔ y ∈ l ∧ x ≠ y.
Proof.
  induction l as [|z r IH]; simpl.
  - split; [inversion 1|intros [H _]; inversion H].
  - destruct (decide (x = z)) as [->|Hne].
    + rewrite IH, elem_of_cons. naive_solver.
    + rewrite !elem_of_cons, IH. naive_solver.
Qed.

Lemma spliceDups_app x l1 l2 :
  spliceDups x (l1 ++ l2) = spliceDups x l1 ++ spliceDups x l2.
Proof.
  induction l1 as [|z r IH]; simpl; [done|].
  destruct (decide (x = z)); simpl; by rewrite IH.
Qed.

Lemma spliceDups_id x l : x ∉ l → spliceDups x l = l.
Proof.
  induction l as [|z r IH]; simpl; [done|].
  rewrite not_elem_of_cons. intros [Hne Hr].
  destruct (decide (x = z)); [done|]. by rewrite IH.
Qed.

Lemma arrayUnique_elem y l : y ∈ arrayUnique l ↔ y ∈ l.
Proof.
  funelim (arrayUnique l); simp arrayUnique; [done|].
  rewrite !elem_of_cons, H, spliceDups_elem.
  destruct (decide (x = y)); naive_solver.
Qed.

Lemma arrayUnique_NoDup l : NoDup (arrayUnique l).
Proof.
  funelim (arrayUnique l); simp arrayUnique; [constructor|].
  constructor; [|done].
  rewrite arrayUnique_elem, spliceDups_elem. naive_solver.
Qed.

Lemma arrayUnique_id l : NoDup l → arrayUnique l = l.
Proof.
  induction 1 as [|x l Hx Hl IH]; simp arrayUnique; [done|].
  by rewrite spliceDups_id, IH.
Qed.

Lemma arrayUnique_app_l a b : arrayUnique (arrayUnique a ++ b) = arrayUnique (a ++ b).
Proof.
  revert b. funelim (arrayUnique a); intros b; simp arrayUnique; [done|].
  simpl. simp arrayUnique. f_equal.
  rewrite !spliceDups_app.
  rewrite (spliceDups_id x (arrayUnique _)).
  - apply H.
  - rewrite arrayUnique_elem, spliceDups_elem. naive_solver.
Qed.



(** ** Selector lookup *)

Lemma selectorStep_clauseNodes lookup nodes clause :
  NoDup nodes →
  selectorStep lookup nodes clause = arrayUnique (nodes ++ clauseNodes lookup clause).
Proof.
  intros Hnodes. unfold selectorStep, clauseNodes.
  destruct (Js.truthyStr clause); [|by rewrite app_nil_r, arrayUnique_id].
  destruct (lookup !! clause) as [tmp|]; [|by rewrite app_nil_r, arrayUnique_id].
  destruct (getSelectorType clause); try done.
  destruct (decide (1 < length tmp)); [done|].
  by rewrite take_ge by lia.
Qed.

Lemma foldl_selectorStep lookup clauses nodes :
  NoDup nodes →
  foldl (selectorStep lookup) nodes clauses
  = arrayUnique (nodes ++ mjoin (clauseNodes lookup <$> clauses)).
Proof.
  revert nodes. induction clauses as [|c cs IH]; intros nodes Hnodes; simpl.
  - by rewrite app_nil_r, arrayUnique_id.
  - rewrite IH.
    + rewrite selectorStep_clauseNodes by done.
      by rewrite arrayUnique_app_l, <- app_assoc.
    + rewrite selectorStep_clauseNodes by done. apply arrayUnique_NoDup.
Qed.

Lemma getNodesWithSelector_arrayUnique lookup selector :
  getNodesWithSelector lookup selector = arrayUnique (allClauseNodes lookup selector).
Proof.
  unfold getNodesWithSelector, allClauseNodes.
  rewrite foldl_selectorStep by constructor. done.
Qed.



Example lookup_three_clauses :
  getNodesWithSelector
    {[ "#foo" := ["n1"; "n9"]; ".bar" := ["n2"; "n1"; "n3"]; "dac" := ["n3"; "n4"] ]}
    "#foo,.bar,,nope,dac"
  = ["n1"; "n2"; "n3"; "n4"].
Proof. vm_compute. reflexivity. Qed.

(** C7.  A clause that [getSelectorType] classifies as an id clause
    resolves to at most one id, the first one indexed under that key,
    however many ids the index holds there: as a selector of its own,
    and as the contribution it makes inside a longer selector. *)
Theorem id_clause_first_only
  (lookup : gmap string (list string)) (clause : string)
  (Hid : getSelectorType clause = SelId)
  (Hone : Js.includes "," clause = false) :
  getNodesWithSelector lookup clause = take 1 (default [] (lookup !! clause)) ∧
  length (getNodesWithSelector lookup clause) ≤ 1 ∧
  (∀ nodes ids, lookup !! clause = Some ids →
     selectorStep lookup nodes clause = arrayUnique (nodes ++ take 1 ids)).
Proof.
  assert (Js.truthyStr clause = true) as Htruthy.
  { destruct clause as [|c r]; [done|]. done. }
  assert (getNodesWithSelector lookup clause = take 1 (default [] (lookup !! clause))) as Heq.
  { unfold getNodesWithSelector. rewrite (split_no_sep _ _ Hone). simpl.
    unfold selectorStep. rewrite Htruthy, Hid.
    destruct (lookup !! clause) as [tmp|]; simpl; [|done].
    destruct (decide (1 < length tmp)).
    - destruct tmp as [|a [|b tmp]]; simpl in *; try lia. by simp arrayUnique.
    - destruct tmp as [|a [|b tmp]]; simpl in *; try lia; by simp arrayUnique. }
  split; [done|]. split.
  - rewrite Heq, length_take. lia.
  - intros nodes ids Hids. unfold selectorStep. rewrite Htruthy, Hid, Hids.
    destruct (decide (1 < length ids)); [done|].
    by rewrite take_ge by lia.
Qed.

Lemma id_clause_first_only_witness :
  getNodesWithSelector {[ "#foo" := ["n1"; "n2"; "n3"] ]} "#foo" = ["n1"].
Proof.
  pose proof (id_clause_first_only {[ "#foo" := ["n1"; "n2"; "n3"] ]} "#foo"
                eq_refl eq_refl) as [H _].
  exact H.
Defined.

(** ** Macro recorder *)

(** C9.  [end(name)] pops the recording stack exactly when the stack is
    non-empty and the type of its top equals [name]; in every other case
    the call returns the state it was given, so the stack, every node's
    macro owner and every namespace string are untouched.  [end_] is a
    total function into [Engine]: it has no way to raise an error. *)
Theorem end_pops_only_on_match (name : string) (s : Engine) :
  (∀ top, getCurrentMacro s = Some top → m_type top = name →
     currentMacro (end_ name s) = removelast (currentMacro s) ∧
     length (currentMacro (end_ name s)) < length (currentMacro s)) ∧
  ((∀ top, getCurrentMacro s = Some top → m_type top ≠ name) → end_ name s = s) ∧
  (currentMacro (end_ name s) ≠ currentMacro s →
     ∃ top, getCurrentMacro s = Some top ∧ m_type top = name).
Proof.
  unfold end_, getCurrentMacro. split; [|split].
  - intros top Htop Hname. rewrite Htop. rewrite decide_True by done. simpl.
    split; [done|].
    destruct (currentMacro s) as [|m ms] eqn:E using rev_ind; [done|].
    rewrite removelast_last, length_app. simpl. lia.
  - intros Hmis. destruct (last (currentMacro s)) as [top|]; [|done].
    rewrite decide_False; [done|]. by apply Hmis.
  - destruct (last (currentMacro s)) as [top|]; [|done].
    destruct (decide (m_type top = name)); [|done].
    intros _. by exists top.
Qed.

Lemma end_pops_only_on_match_witness :
  end_ "N" recordingM = recordingM ∧
  currentMacro (end_ "M" recordingM) = removelast (currentMacro recordingM).
Proof.
  destruct (end_pops_only_on_match "N" recordingM) as (_ & Hmis & _).
  destruct (end_pops_only_on_match "M" recordingM) as (Hpop & _ & _).
  split.
  - apply Hmis. intros top [= <-]. discriminate.
  - apply (Hpop (mkMacroRef "um" "M")); reflexivity.
Defined.

(** ** Sequencer *)

Lemma unbind_fold_filter (cur : string) (ls acc : list Listener) :
  foldl (fun tmp el => if decide (cur ≠ l_selector el) then tmp ++ [el] else tmp) acc ls
  = acc ++ filter (fun l => l_selector l ≠ cur) ls.
Proof.
  revert acc. induction ls as [|l ls IH]; intros acc; simpl.
  - by rewrite app_nil_r.
  - rewrite IH, filter_cons.
    destruct (decide (cur = l_selector l)) as [Heq|Hne].
    + rewrite (decide_False (P := cur ≠ l_selector l)) by (intros H; by apply H).
      rewrite (decide_False (P := l_selector l ≠ cur)) by (intros H; by apply H).
      done.
    + rewrite (decide_True (P := cur ≠ l_selector l)) by done.
      rewrite (decide_True (P := l_selector l ≠ cur)) by (intros H; by apply Hne).
      by rewrite <- app_assoc.
Qed.

(** C8.  [unbind("step")] keeps, in their order, exactly the listeners
    whose recorded selector text differs from the current selector text,
    and changes nothing else in the state. *)
Theorem unbind_step_exact (s : Engine) :
  let s' := unbind "step" s in
  loopListeners s' = filter (fun l => l_selector l ≠ currentSelector s) (loopListeners s) ∧
  (∀ l, l ∈ loopListeners s' ↔ l ∈ loopListeners s ∧ l_selector l ≠ currentSelector s) ∧
  s' = set_loopListeners (loopListeners s') s.
Proof.
  simpl. unfold unbind. simpl.
  rewrite unbind_fold_filter. simpl. split; [done|]. split; [|done].
  intros l. by rewrite list_elem_of_filter, (comm and).
Qed.

Lemma unbind_step_exact_witness :
  loopListeners (unbind "step" twoListeners)
  = filter (fun l => l_selector l ≠ ".bar") (loopListeners twoListeners).
Proof.
  destruct (unbind_step_exact twoListeners) as (H & _).
  exact H.
Defined.

Lemma Qltb_lt (x y : Q) : Qltb x y = true ↔ (x < y)%Q.
Proof.
  unfold Qltb. rewrite negb_true_iff. split.
  - intros H. apply Qnot_le_lt. intros Hle.
    apply Qle_bool_iff in Hle. congruence.
  - intros H. destruct (Qle_bool y x) eqn:E; [|done].
    apply Qle_bool_iff in E. exfalso. by apply (Qlt_not_le x y).
Qed.

Lemma inStepWindow_guard now s :
  Qltb now (loopTimeToNextStep s) && Qltb (loopTimeToNextStep s - stepPeriod s) now = true
  ↔ inStepWindow now s.
Proof.
  unfold inStepWindow. rewrite andb_true_iff, !Qltb_lt. tauto.
Qed.

Lemma loopStep_clock s :
  loopTimeToNextStep (loopStep s) = loopTimeToNextStep s ∧
  loopInterval (loopStep s) = loopInterval s.
Proof.
  unfold loopStep. destruct (loopStepSize s =? 0)%Z; simpl;
    destruct (loopCB s); simpl; done.
Qed.




Example checkup_inside_window :
  loopTimeToNextStep (checkup (19 # 20)%Q tickingEngine) = ((1 # 1) + (100 # 1) / (1000 # 1))%Q ∧
  loopIndex (checkup (19 # 20)%Q tickingEngine) = 0%Z.
Proof. vm_compute. done. Qed.

Example checkup_on_boundary :
  checkup (1 # 1)%Q tickingEngine = tickingEngine ∧
  checkup (9 # 10)%Q tickingEngine = tickingEngine.
Proof. vm_compute. done. Qed.

(** ** Node creation *)

Section Creation.

Variable hostHas : string -> bool.
Variable hostProps : handle -> CreationParams -> gmap string propval.
Variable hostConnects : Native -> endpoint -> bool.

Lemma methodOf_mergedParams cp us : methodOf (mergedParams cp us) = methodOf cp.
Proof. done. Qed.

Lemma audioNodeFactory_session cp s r s1 :
  audioNodeFactory hostHas hostProps cp s = (r, s1) →
  session s1 = session s ∧ nodeStore s1 = nodeStore s ∧ nodeLookup s1 = nodeLookup s ∧
  bool_decide (methodOf cp = None) = match r with Members _ => true | Leaf _ => false end.
Proof.
  unfold audioNodeFactory. destruct (methodOf cp) as [m|].
  - destruct (hostHas m); intros [= <- <-]; done.
  - intros [= <- <-]; done.
Qed.

Lemma newAudioNode_spec type cp us u s node s1 :
  newAudioNode hostHas hostProps type cp us u s = (node, s1) →
  session s1 = session s ∧ nodeStore s1 = nodeStore s ∧ nodeLookup s1 = nodeLookup s ∧
  a_uuid node = u ∧ nodeType node = type ∧ parameters node = mergedParams cp us ∧
  prevNode node = None ∧ nextNode node = [] ∧ macroContainerUUID node = None ∧
  isMacro node = bool_decide (methodOf cp = None).
Proof.
  unfold newAudioNode.
  destruct (audioNodeFactory hostHas hostProps (mergedParams cp us) s) as [r s0] eqn:E.
  apply audioNodeFactory_session in E as (Hs & Hst & Hl & Hm).
  rewrite methodOf_mergedParams in Hm.
  intros [= <- <-]. unfold isMacro. simpl.
  destruct r; simpl; rewrite ?Hm; done.
Qed.

Lemma saveNode_spec node s node1 s1 :
  saveNode node s = (node1, s1) →
  session s1 = set_nodeLookup (nodeLookup s1) (session s) ∧
  a_uuid node1 = a_uuid node ∧ nativeNode node1 = nativeNode node ∧
  prevNode node1 = prevNode node ∧ nextNode node1 = nextNode node ∧
  parameters node1 = parameters node ∧ nodeType node1 = nodeType node.
Proof.
  unfold saveNode, updateMacro.
  destruct (getCurrentMacro s) as [top|]; intros [= <- <-]; simpl.
  - unfold setMacroContainerUUID. destruct (Js.truthyStr (m_uuid top)); done.
  - done.
Qed.

(** C10.  When [createNode] succeeds for creation parameters that name
    a factory method (a non-macro node), the selection is empty, the
    selector text is empty and the previous node is the new node,
    whatever it was connected to.  When the parameters name no method
    (a macro wrapper), and likewise for [begin], the selection, the
    selector text and the previous node are what they were. *)
Theorem createNode_resets_selection
  (type : string) (cp : CreationParams) (us : Settings) (u : uuid) (s s' : Engine)
  (Hok : createNode hostHas hostProps hostConnects type cp us u s = Ok s') :
  (methodOf cp ≠ None →
     selectedNodes s' = [] ∧ currentSelector s' = "" ∧ previousNode s' = Some u) ∧
  (methodOf cp = None →
     selectedNodes s' = selectedNodes s ∧ currentSelector s' = currentSelector s ∧
     previousNode s' = previousNode s) ∧
  (∀ name us0 u0 s0 s0',
     begin hostHas hostProps hostConnects name us0 u0 s0 = Ok s0' →
     selectedNodes s0' = selectedNodes s0 ∧ currentSelector s0' = currentSelector s0 ∧
     previousNode s0' = previousNode s0).
Proof.
  assert (∀ type cp us u s s',
            createNode hostHas hostProps hostConnects type cp us u s = Ok s' →
            methodOf cp = None →
            selectedNodes s' = selectedNodes s ∧ currentSelector s' = currentSelector s ∧
            previousNode s' = previousNode s) as Hmacro.
  { clear. intros type cp us u s s' Hok Hm. unfold createNode in Hok.
    destruct (newAudioNode _ _ type cp us u s) as [node0 s0] eqn:E0.
    destruct (saveNode node0 s0) as [node s1] eqn:E1.
    apply newAudioNode_spec in E0 as (Hs0 & _ & _ & _ & _ & _ & _ & _ & _ & Hmac).
    apply saveNode_spec in E1 as (Hs1 & _ & Hnat & _).
    unfold isMacro in *. rewrite Hnat, Hmac, bool_decide_true in Hok by done.
    injection Hok as <-.
    rewrite Hs0 in Hs1.
    split; [|split].
    - by apply (f_equal selectedNodes) in Hs1.
    - by apply (f_equal currentSelector) in Hs1.
    - by apply (f_equal previousNode) in Hs1. }
  split; [|split].
  - intros Hm. unfold createNode in Hok.
    destruct (newAudioNode _ _ type cp us u s) as [node0 s0] eqn:E0.
    destruct (saveNode node0 s0) as [node s1] eqn:E1.
    apply newAudioNode_spec in E0 as (_ & _ & _ & Hu & _ & _ & _ & _ & _ & Hmac).
    apply saveNode_spec in E1 as (_ & Hu1 & Hnat & _).
    unfold isMacro in *. rewrite Hnat, Hmac, bool_decide_false in Hok by done.
    destruct (connectAll _ _ _ _) as [s2|] eqn:E2; simpl in Hok; [|done].
    injection Hok as <-. simpl. by rewrite Hu1, Hu.
  - intros Hm. by apply (Hmacro _ _ _ _ _ _ Hok Hm).
  - intros name us0 u0 s0 s0'. unfold begin, createMacro.
    destruct (Js.truthyStr name); [|by intros [= <-]].
    destruct (createNode _ _ _ name macroParams us0 u0 s0) as [s1|] eqn:E; simpl; [|done].
    intros [= <-]. simpl. by apply (Hmacro _ _ _ _ _ _ E).
Qed.

End Creation.

(** ** Connection resolver: what it reads and what it writes *)

Lemma sameShape_refl s : sameShape s s.
Proof. by split. Qed.

Lemma sameShape_sym s s' : sameShape s s' → sameShape s' s.
Proof. intros [H1 H2]. by split. Qed.

Lemma sameShape_trans s1 s2 s3 : sameShape s1 s2 → sameShape s2 s3 → sameShape s1 s3.
Proof.
  intros [H1 H2] [H3 H4]. split; intros x.
  - by rewrite H1. - by rewrite H2.
Qed.

Lemma resultRel_eq {A} (r r' : result A) : resultRel eq r r' → r = r'.
Proof. destruct r, r'; simpl; intros; by subst. Qed.

Lemma resultRel_bind {A B} (R : A → A → Prop) (Q : B → B → Prop)
  (m m' : result A) (f f' : A → result B) :
  resultRel R m m' →
  (∀ a a', R a a' → resultRel Q (f a) (f' a')) →
  resultRel Q (m ≫= f) (m' ≫= f').
Proof. destruct m, m'; simpl; try done. intros H Hf. by apply Hf. Qed.

Lemma resultRel_refl {A} (r : result A) : resultRel eq r r.
Proof. by destruct r. Qed.

Lemma coreEq_fields n n' :
  coreEq n n' →
  a_uuid n = a_uuid n' ∧ macroContainerUUID n = macroContainerUUID n' ∧
  parameters n = parameters n' ∧ nativeNode n = nativeNode n' ∧
  paramMapping n = paramMapping n'.
Proof. destruct n, n'. unfold coreEq, nodeCore. simpl. intros [=]. by subst. Qed.

Lemma nativeCoreEq_fields n n' :
  nativeCoreEq n n' → n_uuid n = n_uuid n' ∧ n_props n = n_props n'.
Proof. destruct n, n'. unfold nativeCoreEq, nativeCore. simpl. intros [=]. by subst. Qed.

Lemma fmap_eq_cases {A B} (f : A → B) (o o' : option A) :
  f <$> o = f <$> o' →
  match o, o' with
  | Some a, Some a' => f a = f a'
  | None, None => True
  | _, _ => False
  end.
Proof. destruct o, o'; simpl; intros H; first [discriminate | by injection H | done]. Qed.

Section Shape.

Variables s s' : Engine.
Hypothesis Hshape : sameShape s s'.

Lemma rel_derefNode u : resultRel coreEq (derefNode s u) (derefNode s' u).
Proof.
  unfold derefNode, getNodeWithUUID. destruct (Js.truthyStr u); [|done].
  destruct Hshape as [H _]. specialize (H u). apply fmap_eq_cases in H.
  by destruct (nodeStore s !! u), (nodeStore s' !! u).
Qed.

Lemma rel_derefNative h : resultRel nativeCoreEq (derefNative s h) (derefNative s' h).
Proof.
  unfold derefNative. destruct Hshape as [_ H]. specialize (H h).
  apply fmap_eq_cases in H.
  by destruct (heap s !! h), (heap s' !! h).
Qed.

Lemma rel_memberUUID m : resultRel eq (memberUUID s m) (memberUUID s' m).
Proof.
  destruct m as [h|u]; simpl; [|done].
  eapply resultRel_bind; [apply rel_derefNative|].
  intros a a' Ha. simpl. by apply nativeCoreEq_fields in Ha as [-> _].
Qed.

Lemma rel_memberProp m key : resultRel eq (memberProp s m key) (memberProp s' m key).
Proof.
  destruct m as [h|u]; simpl.
  - eapply resultRel_bind; [apply rel_derefNative|].
    intros a a' Ha. simpl. unfold nativeProp.
    by apply nativeCoreEq_fields in Ha as [-> ->].
  - destruct (decide (key = "uuid")); [done|].
    destruct (decide (key = "length")); [|done].
    destruct Hshape as [H _]. specialize (H u). apply fmap_eq_cases in H.
    destruct (nodeStore s !! u) as [w|], (nodeStore s' !! u) as [w'|]; try done.
    apply coreEq_fields in H as (_ & _ & _ & -> & _).
    by destruct (nativeNode w').
Qed.

Lemma rel_isModulator n n' :
  coreEq n n' → resultRel eq (isModulator n s) (isModulator n' s').
Proof.
  intros Hn. pose proof (coreEq_fields _ _ Hn) as (_ & Hc & Hp & _ & _).
  unfold isModulator, modulatesOf. rewrite Hc, Hp.
  destruct (macroContainerUUID n') as [c|]; [|done].
  eapply resultRel_bind; [apply rel_derefNode|].
  intros a a' Ha. apply coreEq_fields in Ha as (_ & _ & -> & _). simpl.
  apply resultRel_refl.
Qed.

Lemma rel_isModulatorType n n' :
  coreEq n n' → resultRel eq (isModulatorType n s) (isModulatorType n' s').
Proof.
  intros Hn. pose proof (coreEq_fields _ _ Hn) as (_ & Hc & Hp & _ & _).
  unfold isModulatorType.
  eapply resultRel_bind; [by apply rel_isModulator|].
  intros m ? <-. destruct m; [|done].
  unfold modulatesOf. rewrite Hc, Hp.
  destruct (macroContainerUUID n') as [c|]; [|done].
  eapply resultRel_bind; [apply rel_derefNode|].
  intros a a' Ha. apply coreEq_fields in Ha as (_ & _ & -> & _). simpl.
  apply resultRel_refl.
Qed.

Lemma rel_modulatorScan self property ms :
  resultRel eq (modulatorScan s self property ms) (modulatorScan s' self property ms).
Proof.
  induction ms as [|m ms IH]; simpl; [done|].
  eapply resultRel_bind; [apply rel_memberUUID|]. intros u ? <-.
  eapply resultRel_bind; [apply rel_derefNode|]. intros w w' Hw.
  apply coreEq_fields in Hw as (_ & _ & _ & _ & ->).
  eapply resultRel_bind; [apply rel_memberProp|]. intros v ? <-.
  destruct (isNotUndef v); [done|]. apply IH.
Qed.

Lemma rel_getNodeToConnectToModulator n n' property :
  coreEq n n' →
  resultRel eq (getNodeToConnectToModulator n property s)
               (getNodeToConnectToModulator n' property s').
Proof.
  intros Hn. apply coreEq_fields in Hn as (Hu & _ & _ & Hnat & Hmap).
  unfold getNodeToConnectToModulator. rewrite Hu, Hnat, Hmap.
  destruct (nativeNode n') as [h|ms]; [|apply rel_modulatorScan].
  eapply resultRel_bind; [apply rel_derefNative|].
  intros a a' Ha. simpl. unfold nativeProp.
  by apply nativeCoreEq_fields in Ha as [-> ->].
Qed.

Lemma rel_getNodesToConnect f f' t t' :
  coreEq f f' → coreEq t t' →
  resultRel eq (getNodesToConnect f t s) (getNodesToConnect f' t' s').
Proof.
  intros Hf Ht.
  pose proof (coreEq_fields _ _ Hf) as (_ & Hfc & _ & Hfn & _).
  pose proof (coreEq_fields _ _ Ht) as (_ & Htc & _ & Htn & _).
  unfold getNodesToConnect, areSiblings, getNodeToConnect.
  rewrite Hfc, Htc, Hfn, Htn.
  eapply resultRel_bind; [by apply rel_isModulator|]. intros m ? <-.
  destruct (m && _); [|done].
  eapply resultRel_bind; [by apply rel_isModulatorType|]. intros p ? <-.
  eapply resultRel_bind; [by apply rel_getNodeToConnectToModulator|]. intros e ? <-.
  done.
Qed.

Lemma rel_endpointUUID e : resultRel eq (endpointUUID s e) (endpointUUID s' e).
Proof.
  destruct e; simpl; try done.
  eapply resultRel_bind; [apply rel_derefNative|].
  intros a a' Ha. simpl. by apply nativeCoreEq_fields in Ha as [-> _].
Qed.

End Shape.

Lemma bind_Ok_inv {A B} (m : result A) (f : A → result B) b :
  m ≫= f = Ok b → ∃ a, m = Ok a ∧ f a = Ok b.
Proof. destruct m as [a|e]; simpl; [|done]. intros H. by exists a. Qed.

Ltac inv_bind H :=
  let a := fresh "a" in
  let Ha := fresh "H" a in
  apply bind_Ok_inv in H as (a & Ha & H).

Tactic Notation "bind_inv" hyp(H) "as" ident(a) ident(Ha) :=
  apply bind_Ok_inv in H as (a & Ha & H).

Lemma getNodesToConnect_from f t s nodes :
  getNodesToConnect f t s = Ok nodes → nc_from nodes = getNodeToConnect f FromSide.
Proof.
  unfold getNodesToConnect. intros H. inv_bind H.
  destruct (a && _).
  - inv_bind H. inv_bind H. by injection H as <-.
  - by injection H as <-.
Qed.

Lemma derefNode_shape_Ok s s' u n :
  sameShape s s' → derefNode s u = Ok n → ∃ n', derefNode s' u = Ok n' ∧ coreEq n n'.
Proof.
  intros Hs Hn. pose proof (rel_derefNode s s' Hs u) as H. rewrite Hn in H.
  destruct (derefNode s' u) as [n'|]; [|done]. by exists n'.
Qed.

Lemma carrier_shape s s' x w : sameShape s s' → carrier s x w → carrier s' x w.
Proof.
  intros Hs. induction 1 as [this thisNode fromId fromNode H1 H2 H3 H4
                            |this thisNode fromId fromNode w H1 H2 H3 H4 H5 IH].
  - destruct (derefNode_shape_Ok _ _ _ _ Hs H1) as (t' & Ht' & Hc).
    destruct (derefNode_shape_Ok _ _ _ _ Hs H3) as (f' & Hf' & Hcf).
    pose proof (coreEq_fields _ _ Hc) as (Hu & _ & _ & Hn & _).
    pose proof (coreEq_fields _ _ Hcf) as (Huf & _).
    eapply carrier_here; [done| |done|congruence].
    rewrite <- (resultRel_eq _ _ (rel_endpointUUID s s' Hs _)).
    unfold getNodeToConnect in *. by rewrite <- Hn.
  - destruct (derefNode_shape_Ok _ _ _ _ Hs H1) as (t' & Ht' & Hc).
    destruct (derefNode_shape_Ok _ _ _ _ Hs H3) as (f' & Hf' & Hcf).
    pose proof (coreEq_fields _ _ Hc) as (Hu & _ & _ & Hn & _).
    pose proof (coreEq_fields _ _ Hcf) as (Huf & _).
    eapply carrier_step; [done| |done|congruence|done].
    rewrite <- (resultRel_eq _ _ (rel_endpointUUID s s' Hs _)).
    unfold getNodeToConnect in *. by rewrite <- Hn.
Qed.

Lemma carrier_functional s x w w' : carrier s x w → carrier s x w' → w = w'.
Proof.
  induction 1 as [this thisNode fromId fromNode H1 H2 H3 H4
                 |this thisNode fromId fromNode w H1 H2 H3 H4 H5 IH];
    inversion 1 as [? tn fi fn G1 G2 G3 G4|? tn fi fn w0 G1 G2 G3 G4 G5]; subst;
    rewrite H1 in G1; injection G1 as <-;
    rewrite H2 in G2; injection G2 as <-;
    rewrite H3 in G3; injection G3 as <-; try done.
  by apply IH.
Qed.

Lemma pushNextNode_spec fuel this node s s' :
  pushNextNode fuel this node s = Ok s' →
  ∃ w, carrier s this w ∧
       s' = set_nodeStore (alter (pushNext node) w (nodeStore s)) s.
Proof.
  revert this. induction fuel as [|fuel IH]; intros this; simpl; [done|].
  intros H. inv_bind H. inv_bind H. inv_bind H. inv_bind H. inv_bind H.
  apply getNodesToConnect_from in Ha1. rewrite Ha1 in Ha2.
  destruct (decide (a_uuid a3 ≠ a_uuid a)) as [Hne|Heq].
  - destruct (IH _ H) as (w & Hw & ->). exists w. split; [|done].
    by eapply carrier_step.
  - injection H as <-. exists this. split; [|done].
    eapply carrier_here; [done..|]. by destruct (decide (a_uuid a3 = a_uuid a)).
Qed.

Lemma nodeCore_pushNext node n : nodeCore (pushNext node n) = nodeCore n.
Proof. done. Qed.

Lemma nodeCore_set_prevNode p n : nodeCore (set_prevNode p n) = nodeCore n.
Proof. done. Qed.

Lemma store_alter_shape (f : AudioNode → AudioNode) k s :
  (∀ n, nodeCore (f n) = nodeCore n) →
  sameShape s (set_nodeStore (alter f k (nodeStore s)) s).
Proof.
  intros Hf. split; [|done]. intros u. simpl. rewrite lookup_alter.
  destruct (decide (k = u)) as [->|]; [|done].
  destruct (nodeStore s !! u); simpl; [|done]. by rewrite Hf.
Qed.

Lemma nativeConnect_spec hostConnects h to s s' :
  nativeConnect hostConnects h to s = Ok s' →
  ∃ n, heap s !! h = Some n ∧
       s' = set_heap (<[h := set_n_out (n_out n ++ [to]) n]> (heap s)) s.
Proof.
  unfold nativeConnect, derefNative. intros H. inv_bind H.
  destruct (heap s !! h) as [n|] eqn:E; [|done]. injection Ha as <-.
  destruct (hostConnects n to); [|done]. injection H as <-. by exists n.
Qed.

Lemma heap_insert_shape h n n' s :
  heap s !! h = Some n → nativeCore n' = nativeCore n →
  sameShape s (set_heap (<[h := n']> (heap s)) s).
Proof.
  intros Hh Hc. split; [done|]. intros k. simpl. rewrite lookup_insert.
  destruct (decide (h = k)) as [->|]; [|done]. rewrite Hh. simpl. by rewrite Hc.
Qed.

(** What [connect] may change: native edges only. *)
Lemma connect_spec hostConnects this x s s' :
  connect hostConnects this x s = Ok s' →
  nodeStore s' = nodeStore s ∧ session s' = session s ∧ sameShape s s'.
Proof.
  unfold connect. intros H. inv_bind H. inv_bind H.
  destruct (decide (a_uuid a ≠ a_uuid a0)) as [Hne|Heq]; [|injection H as <-; by split].
  inv_bind H. unfold connectResolved in H.
  destruct (nc_from a1); try (injection H as <-; by split).
  destruct (endpointTruthy (nc_to a1)); [|injection H as <-; by split].
  apply nativeConnect_spec in H as (nat0 & Hn & ->).
  split; [done|]. split; [done|]. by eapply heap_insert_shape.
Qed.

Lemma connectOne_spec hostConnects x u s s' :
  connectOne hostConnects x u s = Ok s' →
  ∃ w, carrier s x w ∧ sameShape s s' ∧ session s' = session s ∧
       nodeStore s' = alter (set_prevNode (Some x)) u (alter (pushNext u) w (nodeStore s)).
Proof.
  unfold connectOne. intros H. inv_bind H. inv_bind H. injection H as <-.
  apply connect_spec in Ha as (Hst & Hse & Hsh).
  apply pushNextNode_spec in Ha0 as (w & Hw & ->).
  exists w. split; [|split; [|split]].
  - apply (carrier_shape a s); [by apply sameShape_sym|done].
  - eapply sameShape_trans; [done|]. eapply sameShape_trans.
    + apply (store_alter_shape (pushNext u) w). done.
    + apply (store_alter_shape (set_prevNode (Some x)) u). done.
  - done.
  - simpl. by rewrite Hst.
Qed.





Section DefaultConnection.

Variable hostHas : string -> bool.
Variable hostProps : handle -> CreationParams -> gmap string propval.
Variable hostConnects : Native -> endpoint -> bool.


(** Registering a wrapper: its own entry, and every other entry up to
    the member array of the recording macro. *)
Lemma saveNode_store node s node1 s1 :
  saveNode node s = (node1, s1) →
  heap s1 = heap s ∧
  nodeStore s1 !! a_uuid node = Some node1 ∧
  ∀ k, k ≠ a_uuid node →
       ∃ f : AudioNode → AudioNode,
         (∀ n, nextNode (f n) = nextNode n ∧ prevNode (f n) = prevNode n) ∧
         nodeStore s1 !! k = f <$> nodeStore s !! k.
Proof.
  unfold saveNode, updateMacro.
  destruct (getCurrentMacro s) as [top|]; intros [= <- <-]; simpl.
  - assert (a_uuid (setMacroContainerUUID (m_uuid top) node) = a_uuid node) as ->.
    { unfold setMacroContainerUUID. by destruct (Js.truthyStr _). }
    split; [done|]. split; [by rewrite lookup_insert_eq|].
    intros k Hk. rewrite lookup_insert_ne by done.
    destruct (decide (m_uuid top = k)) as [<-|Hne].
    + exists (addNativeNode (asMember node)). split.
      * intros n. unfold addNativeNode. by destruct (nativeNode n).
      * by rewrite lookup_alter, decide_True.
    + exists id. split; [done|].
      rewrite lookup_alter, decide_False by done. by destruct (_ !! k).
  - split; [done|]. split; [by rewrite lookup_insert_eq|].
    intros k Hk. rewrite lookup_insert_ne by done.
    exists id. split; [done|]. by destruct (_ !! k).
Qed.


End DefaultConnection.

(** ** Node reset *)

Lemma outGrows_refl s : outGrows s s.
Proof. intros h n Hn. by exists n. Qed.

Lemma outGrows_trans s1 s2 s3 : outGrows s1 s2 → outGrows s2 s3 → outGrows s1 s3.
Proof.
  intros H1 H2 h n Hn. destruct (H1 h n Hn) as (n' & Hn' & Hu & Hp & Ho).
  destruct (H2 h n' Hn') as (n'' & Hn'' & Hu' & Hp' & Ho').
  exists n''. split; [done|]. split; [congruence|]. split; [congruence|].
  intros e He. by apply Ho', Ho.
Qed.

Section Reset.

Variable hostHas : string -> bool.
Variable hostProps : handle -> CreationParams -> gmap string propval.
Variable hostConnects : Native -> endpoint -> bool.

Ltac frame_noop :=
  split; [done|]; split; [done|]; split; [apply sameShape_refl|];
  split; [apply outGrows_refl|].

Lemma connectResolved_spec nodes s s' :
  connectResolved hostConnects nodes s = Ok s' →
  nodeStore s' = nodeStore s ∧ session s' = session s ∧ sameShape s s' ∧ outGrows s s' ∧
  (∀ hf, nc_from nodes = ENode hf → endpointTruthy (nc_to nodes) = true →
         ∃ nf, heap s' !! hf = Some nf ∧ nc_to nodes ∈ n_out nf).
Proof.
  unfold connectResolved.
  destruct (nc_from nodes) as [| |hf| |] eqn:Efrom;
    try (intros [= <-]; frame_noop; by intros).
  destruct (endpointTruthy (nc_to nodes)) eqn:Eto.
  - intros H. apply nativeConnect_spec in H as (nf & Hnf & ->).
    split; [done|]. split; [done|]. split; [by eapply heap_insert_shape|]. split.
    + intros k n Hk. simpl. rewrite lookup_insert.
      destruct (decide (hf = k)) as [<-|]; [|by exists n].
      rewrite Hnf in Hk. injection Hk as <-. eexists. split; [done|].
      simpl. split; [done|]. split; [done|].
      intros e He. apply elem_of_app. by left.
    + intros ? [= <-] _. simpl. rewrite lookup_insert_eq. eexists. split; [done|].
      simpl. apply elem_of_app. right. by left.
  - intros [= <-]. frame_noop. by intros.
Qed.

(** The edge that one successful [connect] leaves behind. *)
Lemma connect_edge this x s s' :
  connect hostConnects this x s = Ok s' →
  nodeStore s' = nodeStore s ∧ session s' = session s ∧ sameShape s s' ∧ outGrows s s' ∧
  (∀ tn xn nodes hf,
     derefNode s this = Ok tn → derefNode s x = Ok xn → a_uuid tn ≠ a_uuid xn →
     getNodesToConnect tn xn s = Ok nodes → nc_from nodes = ENode hf →
     endpointTruthy (nc_to nodes) = true →
     ∃ nf, heap s' !! hf = Some nf ∧ nc_to nodes ∈ n_out nf).
Proof.
  unfold connect. intros H. inv_bind H. inv_bind H.
  destruct (decide (a_uuid a ≠ a_uuid a0)) as [Hne|Heq].
  - inv_bind H. apply connectResolved_spec in H as (H1 & H2 & H3 & H4 & H5).
    split; [done|]. split; [done|]. split; [done|]. split; [done|].
    intros tn xn nodes hf Htn Hxn _ Hnodes.
    rewrite Ha in Htn. injection Htn as <-.
    rewrite Ha0 in Hxn. injection Hxn as <-.
    rewrite Ha1 in Hnodes. injection Hnodes as <-. apply H5.
  - injection H as <-. frame_noop.
    intros tn xn nodes hf Htn Hxn Hne.
    rewrite Ha in Htn. injection Htn as <-.
    rewrite Ha0 in Hxn. injection Hxn as <-. done.
Qed.

Lemma getNodesToConnect_transfer s s' f t f' t' nodes :
  sameShape s s' → coreEq f f' → coreEq t t' →
  getNodesToConnect f t s = Ok nodes → getNodesToConnect f' t' s' = Ok nodes.
Proof.
  intros Hs Hf Ht H.
  by rewrite <- (resultRel_eq _ _ (rel_getNodesToConnect s s' Hs f f' t t' Hf Ht)).
Qed.

Lemma connectEach_spec this l s s' :
  connectEach hostConnects this l s = Ok s' →
  nodeStore s' = nodeStore s ∧ session s' = session s ∧ sameShape s s' ∧ outGrows s s' ∧
  (∀ x tn xn nodes hf,
     x ∈ l →
     derefNode s this = Ok tn → derefNode s x = Ok xn → a_uuid tn ≠ a_uuid xn →
     getNodesToConnect tn xn s = Ok nodes → nc_from nodes = ENode hf →
     endpointTruthy (nc_to nodes) = true →
     ∃ nf, heap s' !! hf = Some nf ∧ nc_to nodes ∈ n_out nf).
Proof.
  revert s. induction l as [|y rest IH]; intros s; simpl.
  - intros [= <-]. frame_noop.
    intros x tn xn nodes hf Hx. by apply elem_of_nil in Hx.
  - intros H. inv_bind H. rename a into sa.
    apply connect_edge in Ha as (A1 & A2 & A3 & A4 & A5).
    apply IH in H as (B1 & B2 & B3 & B4 & B5).
    split; [congruence|]. split; [congruence|].
    split; [by eapply sameShape_trans|]. split; [by eapply outGrows_trans|].
    intros x tn xn nodes hf Hx Htn Hxn Hne Hnodes Hfrom Hto.
    apply elem_of_cons in Hx as [->|Hx].
    + destruct (A5 tn xn nodes hf Htn Hxn Hne Hnodes Hfrom Hto) as (nf & Hnf & Hin).
      destruct (B4 hf nf Hnf) as (nf' & Hnf' & _ & _ & Hmono).
      exists nf'. split; [done|]. by apply Hmono.
    + destruct (derefNode_shape_Ok _ _ _ _ A3 Htn) as (tn' & Htn' & Hct).
      destruct (derefNode_shape_Ok _ _ _ _ A3 Hxn) as (xn' & Hxn' & Hcx).
      apply (B5 x tn' xn' nodes hf Hx Htn' Hxn'); [|by eapply getNodesToConnect_transfer|done..].
      apply coreEq_fields in Hct as (<- & _). by apply coreEq_fields in Hcx as (<- & _).
Qed.

Lemma connectPrevious_spec this s s' :
  connectPrevious hostConnects this s = Ok s' →
  nodeStore s' = nodeStore s ∧ session s' = session s ∧ sameShape s s' ∧ outGrows s s' ∧
  (∀ tn p pn nodes hf,
     derefNode s this = Ok tn → prevNode tn = Some p → derefNode s p = Ok pn →
     a_uuid tn ≠ a_uuid pn →
     getNodesToConnect pn tn s = Ok nodes → nc_from nodes = ENode hf →
     endpointTruthy (nc_to nodes) = true →
     ∃ nf, heap s' !! hf = Some nf ∧ nc_to nodes ∈ n_out nf).
Proof.
  unfold connectPrevious. intros H. inv_bind H.
  destruct (prevNode a) as [p|] eqn:Ep.
  - inv_bind H. destruct (decide (a_uuid a ≠ a_uuid a0)) as [Hne|Heq].
    + inv_bind H. apply connectResolved_spec in H as (H1 & H2 & H3 & H4 & H5).
      split; [done|]. split; [done|]. split; [done|]. split; [done|].
      intros tn p' pn nodes hf Htn Hp Hpn _ Hnodes.
      rewrite Ha in Htn. injection Htn as <-.
      rewrite Ep in Hp. injection Hp as <-.
      rewrite Ha0 in Hpn. injection Hpn as <-.
      rewrite Ha1 in Hnodes. injection Hnodes as <-. apply H5.
    + injection H as <-. frame_noop.
      intros tn p' pn nodes hf Htn Hp Hpn Hne.
      rewrite Ha in Htn. injection Htn as <-.
      rewrite Ep in Hp. injection Hp as <-.
      rewrite Ha0 in Hpn. injection Hpn as <-. done.
  - injection H as <-. frame_noop.
    intros tn p' pn nodes hf Htn Hp.
    rewrite Ha in Htn. injection Htn as <-. congruence.
Qed.

Lemma getNodeWithUUID_Some s u node :
  getNodeWithUUID s u = Some node → Js.truthyStr u = true ∧ nodeStore s !! u = Some node.
Proof. unfold getNodeWithUUID. by destruct (Js.truthyStr u). Qed.

Lemma derefNode_store s s' u : nodeStore s' = nodeStore s → derefNode s' u = derefNode s u.
Proof. intros H. unfold derefNode, getNodeWithUUID. by rewrite H. Qed.

(** C6.  Resetting a leaf wrapper [u] whose primitive the host builds
    (a source node) succeeds only into a state where: the wrapper's
    primitive is a fresh one built from its creation parameters and
    tagged [u]; the registry is otherwise the same, so the next nodes
    and the previous node of [u] are unchanged, and its playing flag is
    false; the buffer of the old primitive, if truthy, is the buffer of
    the new one; every recorded next node, resolved by the connection
    algorithm against the new primitive, is a native edge out of the new
    primitive, and the previous node has its edge into it; no primitive
    present before loses an edge. *)
Theorem resetNode_leaf_preserves_adjacency
  (u : uuid) (s s' : Engine) (node : AudioNode) (h : handle) (m : string)
  (Hnode : getNodeWithUUID s u = Some node)
  (Hkey : a_uuid node = u)
  (Hleaf : nativeNode node = Leaf h)
  (Hmethod : methodOf (parameters node) = Some m)
  (Hhost : hostHas m = true)
  (Hok : resetNode hostHas hostProps hostConnects u None s = Ok s') :
  let h' := fresh (dom (heap s)) in
  let node3 := set_nativeNode (Leaf h') node in
  let s3 := afterSwap hostProps node s in
  heap s !! h' = None ∧
  nodeStore s' = <[u := set_isPlaying false node3]> (nodeStore s) ∧
  session s' = session s ∧
  outGrows s s' ∧
  (∃ old new,
     heap s !! h = Some old ∧ heap s' !! h' = Some new ∧ n_uuid new = u ∧
     n_props new
     = (if truthy (nativeProp old "buffer")
        then <["buffer" := nativeProp old "buffer"]> (hostProps h' (parameters node))
        else hostProps h' (parameters node)) ∧
     ∀ x xn nodes,
       x ∈ nextNode node → derefNode s3 x = Ok xn → a_uuid xn ≠ u →
       getNodesToConnect node3 xn s3 = Ok nodes →
       endpointTruthy (nc_to nodes) = true →
       nc_from nodes = ENode h' ∧ nc_to nodes ∈ n_out new) ∧
  (∀ p pn nodes hf,
     prevNode node = Some p → derefNode s3 p = Ok pn → a_uuid pn ≠ u →
     getNodesToConnect pn node3 s3 = Ok nodes → nc_from nodes = ENode hf →
     endpointTruthy (nc_to nodes) = true →
     ∃ nf, heap s' !! hf = Some nf ∧ nc_to nodes ∈ n_out nf).
Proof.
  intros h' node3 s3.
  pose proof (getNodeWithUUID_Some _ _ _ Hnode) as [Htruthy Hstore].
  assert (heap s !! h' = None) as Hfresh.
  { apply not_elem_of_dom, is_fresh. }
  unfold resetNode, derefNode in Hok. rewrite Hnode in Hok. simpl in Hok.
  rewrite Hleaf in Hok. unfold resetLeaf in Hok.
  bind_inv Hok as old Hold.
  unfold derefNative in Hold. destruct (heap s !! h) as [old'|] eqn:Eold; [|done].
  injection Hold as ->.
  unfold audioNodeFactory in Hok. rewrite Hmethod, Hhost, Hkey in Hok.
  fold h' in Hok.
  assert (set_nodeStore
            (alter (set_nativeNode (Leaf h')) u
               (nodeStore (tagNative (Leaf h') u
                  (set_heap (<[h' := mkNative "" (hostProps h' (parameters node)) []]> (heap s)) s))))
            (tagNative (Leaf h') u
               (set_heap (<[h' := mkNative "" (hostProps h' (parameters node)) []]> (heap s)) s))
          = s3) as Hs3.
  { unfold s3, afterSwap, tagNative, set_nodeStore, set_heap. simpl. fold h'. rewrite Hkey.
    f_equal; apply map_eq; intros k; rewrite lookup_alter, !lookup_insert.
    - destruct (decide (u = k)) as [<-|]; [|done]. by rewrite Hstore.
    - destruct (decide (h' = k)) as [<-|]; [by rewrite decide_True|done]. }
  rewrite Hs3 in Hok. clear Hs3.
  bind_inv Hok as s4 Hs4. bind_inv Hok as s5 Hs5.
  apply connectEach_spec in Hs4 as (A1 & A2 & A3 & A4 & A5).
  apply connectPrevious_spec in Hs5 as (B1 & B2 & B3 & B4 & B5).
  assert (nodeStore s3 !! u = Some node3) as Hnode3.
  { unfold s3, afterSwap. simpl. rewrite Hkey. apply lookup_insert_eq. }
  assert (derefNode s3 u = Ok node3) as Hderef3.
  { unfold derefNode, getNodeWithUUID. by rewrite Htruthy, Hnode3. }
  assert (heap s3 !! h' = Some (mkNative u (hostProps h' (parameters node)) [])) as Hnew3.
  { unfold s3, afterSwap. simpl. fold h'. rewrite Hkey. apply lookup_insert_eq. }
  assert (outGrows s s3) as Hgrow3.
  { intros k n Hk. exists n. split; [|done]. unfold s3, afterSwap. simpl. fold h'.
    rewrite lookup_insert_ne; [done|]. intros <-. congruence. }
  destruct (outGrows_trans _ _ _ A4 B4 h' _ Hnew3) as (n5 & Hn5 & Hu5 & Hp5 & _).
  set (saved := nativeProp old "buffer") in *.
  set (final := if truthy saved
                then set_n_props (<["buffer" := saved]> (n_props n5)) n5 else n5).
  assert (∀ k n, heap s5 !! k = Some n →
            ∃ n', heap s' !! k = Some n' ∧ n_uuid n' = n_uuid n ∧ n_out n' = n_out n ∧
                  (k ≠ h' → n_props n' = n_props n)) as Hfin.
  { intros k n Hk. injection Hok as <-. destruct (truthy saved).
    - simpl. rewrite lookup_alter. destruct (decide (h' = k)) as [<-|].
      + rewrite Hk. simpl. eexists. by split.
      + exists n. by split.
    - simpl. exists n. by split. }
  assert (heap s' !! h' = Some final) as Hfinal.
  { injection Hok as <-. unfold final. destruct (truthy saved); simpl.
    - by rewrite lookup_alter, decide_True, Hn5.
    - done. }
  split; [done|]. split; [|split; [|split; [|split]]].
  - injection Hok as <-.
    assert (nodeStore s5 = <[u := node3]> (nodeStore s)) as Hst5.
    { rewrite B1, A1. unfold s3, afterSwap. simpl. by rewrite Hkey. }
    destruct (truthy saved); simpl; rewrite Hst5;
      (apply map_eq; intros k; rewrite lookup_alter, !lookup_insert;
       destruct (decide (u = k)) as [<-|]; [by rewrite ?decide_True|done]).
  - injection Hok as <-.
    destruct (truthy saved); (transitivity (session s5); [done|]); by rewrite B2, A2.
  - intros k n Hk. destruct (outGrows_trans _ _ _ Hgrow3 (outGrows_trans _ _ _ A4 B4) k n Hk)
      as (n' & Hn' & Hu' & Hp' & Ho').
    destruct (Hfin k n' Hn') as (n'' & Hn'' & Hu'' & Ho'' & Hp'').
    exists n''. split; [done|]. split; [congruence|]. split.
    + rewrite Hp''; [done|]. intros ->. congruence.
    + intros e He. rewrite Ho''. by apply Ho'.
  - exists old, final. split; [done|]. split; [done|]. split.
    { unfold final. destruct (truthy saved); simpl; by rewrite Hu5. }
    split.
    { unfold final, saved. destruct (truthy (nativeProp old "buffer")); simpl;
        by rewrite Hp5. }
    intros x xn nodes Hx Hxn Hne Hnodes Hto.
    pose proof (getNodesToConnect_from _ _ _ _ Hnodes) as Hfrom. simpl in Hfrom.
    split; [done|].
    destruct (A5 x node3 xn nodes h' Hx Hderef3 Hxn) as (nf & Hnf & Hin); try done.
    { simpl. by rewrite Hkey. }
    destruct (B4 h' nf Hnf) as (nf' & Hnf' & _ & _ & Hmono).
    destruct (Hfin h' nf' Hnf') as (nf'' & Hnf'' & _ & Hout & _).
    rewrite Hfinal in Hnf''. injection Hnf'' as ->.
    rewrite Hout. by apply Hmono.
  - intros p pn nodes hf Hp Hpn Hne Hnodes Hfrom Hto.
    destruct (B5 node3 p pn nodes hf) as (nf & Hnf & Hin); try done.
    + by rewrite (derefNode_store s3 s4).
    + by rewrite (derefNode_store s3 s4).
    + simpl. by rewrite Hkey.
    + eapply getNodesToConnect_transfer; [exact A3|done..].
    + destruct (Hfin hf nf Hnf) as (nf' & Hnf' & _ & Hout & _).
      exists nf'. split; [done|]. by rewrite Hout.
Qed.

End Reset.

(** ** Modulator routing *)






(** The same gain connecting to the oscillator inside [sine], a leaf:
    the endpoint is the oscillator's frequency parameter. *)
Example modulator_routes_to_parameter :
  (fun n => getNodesToConnect lfoGain n lfoThenNested) <$> nodeStore lfoThenNested !! "S1"
  = Some (Ok (mkNodes (ENode 2) (EVal (PParam 3 "frequency")))).
Proof. vm_compute. reflexivity. Qed.


(** ** The lookup index under scripts *)

Lemma setter_elem map key v k v' :
  v' ∈ bucket (setter map key v) k ↔
  v' ∈ bucket map k ∨ (Js.truthyStr key = true ∧ k = key ∧ v' = v).
Proof.
  unfold setter, bucket. destruct (Js.truthyStr key); [|naive_solver].
  destruct (map !! key) as [l|] eqn:E.
  - rewrite lookup_insert. destruct (decide (key = k)) as [<-|Hne]; simpl.
    + rewrite E. simpl. rewrite elem_of_app, list_elem_of_singleton. naive_solver.
    + naive_solver.
  - rewrite lookup_insert. destruct (decide (key = k)) as [<-|Hne]; simpl.
    + rewrite E. simpl. rewrite list_elem_of_singleton.
      split; [naive_solver|]. intros [H|H]; [by apply elem_of_nil in H|naive_solver].
    + naive_solver.
Qed.

Lemma setter_fold_elem map key v (tokens : list string) k v' :
  v' ∈ bucket (foldl (fun l _ => setter l key v) map tokens) k ↔
  v' ∈ bucket map k ∨ (tokens ≠ [] ∧ Js.truthyStr key = true ∧ k = key ∧ v' = v).
Proof.
  revert map. induction tokens as [|t ts IH]; intros map; simpl; [naive_solver|].
  rewrite IH, setter_elem. destruct ts; naive_solver.
Qed.

Lemma setNodeLookup_elem node s k v' :
  v' ∈ bucket (nodeLookup (setNodeLookup node s)) k ↔
  v' ∈ bucket (nodeLookup s) k ∨
  (v' = a_uuid node ∧ Js.truthyStr k = true ∧
   k ∈ indexKeys (getCurrentMacroNamespace s) (nodeType node)
                 (cp_settings (parameters node))).
Proof.
  unfold setNodeLookup, indexKeys. simpl.
  rewrite !setter_elem.
  destruct (s_class (cp_settings (parameters node))) as [c|];
    destruct (s_id (cp_settings (parameters node))) as [i|]; simpl;
    rewrite ?setter_fold_elem, ?setter_elem, ?elem_of_cons, ?elem_of_nil;
    pose proof (split_nonempty ","%char) as Hsplit;
    try specialize (Hsplit c); naive_solver.
Qed.

Section ScriptFacts.

Variable hostHas : string -> bool.
Variable hostProps : handle -> CreationParams -> gmap string propval.
Variable hostConnects : Native -> endpoint -> bool.

Lemma session_lookup s s' : session s' = session s → nodeLookup s' = nodeLookup s.
Proof. intros H. by apply (f_equal nodeLookup) in H. Qed.

Lemma connectAll_session l u s s' :
  connectAll hostConnects l u s = Ok s' → session s' = session s.
Proof.
  revert s. induction l as [|x rest IH]; intros s; simpl; [by intros [= <-]|].
  destruct (getNodeWithUUID s x); [|apply IH].
  intros H. bind_inv H as sa Hsa.
  apply connectOne_spec in Hsa as (_ & _ & _ & Hse & _).
  rewrite <- Hse. by apply IH.
Qed.

Lemma createNode_lookup type cp us u s s' k v' :
  createNode hostHas hostProps hostConnects type cp us u s = Ok s' →
  v' ∈ bucket (nodeLookup s') k ↔
  v' ∈ bucket (nodeLookup s) k ∨
  (v' = u ∧ Js.truthyStr k = true ∧
   k ∈ indexKeys (getCurrentMacroNamespace s) type (mergeSettings us (cp_settings cp))).
Proof.
  unfold createNode.
  destruct (newAudioNode _ _ type cp us u s) as [node0 s0] eqn:E0.
  destruct (saveNode node0 s0) as [node s1] eqn:E1.
  apply newAudioNode_spec in E0 as (Hs0 & _ & Hl0 & Hu0 & Hty0 & Hp0 & _).
  assert (nodeLookup s1 = nodeLookup (setNodeLookup node s0) ∧
          a_uuid node = u ∧ nodeType node = type ∧
          parameters node = mergedParams cp us) as (Hl1 & Hu1 & Hty1 & Hp1).
  { unfold saveNode, updateMacro in E1.
    destruct (getCurrentMacro s0) as [top|]; injection E1 as <- <-.
    - unfold setMacroContainerUUID. by destruct (Js.truthyStr (m_uuid top)).
    - done. }
  assert (getCurrentMacroNamespace s0 = getCurrentMacroNamespace s) as Hns.
  { unfold getCurrentMacroNamespace. apply (f_equal currentMacro) in Hs0.
    simpl in Hs0. by rewrite Hs0. }
  assert (nodeLookup s' = nodeLookup s1 →
          v' ∈ bucket (nodeLookup s') k ↔
          v' ∈ bucket (nodeLookup s) k ∨
          (v' = u ∧ Js.truthyStr k = true ∧
           k ∈ indexKeys (getCurrentMacroNamespace s) type
                         (mergeSettings us (cp_settings cp)))) as Hgoal.
  { intros ->. rewrite Hl1, setNodeLookup_elem, Hl0, Hns, Hu1, Hty1, Hp1. done. }
  destruct (isMacro node).
  - intros [= <-]. by apply Hgoal.
  - intros H. bind_inv H as s2 Hs2. injection H as <-.
    apply Hgoal. simpl. apply session_lookup. by eapply connectAll_session.
Qed.

End ScriptFacts.

Lemma startsWith_append p a b : Js.startsWith p a = true → Js.startsWith p (a +:+ b) = true.
Proof.
  revert a. induction p as [|c p IH]; intros a; simpl; [done|].
  destruct a as [|d a]; simpl; [done|].
  destruct (decide (c = d)); [apply IH|done].
Qed.

Lemma includes_append_l p a b : Js.includes p a = true → Js.includes p (a +:+ b) = true.
Proof.
  induction a as [|c a IH]; simpl.
  - destruct (Js.startsWith p "") eqn:E; [|done].
    intros _. destruct p; [|done]. by destruct b.
  - destruct (Js.startsWith p (String c a)) eqn:E.
    + intros _. pose proof (startsWith_append _ (String c a) b E) as E'.
      change (String c a +:+ b) with (String c (a +:+ b)) in E'. by rewrite E'.
    + intros H. destruct (Js.startsWith p (String c (a +:+ b))); [done|]. by apply IH.
Qed.

Lemma includes_append_r p a b : Js.includes p b = true → Js.includes p (a +:+ b) = true.
Proof.
  intros H. induction a as [|c a IH]; simpl; [done|].
  destruct (Js.startsWith p (String c (a +:+ b))); [done|]. exact IH.
Qed.

Lemma namespace_has_space s :
  currentMacro s ≠ [] → Js.includes " " (getCurrentMacroNamespace s) = true.
Proof.
  unfold getCurrentMacroNamespace. destruct (currentMacro s) as [|m ms]; [done|].
  intros _. simpl. apply includes_append_r. done.
Qed.

Lemma find_lookup selector s s' : find selector s = Ok s' → nodeLookup s' = nodeLookup s.
Proof.
  unfold find. destruct selector as [sel|]; [|by intros [= <-]].
  destruct (recordingMacro s); [|by intros [= <-]].
  intros H. bind_inv H as s1 Hs1. injection H as <-. simpl.
  unfold findInMacro in Hs1. bind_inv Hs1 as top Htop. bind_inv Hs1 as kept Hkept.
  by injection Hs1 as <-.
Qed.

Lemma end_lookup name s : nodeLookup (end_ name s) = nodeLookup s.
Proof.
  unfold end_. destruct (getCurrentMacro s) as [top|]; [|done].
  by destruct (decide (m_type top = name)).
Qed.

Lemma loopStep_lookup s : nodeLookup (loopStep s) = nodeLookup s.
Proof.
  unfold loopStep. destruct (loopStepSize s =? 0)%Z; simpl; by destruct (loopCB s).
Qed.

Lemma loop_lookup arg now s : nodeLookup (loop arg now s) = nodeLookup s.
Proof.
  destruct arg as [| | | |opts fn data]; simpl.
  - unfold stopLoop. by destruct (isLoopRunning s).
  - unfold startLoop. by destruct (isLoopRunning s).
  - done.
  - unfold toggleGrid. by destruct (isLoopRunning s).
  - destruct opts as [steps interval|i]; unfold configureLoop; simpl.
    + destruct fn, data as [d|]; simpl; try done;
        by destruct (decide (Z.of_nat (length d) = _)).
    + by destruct (truthyQ i).
Qed.

Section ScriptInvariant.

Variable hostHas : string -> bool.
Variable hostProps : handle -> CreationParams -> gmap string propval.
Variable hostConnects : Native -> endpoint -> bool.

Lemma connectPreviousToSelected_loop_session p ids s s' :
  connectPreviousToSelected_loop hostConnects p ids s = Ok s' → session s' = session s.
Proof.
  revert s. induction ids as [|x rest IH]; intros s; simpl; [by intros [= <-]|].
  destruct (getNodeWithUUID s x), p; try apply IH.
  intros H. bind_inv H as sa Hsa.
  apply connectOne_spec in Hsa as (_ & _ & _ & Hse & _).
  rewrite <- Hse. by apply IH.
Qed.

(** Only the creation of a wrapper files its uuid in the index. *)
Lemma runOp_lookup o s s' k v' :
  runOp hostHas hostProps hostConnects o s = Ok s' → v' ∉ opUUID o →
  v' ∈ bucket (nodeLookup s') k ↔ v' ∈ bucket (nodeLookup s) k.
Proof.
  destruct o as [sel|name us u| name|type cp us u|sel|arg now|now|ev fn data|ev]; simpl.
  - intros H _. by rewrite (find_lookup _ _ _ H).
  - intros H Hu. apply not_elem_of_cons in Hu as [Hu _].
    unfold begin, createMacro in H. destruct (Js.truthyStr name); [|by injection H as <-].
    bind_inv H as s1 Hs1. injection H as <-. simpl.
    rewrite (createNode_lookup _ _ _ _ _ _ _ _ _ k v' Hs1). naive_solver.
  - intros [= <-] _. by rewrite end_lookup.
  - intros H Hu. apply not_elem_of_cons in Hu as [Hu _].
    rewrite (createNode_lookup _ _ _ _ _ _ _ _ _ k v' H). naive_solver.
  - intros H _. unfold cracked_connect in H. bind_inv H as s1 Hs1.
    apply connectPreviousToSelected_loop_session, session_lookup in H.
    rewrite H. apply find_lookup in Hs1.
    assert (∀ t, nodeLookup (setPreviousNode t s1) = nodeLookup s1) as ->
      by (by intros [t|]).
    by rewrite Hs1.
  - intros [= <-] _. by rewrite loop_lookup.
  - intros [= <-] _.
    assert (nodeLookup (checkup now s) = nodeLookup s) as ->; [|done].
    unfold checkup. destruct (_ && _); [|done].
    transitivity (nodeLookup (loopStep s)); [done|apply loopStep_lookup].
  - intros H _. unfold bind in H.
    destruct fn; [|by injection H as <-].
    destruct (decide (ev = "step")); [|by injection H as <-].
    destruct data; [|done]. by injection H as <-.
  - intros [= <-] _. unfold unbind. by destruct (decide (ev = "step")).
Qed.

Lemma runOps_lookup ops s s' k v' :
  runOps hostHas hostProps hostConnects ops s = Ok s' →
  (∀ o, o ∈ ops → v' ∉ opUUID o) →
  v' ∈ bucket (nodeLookup s') k ↔ v' ∈ bucket (nodeLookup s) k.
Proof.
  revert s. induction ops as [|o rest IH]; intros s; simpl; [by intros [= <-]|].
  intros H Hu. bind_inv H as s1 Hs1.
  rewrite (IH s1 H), (runOp_lookup _ _ _ _ _ Hs1); [done| |].
  - apply Hu. by left.
  - intros o' Ho'. apply Hu. by right.
Qed.

End ScriptInvariant.

Lemma clauseNodes_bucket lookup clause x :
  x ∈ clauseNodes lookup clause → x ∈ bucket lookup clause.
Proof.
  unfold clauseNodes, bucket. destruct (Js.truthyStr clause); [|by intros H%elem_of_nil].
  destruct (lookup !! clause) as [ids|]; simpl; [|done].
  destruct (getSelectorType clause); try done.
  intros H. by apply (subseteq_take 1 ids).
Qed.

Lemma single_clause_elem lookup clause x :
  Js.includes "," clause = false →
  x ∈ getNodesWithSelector lookup clause ↔ x ∈ clauseNodes lookup clause.
Proof.
  intros Hone. rewrite getNodesWithSelector_arrayUnique, arrayUnique_elem.
  unfold allClauseNodes. rewrite (split_no_sep _ _ Hone). simpl. by rewrite app_nil_r.
Qed.

Lemma truthyStr_append_l a b : Js.truthyStr a = true → Js.truthyStr (a +:+ b) = true.
Proof. by destruct a. Qed.

Section MacroNamespace.

Variable hostHas : string -> bool.
Variable hostProps : handle -> CreationParams -> gmap string propval.
Variable hostConnects : Native -> endpoint -> bool.

(** C5, as amended.  A node created while macros are recording is
    filed in the index under the wildcard and under its type, [#id] and
    [.class] keys prefixed with the full recording namespace -- the
    space-terminated type names of all open macros, outermost first,
    which is ["M "] when [M] is the only open macro.  Whatever public
    operations follow ([end] among them), it is filed under exactly
    those keys; so a query for its bare type, id or class never
    returns it, before or after [end], and the query for a prefixed key
    (comma-free, not starting with [#]) returns it. *)
Theorem macro_nodes_indexed_under_namespace
  (type : string) (cp : CreationParams) (us : Settings) (u : uuid)
  (s0 s1 s2 : Engine) (ops : list op)
  (Hrec : currentMacro s0 ≠ [])
  (Hcreate : createNode hostHas hostProps hostConnects type cp us u s0 = Ok s1)
  (Hfresh : ∀ k ids, nodeLookup s0 !! k = Some ids → u ∉ ids)
  (Hops : runOps hostHas hostProps hostConnects ops s1 = Ok s2)
  (Hother : ∀ o, o ∈ ops → u ∉ opUUID o) :
  let ns := getCurrentMacroNamespace s0 in
  let settings := mergeSettings us (cp_settings cp) in
  (∀ k, u ∈ bucket (nodeLookup s2) k ↔ k ∈ indexKeys ns type settings) ∧
  (∀ bare, bare ∈ bareKeys type settings → plainToken bare →
     u ∉ getNodesWithSelector (nodeLookup s2) bare) ∧
  (∀ bare, bare ∈ bareKeys type settings →
     Js.includes "," (ns +:+ bare) = false → getSelectorType (ns +:+ bare) ≠ SelId →
     u ∈ getNodesWithSelector (nodeLookup s2) (ns +:+ bare)) ∧
  (∀ M, currentMacro s0 = [M] → ns = m_type M +:+ " ").
Proof.
  intros ns settings.
  pose proof (namespace_has_space s0 Hrec) as Hspace. fold ns in Hspace.
  assert (Js.truthyStr ns = true) as Hns by (by destruct ns).
  assert (∀ k, k ∈ indexKeys ns type settings → Js.truthyStr k = true) as Htruthy.
  { intros k. unfold indexKeys.
    destruct (s_id settings), (s_class settings); simpl;
      rewrite ?elem_of_cons, ?elem_of_nil;
      intros H; repeat destruct H as [H|H]; subst; try done;
      by apply truthyStr_append_l. }
  assert (∀ k, u ∈ bucket (nodeLookup s2) k ↔ k ∈ indexKeys ns type settings) as Hkeys.
  { intros k. rewrite (runOps_lookup _ _ _ _ _ _ k u Hops Hother).
    rewrite (createNode_lookup _ _ _ _ _ _ _ _ _ k u Hcreate).
    fold ns settings. split.
    - intros [Hold|(_ & _ & Hk)]; [|done].
      exfalso. unfold bucket in Hold.
      destruct (nodeLookup s0 !! k) as [ids|] eqn:E; simpl in Hold.
      + by apply (Hfresh k ids).
      + by apply elem_of_nil in Hold.
    - intros Hk. right. split; [done|]. split; [by apply Htruthy|done]. }
  split; [done|]. split; [|split].
  - intros bare _ (Hcomma & Hnospace & Hstar) Hin.
    apply single_clause_elem, clauseNodes_bucket, Hkeys in Hin; [|done].
    unfold indexKeys in Hin.
    assert (∀ x, bare ≠ ns +:+ x) as Hne.
    { intros x ->. by rewrite (includes_append_l _ _ _ Hspace) in Hnospace. }
    destruct (s_id settings), (s_class settings); simpl in Hin;
      rewrite ?elem_of_cons, ?elem_of_nil in Hin;
      repeat destruct Hin as [Hin|Hin]; try done; by eapply Hne.
  - intros bare Hbare Hcomma Hid.
    apply single_clause_elem; [done|].
    assert (ns +:+ bare ∈ indexKeys ns type settings) as Hk.
    { unfold bareKeys, indexKeys in *.
      destruct (s_id settings), (s_class settings); simpl in *;
        rewrite ?elem_of_cons, ?elem_of_nil in *;
        repeat destruct Hbare as [Hbare|Hbare]; subst; tauto. }
    pose proof (Htruthy _ Hk) as Hkt. apply Hkeys in Hk.
    unfold clauseNodes, bucket in *. rewrite Hkt.
    destruct (nodeLookup s2 !! (ns +:+ bare)) as [ids|]; simpl in *; [|done].
    by destruct (getSelectorType (ns +:+ bare)).
  - intros M HM. unfold ns, getCurrentMacroNamespace. by rewrite HM.
Qed.

End MacroNamespace.

(** C5, counterexample.  The oscillator is created while the macro
    [M] is recording, inside the macro [O].  After [end("M")] and
    [end("O")] the query for the ["M "]-prefixed key does not return it;
    it is filed under ["O M osc"]. *)
Lemma macro_namespace_nested_counterexample :
  runOps demoHas demoProps demoConnects nestedMacroScript initialEngine
  = Ok afterNestedMacro ∧
  getCurrentMacro
    (orInitial (runOps demoHas demoProps demoConnects (take 2 nestedMacroScript)
                  initialEngine))
  = Some (mkMacroRef "um" "M") ∧
  getNodesWithSelector (nodeLookup afterNestedMacro) "M osc" = [] ∧
  getNodesWithSelector (nodeLookup afterNestedMacro) "O M osc" = ["u1"].
Proof. vm_compute. repeat split. Qed.

Lemma macro_nodes_indexed_under_namespace_witness :
  "u1" ∉ getNodesWithSelector (nodeLookup afterEndM) "osc" ∧
  "u1" ∉ getNodesWithSelector (nodeLookup afterEndM) "#foo" ∧
  "u1" ∈ getNodesWithSelector (nodeLookup afterEndM) "M osc" ∧
  getCurrentMacroNamespace recordingM = "M ".
Proof.
  assert (∀ k ids, nodeLookup recordingM !! k = Some ids → "u1" ∉ ids) as Hfresh.
  { apply (bool_decide_unpack (map_Forall (fun _ ids => "u1" ∉ ids) _)).
    vm_compute. exact I. }
  assert (∀ o, o ∈ [OpEnd "M"; OpFind (Some "osc")] → "u1" ∉ opUUID o) as Hother.
  { intros o Ho. apply elem_of_cons in Ho as [->|Ho]; [by intros H%elem_of_nil|].
    apply elem_of_cons in Ho as [->|Ho]; [by intros H%elem_of_nil|].
    by apply elem_of_nil in Ho. }
  destruct (macro_nodes_indexed_under_namespace demoHas demoProps demoConnects
              "osc" oscParams fooSettings "u1" recordingM recordedFoo afterEndM
              [OpEnd "M"; OpFind (Some "osc")]
              ltac:(discriminate) eq_refl Hfresh eq_refl Hother)
    as (_ & Hbare & Hpref & Hns).
  split; [|split; [|split]].
  - apply Hbare; [by left|]. split; [done|]. split; [done|]. discriminate.
  - apply Hbare; [right; by left|]. split; [done|]. split; [done|]. discriminate.
  - apply (Hpref "osc"); [by left|done|discriminate].
  - apply (Hns (mkMacroRef "um" "M")). reflexivity.
Defined.

Lemma createNode_resets_selection_witness :
  selectedNodes selectedBuffer = ["a"] ∧
  selectedNodes afterGain = [] ∧ currentSelector afterGain = "" ∧
  previousNode afterGain = Some "b".
Proof.
  split; [reflexivity|].
  destruct (createNode_resets_selection demoHas demoProps demoConnects
              "gain" gainParams emptySettings "b" selectedBuffer afterGain eq_refl)
    as (H & _ & _).
  apply H. discriminate.
Defined.


Lemma resetNode_leaf_preserves_adjacency_witness :
  nodeStore afterReset
  = <["a" := set_isPlaying false (set_nativeNode (Leaf 3) bufferWrapper)]>
      (nodeStore afterGain) ∧
  heap afterGain !! 3 = None.
Proof.
  destruct (resetNode_leaf_preserves_adjacency demoHas demoProps demoConnects
              "a" afterGain afterReset bufferWrapper 1 "createBufferSource"
              eq_refl eq_refl eq_refl eq_refl eq_refl eq_refl)
    as (Hfresh & Hstore & _).
  split; [exact Hstore|exact Hfresh].
Defined.

Example reset_buffer_source :
  nextNode bufferWrapper = ["b"] ∧
  (nativeNode <$> nodeStore afterReset !! "a") = Some (Leaf 3) ∧
  (nextNode <$> nodeStore afterReset !! "a") = Some ["b"] ∧
  (isPlaying <$> nodeStore afterReset !! "a") = Some false ∧
  (n_out <$> heap afterReset !! 3) = Some [ENode 2] ∧
  ((fun n => nativeProp n "buffer") <$> heap afterReset !! 3) = Some (PBuffer 7).
Proof. vm_compute. repeat split. Qed.

Example end_mismatch_is_noop :
  end_ "N" recordingM = recordingM ∧
  currentMacro (end_ "M" recordingM) = [] ∧
  end_ "M" initialEngine = initialEngine.
Proof. vm_compute. repeat split. Qed.

Example unbind_only_current_selector :
  (l_selector <$> loopListeners twoListeners) = ["sine"; ".bar"] ∧
  (l_selector <$> loopListeners (unbind "step" twoListeners)) = ["sine"].
Proof. vm_compute. repeat split. Qed.

(** * Further properties *)

(** ** Sequencer: what a step does *)

Lemma advance_mod (i n : Z) :
  (0 < n)%Z → (-1 ≤ i < n)%Z → advance i n = ((i + 1) `mod` n)%Z.
Proof.
  intros Hn Hi. unfold advance. destruct (Z.ltb_spec i (n - 1)).
  - rewrite Z.mod_small; lia.
  - replace (i + 1)%Z with n by lia. by rewrite Z.mod_same by lia.
Qed.

Lemma serveListener_listener (n : Z) (l : Listener) :
  (serveListener n l).1 = if (n =? 0)%Z then stepListener l else l.
Proof.
  unfold serveListener, stepListener. simpl.
  destruct (n =? 0)%Z; simpl; [|done]. by destruct (l_loopStepSize l =? 0)%Z.
Qed.

Lemma served_calls (n : Z) (ls : list Listener) :
  (serveListener n <$> ls).*2 = callOf <$> ls.
Proof. rewrite <- list_fmap_compose. by apply list_fmap_ext. Qed.

Lemma served_listeners (n : Z) (ls : list Listener) :
  (serveListener n <$> ls).*1 = if (n =? 0)%Z then stepListener <$> ls else ls.
Proof.
  rewrite <- list_fmap_compose.
  destruct (n =? 0)%Z eqn:E.
  - apply list_fmap_ext. intros i l _.
    change ((serveListener n l).1 = stepListener l).
    by rewrite serveListener_listener, E.
  - rewrite <- (list_fmap_id ls) at 2. apply list_fmap_ext. intros i l _.
    change ((serveListener n l).1 = l).
    by rewrite serveListener_listener, E.
Qed.

Lemma loopStep_unfold (s : Engine) :
  let i' := if (loopStepSize s =? 0)%Z then loopIndex s
            else advance (loopIndex s) (loopStepSize s) in
  graphOf (loopStep s) = graphOf s ∧
  loopStepSize (loopStep s) = loopStepSize s ∧
  loopData (loopStep s) = loopData s ∧
  loopCB (loopStep s) = loopCB s ∧
  isLoopRunning (loopStep s) = isLoopRunning s ∧
  ignoreGrid (loopStep s) = ignoreGrid s ∧
  loopIndex (loopStep s) = i' ∧
  loopListeners (loopStep s)
  = (if (loopStepSize s =? 0)%Z then stepListener <$> loopListeners s
     else loopListeners s) ∧
  calls (loopStep s)
  = calls s ++ globalCall (set_loopIndex i' s) ++ (callOf <$> loopListeners s).
Proof.
  unfold loopStep, globalCall. cbv zeta.
  destruct (loopStepSize s =? 0)%Z eqn:E0; destruct (loopCB s) as [cb|] eqn:Ecb;
    simpl; rewrite ?Ecb, ?served_calls, ?served_listeners, ?E0, <- ?app_assoc; simpl;
    repeat split; rewrite ?E0, <- ?app_assoc; done.
Qed.

Lemma steps_frame (k : nat) (s : Engine) :
  graphOf (steps k s) = graphOf s ∧ loopStepSize (steps k s) = loopStepSize s ∧
  loopData (steps k s) = loopData s ∧ loopCB (steps k s) = loopCB s.
Proof.
  induction k as [|k (IH1 & IH2 & IH3 & IH4)]; [done|].
  change (steps (S k) s) with (loopStep (steps k s)).
  destruct (loopStep_unfold (steps k s)) as (H1 & H2 & H3 & H4 & _).
  rewrite H1, H2, H3, H4. done.
Qed.

Lemma steps_index (k : nat) (s : Engine) :
  (0 < loopStepSize s)%Z → (-1 ≤ loopIndex s < loopStepSize s)%Z →
  loopIndex (steps (S k) s)
  = ((loopIndex s + 1 + Z.of_nat k) `mod` loopStepSize s)%Z.
Proof.
  intros Hn Hi. induction k as [|k IH].
  - change (steps 1 s) with (loopStep s).
    destruct (loopStep_unfold s) as (_ & _ & _ & _ & _ & _ & -> & _).
    destruct (Z.eqb_spec (loopStepSize s) 0); [lia|].
    rewrite advance_mod by lia. f_equal. lia.
  - change (steps (S (S k)) s) with (loopStep (steps (S k) s)).
    destruct (loopStep_unfold (steps (S k) s)) as (_ & _ & _ & _ & _ & _ & -> & _).
    destruct (steps_frame (S k) s) as (_ & -> & _).
    destruct (Z.eqb_spec (loopStepSize s) 0); [lia|].
    rewrite IH.
    pose proof (Z.mod_pos_bound (loopIndex s + 1 + Z.of_nat k) (loopStepSize s) Hn).
    rewrite advance_mod by lia.
    rewrite Zplus_mod_idemp_l. f_equal. lia.
Qed.

Lemma steps_listeners_global (k : nat) (s : Engine) :
  loopStepSize s ≠ 0%Z → loopListeners (steps k s) = loopListeners s.
Proof.
  intros Hn. induction k as [|k IH]; [done|].
  change (steps (S k) s) with (loopStep (steps k s)).
  destruct (loopStep_unfold (steps k s)) as (_ & _ & _ & _ & _ & _ & _ & -> & _).
  destruct (steps_frame k s) as (_ & -> & _).
  by destruct (Z.eqb_spec (loopStepSize s) 0).
Qed.

(** X1.  With a global step count [n > 0] the step index walks
    [0, 1, ..., n-1, 0, ...]: after [k+1] steps it is the starting index
    plus [k+1] modulo [n] (so [0] after the first step of a fresh
    sequencer, whose index is [-1]), and the global callback of that
    step is called with this index and with the item of the step data
    at this index, or null. *)
Theorem global_index_cycles (s : Engine) (k : nat)
  (Hn : (0 < loopStepSize s)%Z)
  (Hi : (-1 ≤ loopIndex s < loopStepSize s)%Z) :
  let i := ((loopIndex s + 1 + Z.of_nat k) `mod` loopStepSize s)%Z in
  loopIndex (steps (S k) s) = i ∧
  (0 ≤ i < loopStepSize s)%Z ∧
  ∀ cb, loopCB s = Some cb →
    calls (steps (S k) s)
    = calls (steps k s)
      ++ [mkCall cb i (ifUndef (arrayAt (loopData s) i) PNull) (loopData s)
                 (selectedNodes s)]
      ++ (callOf <$> loopListeners s).
Proof.
  intros i. pose proof (steps_index k s Hn Hi) as Hidx. fold i in Hidx.
  split; [done|]. split; [by apply Z.mod_pos_bound|].
  intros cb Hcb.
  change (steps (S k) s) with (loopStep (steps k s)) in *.
  destruct (loopStep_unfold (steps k s)) as (_ & _ & _ & _ & _ & _ & Hi' & _ & ->).
  rewrite Hidx in Hi'. rewrite <- Hi'.
  destruct (steps_frame k s) as (Hg & Hsz & Hd & Hc).
  rewrite steps_listeners_global by lia.
  unfold globalCall. simpl. rewrite Hc, Hcb, Hd.
  by injection Hg as _ _ _ -> _ _ _ _.
Qed.

Lemma global_index_cycles_witness :
  loopIndex (steps 17 initialEngine) = 0%Z.
Proof.
  assert (0 < loopStepSize initialEngine)%Z as Hn by (simpl; lia).
  assert (-1 ≤ loopIndex initialEngine < loopStepSize initialEngine)%Z as Hi
    by (simpl; lia).
  destruct (global_index_cycles initialEngine 16 Hn Hi) as (H & _).
  exact H.
Defined.
(** X2.  While a global step count is configured (the default), a step
    never advances a listener's own index: every step calls every
    listener with the index it was bound with.  A listener registered
    by [bind], whose index starts at [-1], is therefore called on every
    step with index [-1] and a null item, whatever its data. *)
Theorem bound_listener_index_frozen
  (f : nat) (d : list propval) (s0 s : Engine) (k : nat)
  (Hbind : bind "step" (Some f) (Some d) s0 = Ok s)
  (Hn : loopStepSize s0 ≠ 0%Z) :
  loopListeners (steps k s) = loopListeners s ∧
  (∃ before,
     calls (steps (S k) s)
     = before ++ (callOf <$> loopListeners s0)
              ++ [mkCall f (-1) PNull d (selectedNodes s0)]).
Proof.
  unfold bind in Hbind. rewrite decide_True in Hbind by done.
  injection Hbind as <-.
  split; [by apply steps_listeners_global|].
  change (steps (S k) ?x) with (loopStep (steps k x)).
  destruct (loopStep_unfold
              (steps k (set_loopListeners
                          (loopListeners s0 ++
                           [mkListener "step" f d (Z.of_nat (length d)) (-1)
                                       (selectedNodes s0) (currentSelector s0)]) s0)))
    as (_ & _ & _ & _ & _ & _ & _ & _ & ->).
  rewrite steps_listeners_global by done. simpl.
  rewrite fmap_app. simpl. eexists. rewrite !app_assoc. reflexivity.
Qed.

Lemma bound_listener_index_frozen_witness :
  ∃ before,
    calls (steps 3 (set_loopListeners
                      [mkListener "step" 7 [PNum 1; PNum 2] 2 (-1) [] ""] initialEngine))
    = before ++ [] ++ [mkCall 7 (-1) PNull [PNum 1; PNum 2] []].
Proof.
  assert (bind "step" (Some 7) (Some [PNum 1; PNum 2]) initialEngine
          = Ok (set_loopListeners
                  [mkListener "step" 7 [PNum 1; PNum 2] 2 (-1) [] ""] initialEngine))
    as Hbind by reflexivity.
  assert (loopStepSize initialEngine ≠ 0%Z) as Hn by (simpl; lia).
  destruct (bound_listener_index_frozen 7 [PNum 1; PNum 2] _ _ 2 Hbind Hn) as (_ & H).
  exact H.
Defined.

Lemma stepListener_iter (l : Listener) (k : nat) :
  (0 < l_loopStepSize l)%Z → (-1 ≤ l_loopIndex l < l_loopStepSize l)%Z →
  Nat.iter (S k) stepListener l
  = mkListener (l_eventType l) (l_callback l) (l_data l) (l_loopStepSize l)
               ((l_loopIndex l + 1 + Z.of_nat k) `mod` l_loopStepSize l)%Z
               (l_selection l) (l_selector l).
Proof.
  intros Hn Hi. induction k as [|k IH].
  - simpl. unfold stepListener. destruct (Z.eqb_spec (l_loopStepSize l) 0); [lia|].
    rewrite advance_mod by lia. do 2 f_equal. lia.
  - change (Nat.iter (S (S k)) stepListener l)
      with (stepListener (Nat.iter (S k) stepListener l)).
    rewrite IH. unfold stepListener. simpl.
    destruct (Z.eqb_spec (l_loopStepSize l) 0); [lia|].
    pose proof (Z.mod_pos_bound (l_loopIndex l + 1 + Z.of_nat k) (l_loopStepSize l) Hn).
    rewrite advance_mod by lia. rewrite Zplus_mod_idemp_l. do 2 f_equal. lia.
Qed.

Lemma steps_tempo (k : nat) (s : Engine) :
  loopStepSize s = 0%Z →
  loopListeners (steps k s) = Nat.iter k stepListener <$> loopListeners s ∧
  loopIndex (steps k s) = loopIndex s.
Proof.
  intros Hn. induction k as [|k [IH1 IH2]].
  - split; [|done]. simpl. by rewrite list_fmap_id.
  - change (steps (S k) s) with (loopStep (steps k s)).
    destruct (loopStep_unfold (steps k s)) as (_ & _ & _ & _ & _ & _ & -> & -> & _).
    destruct (steps_frame k s) as (_ & -> & _). rewrite Hn. simpl.
    split; [|done]. rewrite IH1, <- list_fmap_compose. by apply list_fmap_ext.
Qed.

(** X3.  With only a tempo configured (global step count 0) the global
    index stands still and every listener walks its own data: the
    first step after binding passes the listener's starting index
    ([-1] for a listener registered by [bind], hence a null item), and
    step [k+2] passes the starting index plus [k+1] modulo the length
    the listener was bound with, together with the item at that
    position. *)
Theorem listener_cycles_in_tempo_mode (s : Engine) (k : nat) (j : nat) (l : Listener)
  (Htempo : loopStepSize s = 0%Z)
  (Hl : loopListeners s !! j = Some l)
  (Hn : (0 < l_loopStepSize l)%Z)
  (Hi : (-1 ≤ l_loopIndex l < l_loopStepSize l)%Z) :
  let i := ((l_loopIndex l + 1 + Z.of_nat k) `mod` l_loopStepSize l)%Z in
  loopIndex (steps (S k) s) = loopIndex s ∧
  (callOf <$> loopListeners (steps (S k) s)) !! j
  = Some (mkCall (l_callback l) i (ifUndef (arrayAt (l_data l) i) PNull) (l_data l)
                 (l_selection l)) ∧
  (∀ m, calls (steps (S m) s)
        = calls (steps m s) ++ globalCall s ++ (callOf <$> loopListeners (steps m s))).
Proof.
  intros i. destruct (steps_tempo (S k) s Htempo) as [Hls Hidx].
  split; [done|]. split.
  - rewrite Hls, !list_lookup_fmap, Hl.
    change (Some (callOf (Nat.iter (S k) stepListener l)) = Some (callOf (mkListener (l_eventType l) (l_callback l) (l_data l) (l_loopStepSize l) i (l_selection l) (l_selector l)))).
    by rewrite stepListener_iter.
  - intros m. change (steps (S m) s) with (loopStep (steps m s)).
    destruct (loopStep_unfold (steps m s)) as (_ & _ & _ & _ & _ & _ & _ & _ & ->).
    do 2 f_equal. destruct (steps_frame m s) as (Hg & Hsz & Hd & Hc).
    destruct (steps_tempo m s Htempo) as [_ Hi'].
    unfold globalCall. simpl. rewrite Hsz, Htempo, Hc, Hd. simpl. rewrite Hi'.
    by injection Hg as _ _ _ -> _ _ _ _.
Qed.
Lemma listener_cycles_in_tempo_mode_witness :
  (callOf <$> loopListeners (steps 4 tempoEngine)) !! 0%nat
  = Some (mkCall 1 0 (PNum 10) [PNum 10; PNum 20; PNum 30] []).
Proof.
  assert (loopListeners tempoEngine !! 0%nat
          = Some (mkListener "step" 1 [PNum 10; PNum 20; PNum 30] 3 (-1) [] ""))
    as Hl by reflexivity.
  destruct (listener_cycles_in_tempo_mode tempoEngine 3 0 _ eq_refl Hl) as (_ & H & _).
  - simpl. lia.
  - simpl. lia.
  - exact H.
Defined.

Lemma dist_loopStep_unfold (s : Engine) :
  let i := advance (loopIndex s) (loopStepSize s) in
  graphOf (Dist.loopStep s) = graphOf s ∧
  loopStepSize (Dist.loopStep s) = loopStepSize s ∧
  loopData (Dist.loopStep s) = loopData s ∧
  loopCB (Dist.loopStep s) = loopCB s ∧
  loopListeners (Dist.loopStep s) = loopListeners s ∧
  loopIndex (Dist.loopStep s) = i ∧
  calls (Dist.loopStep s)
  = calls s ++ globalCall (set_loopIndex i s)
    ++ ((fun l => mkCall (l_callback l) i (ifUndef (arrayAt (l_data l) i) PNull)
                         (l_data l) (l_selection l)) <$> loopListeners s).
Proof.
  unfold Dist.loopStep, globalCall. cbv zeta.
  destruct (loopCB s) as [cb|] eqn:Ecb; simpl; rewrite ?Ecb; simpl;
    rewrite <- ?app_assoc; repeat split; done.
Qed.

Lemma distSteps_frame (k : nat) (s : Engine) :
  graphOf (distSteps k s) = graphOf s ∧ loopStepSize (distSteps k s) = loopStepSize s ∧
  loopData (distSteps k s) = loopData s ∧ loopCB (distSteps k s) = loopCB s ∧
  loopListeners (distSteps k s) = loopListeners s.
Proof.
  induction k as [|k (IH1 & IH2 & IH3 & IH4 & IH5)]; [done|].
  change (distSteps (S k) s) with (Dist.loopStep (distSteps k s)).
  destruct (dist_loopStep_unfold (distSteps k s)) as (H1 & H2 & H3 & H4 & H5 & _).
  rewrite H1, H2, H3, H4, H5. done.
Qed.

Lemma distSteps_index (k : nat) (s : Engine) :
  (0 < loopStepSize s)%Z → (-1 ≤ loopIndex s < loopStepSize s)%Z →
  loopIndex (distSteps (S k) s)
  = ((loopIndex s + 1 + Z.of_nat k) `mod` loopStepSize s)%Z.
Proof.
  intros Hn Hi. induction k as [|k IH].
  - change (distSteps 1 s) with (Dist.loopStep s).
    destruct (dist_loopStep_unfold s) as (_ & _ & _ & _ & _ & -> & _).
    rewrite advance_mod by lia. f_equal. lia.
  - change (distSteps (S (S k)) s) with (Dist.loopStep (distSteps (S k) s)).
    destruct (dist_loopStep_unfold (distSteps (S k) s)) as (_ & _ & _ & _ & _ & -> & _).
    destruct (distSteps_frame (S k) s) as (_ & -> & _).
    rewrite IH.
    pose proof (Z.mod_pos_bound (loopIndex s + 1 + Z.of_nat k) (loopStepSize s) Hn).
    rewrite advance_mod by lia.
    rewrite Zplus_mod_idemp_l. f_equal. lia.
Qed.

(** X4.  In the bundled file every listener follows the global step
    index: step [k+1] calls each listener, in the order they were
    bound and after the global callback, with the starting index plus
    [k+1] modulo the step count and with the item of the listener's own
    data at that index, or null. *)
Theorem dist_listeners_follow_global_index (s : Engine) (k : nat)
  (Hn : (0 < loopStepSize s)%Z)
  (Hi : (-1 ≤ loopIndex s < loopStepSize s)%Z) :
  let i := ((loopIndex s + 1 + Z.of_nat k) `mod` loopStepSize s)%Z in
  loopIndex (distSteps (S k) s) = i ∧
  calls (distSteps (S k) s)
  = calls (distSteps k s)
    ++ globalCall (set_loopIndex i s)
    ++ ((fun l => mkCall (l_callback l) i (ifUndef (arrayAt (l_data l) i) PNull)
                         (l_data l) (l_selection l)) <$> loopListeners s).
Proof.
  intros i. pose proof (distSteps_index k s Hn Hi) as Hidx. fold i in Hidx.
  split; [done|].
  change (distSteps (S k) s) with (Dist.loopStep (distSteps k s)) in *.
  destruct (dist_loopStep_unfold (distSteps k s)) as (_ & _ & _ & _ & _ & Hi' & ->).
  rewrite Hidx in Hi'. rewrite <- Hi'.
  destruct (distSteps_frame k s) as (Hg & Hsz & Hd & Hc & Hl).
  rewrite Hl. do 2 f_equal.
  unfold globalCall. simpl. rewrite Hc, Hd.
  by injection Hg as _ _ _ -> _ _ _ _.
Qed.

Lemma dist_listeners_follow_global_index_witness :
  loopIndex (distSteps 3 twoListeners) = 2%Z.
Proof.
  assert (0 < loopStepSize twoListeners)%Z as Hn by (simpl; lia).
  assert (-1 ≤ loopIndex twoListeners < loopStepSize twoListeners)%Z as Hi
    by (simpl; lia).
  destruct (dist_listeners_follow_global_index twoListeners 2 Hn Hi) as (H & _).
  exact H.
Defined.
(** ** Sequencer: the clock *)

Lemma checkup_fire (now : Q) (s : Engine) :
  inStepWindow now s →
  checkup now s
  = set_loopTimeToNextStep (loopTimeToNextStep s + stepPeriod s)%Q (loopStep s).
Proof.
  intros Hin. apply inStepWindow_guard in Hin. unfold checkup. rewrite Hin. cbv zeta.
  destruct (loopStep_clock s) as [Ht Hi]. unfold stepPeriod. by rewrite Ht, Hi.
Qed.

Lemma checkup_skip (now : Q) (s : Engine) : ¬ inStepWindow now s → checkup now s = s.
Proof.
  intros Hout. unfold checkup.
  destruct (Qltb now (loopTimeToNextStep s)
            && Qltb (loopTimeToNextStep s - stepPeriod s) now) eqn:E; [|done].
  exfalso. apply Hout. by apply inStepWindow_guard.
Qed.

Lemma inStepWindow_dec (now : Q) (s : Engine) :
  inStepWindow now s ∨ ¬ inStepWindow now s.
Proof.
  destruct (Qltb now (loopTimeToNextStep s)
            && Qltb (loopTimeToNextStep s - stepPeriod s) now) eqn:E.
  - left. by apply inStepWindow_guard.
  - right. intros H. apply inStepWindow_guard in H. congruence.
Qed.



(** X6.  The sequencer does not catch up: if a tick arrives at or after
    the target, neither it nor any later tick fires a step, and the
    state stays as it is for good. *)
Theorem late_tick_stalls (now : Q) (ts : list Q) (s : Engine)
  (Hlate : (loopTimeToNextStep s <= now)%Q)
  (Hlater : Forall (fun t => (now <= t)%Q) ts) :
  ticks (now :: ts) s = s.
Proof.
  assert (∀ l, Forall (fun t => (now <= t)%Q) l → ticks l s = s) as H.
  { induction 1 as [|t l Ht _ IH]; [done|].
    unfold ticks. simpl. rewrite checkup_skip; [exact IH|].
    intros [_ Hlt]. lra. }
  apply H. constructor; [lra|done].
Qed.

Lemma late_tick_stalls_witness :
  ticks [(1 # 1)%Q; (21 # 20)%Q; (2 # 1)%Q] tickingEngine = tickingEngine.
Proof.
  apply (late_tick_stalls (1 # 1)%Q [(21 # 20)%Q; (2 # 1)%Q] tickingEngine).
  - simpl. lra.
  - repeat constructor; lra.
Defined.




(** X8.  [loop("start")] on a running sequencer changes nothing (the
    schedule of the first start is kept), [loop("stop")] on a stopped
    one changes nothing, a stopped sequencer ignores every tick at a
    non-negative host time, and starting then stopping a sequencer that
    was at rest brings it back to exactly the state it was in. *)
Theorem start_stop_round_trip (now now' : Q) (ts : list Q) (s : Engine)
  (Hstopped : isLoopRunning s = false) :
  startLoop now' (startLoop now s) = startLoop now s ∧
  stopLoop s = s ∧
  (Forall (fun t => (0 <= t)%Q) ts →
   ticks ts (stopLoop (startLoop now s)) = stopLoop (startLoop now s)) ∧
  (loopTimeToNextStep s = 0%Q → ignoreGrid s = true →
   stopLoop (startLoop now s) = s).
Proof.
  unfold startLoop, stopLoop. rewrite Hstopped. simpl.
  split; [done|]. split; [done|]. split.
  - induction 1 as [|t l Ht _ IH]; [done|].
    unfold ticks. simpl foldl. rewrite checkup_skip; [exact IH|].
    intros [_ Hlt]. simpl in Hlt. lra.
  - intros HT HG. destruct s. simpl in *. by subst.
Qed.

Lemma start_stop_round_trip_witness :
  stopLoop (startLoop (5 # 1)%Q initialEngine) = initialEngine.
Proof.
  destruct (start_stop_round_trip (5 # 1)%Q 0%Q [] initialEngine eq_refl)
    as (_ & _ & _ & H).
  exact (H eq_refl eq_refl).
Defined.

(** ** Sequencer and graph do not interfere *)

Lemma advance_range (i n : Z) :
  (0 < n)%Z → (-1 ≤ i)%Z → (0 ≤ advance i n < n)%Z.
Proof. intros Hn Hi. unfold advance. destruct (Z.ltb_spec i (n - 1)); lia. Qed.

Lemma session_sequencerOf (a b : Engine) : session a = session b → sequencerOf a = sequencerOf b.
Proof. intros H. exact (f_equal sequencerOf H). Qed.

Lemma checkup_graph (now : Q) (s : Engine) : graphOf (checkup now s) = graphOf s.
Proof.
  destruct (inStepWindow_dec now s) as [Hin|Hout].
  - rewrite (checkup_fire _ _ Hin).
    destruct (loopStep_unfold s) as (Hg & _). by rewrite <- Hg.
  - by rewrite (checkup_skip _ _ Hout).
Qed.

Lemma loop_graph (arg : loopArg) (now : Q) (s : Engine) :
  graphOf (loop arg now s) = graphOf s.
Proof.
  destruct arg as [| | | |opts fn data]; simpl.
  - unfold stopLoop. by destruct (isLoopRunning s).
  - unfold startLoop. by destruct (isLoopRunning s).
  - done.
  - unfold toggleGrid. by destruct (isLoopRunning s).
  - destruct opts as [steps interval|i]; unfold configureLoop; simpl.
    + destruct fn, data as [d|]; simpl; try done;
        by destruct (decide (Z.of_nat (length d) = _)).
    + by destruct (truthyQ i).
Qed.

Section Interference.

Variable hostHas : string -> bool.
Variable hostProps : handle -> CreationParams -> gmap string propval.
Variable hostConnects : Native -> endpoint -> bool.

Lemma createNode_sequencer type cp us u s s' :
  createNode hostHas hostProps hostConnects type cp us u s = Ok s' →
  sequencerOf s' = sequencerOf s.
Proof.
  unfold createNode.
  destruct (newAudioNode _ _ type cp us u s) as [node0 s0] eqn:E0.
  destruct (saveNode node0 s0) as [node s1] eqn:E1.
  apply newAudioNode_spec in E0 as (Hs0 & _).
  apply saveNode_spec in E1 as (Hs1 & _).
  assert (sequencerOf s1 = sequencerOf s) as H1.
  { rewrite <- (session_sequencerOf _ _ Hs0). exact (f_equal sequencerOf Hs1). }
  destruct (isMacro node).
  - by intros [= <-].
  - intros H. bind_inv H as s2 Hs2. injection H as <-.
    apply connectAll_session in Hs2. apply session_sequencerOf in Hs2.
    rewrite <- H1, <- Hs2. done.
Qed.

Lemma find_sequencer selector s s' : find selector s = Ok s' → sequencerOf s' = sequencerOf s.
Proof.
  unfold find. destruct selector as [sel|]; [|by intros [= <-]].
  destruct (recordingMacro s); [|by intros [= <-]].
  intros H. bind_inv H as s1 Hs1. injection H as <-.
  unfold findInMacro in Hs1. bind_inv Hs1 as top Htop. bind_inv Hs1 as kept Hkept.
  by injection Hs1 as <-.
Qed.

Lemma runOp_graph_frame (o : op) (s s' : Engine) :
  isSequencerOp o = false →
  runOp hostHas hostProps hostConnects o s = Ok s' → sequencerOf s' = sequencerOf s.
Proof.
  intros Ho Hrun.
  destruct o as [selector|name us u|name|type cp us u|selector|arg now|now
                |eventType fn data|eventType]; simpl in *; try done.
  - by apply find_sequencer in Hrun.
  - unfold begin, createMacro in Hrun. destruct (Js.truthyStr name); [|by injection Hrun as <-].
    bind_inv Hrun as s1 Hs1. injection Hrun as <-.
    by apply createNode_sequencer in Hs1.
  - injection Hrun as <-. unfold end_. destruct (getCurrentMacro s) as [top|]; [|done].
    by destruct (decide (m_type top = name)).
  - by apply createNode_sequencer in Hrun.
  - unfold cracked_connect in Hrun. bind_inv Hrun as s1 Hs1.
    apply find_sequencer in Hs1. unfold connectPreviousToSelected in Hrun.
    apply connectPreviousToSelected_loop_session in Hrun.
    apply session_sequencerOf in Hrun. rewrite Hrun, <- Hs1.
    by destruct (match getPreviousNode s with Some p => Some p | None => _ end).
Qed.

Lemma runOp_sequencer_frame (o : op) (s s' : Engine) :
  isSequencerOp o = true →
  runOp hostHas hostProps hostConnects o s = Ok s' → graphOf s' = graphOf s.
Proof.
  intros Ho Hrun.
  destruct o as [selector|name us u|name|type cp us u|selector|arg now|now
                |eventType fn data|eventType]; simpl in *; try done.
  - injection Hrun as <-. apply loop_graph.
  - injection Hrun as <-. apply checkup_graph.
  - unfold bind in Hrun. destruct fn as [f|]; [|by injection Hrun as <-].
    destruct (decide (eventType = "step")); [|by injection Hrun as <-].
    destruct data; [|done]. by injection Hrun as <-.
  - injection Hrun as <-. unfold unbind. by destruct (decide (eventType = "step")).
Qed.


Lemma loopStep_fits (s : Engine) : stepDataFits s → stepDataFits (loopStep s).
Proof.
  intros [Hi Hd]. destruct (loopStep_unfold s) as (_ & Hn & Hdata & _ & _ & _ & Hidx & _).
  unfold stepDataFits. rewrite Hn, Hdata, Hidx. split; [|done].
  destruct (loopStepSize s =? 0)%Z; [done|]. unfold advance.
  destruct (loopIndex s <? loopStepSize s - 1)%Z; lia.
Qed.

Lemma runOp_fits (o : op) (s s' : Engine) :
  stepDataFits s → runOp hostHas hostProps hostConnects o s = Ok s' → stepDataFits s'.
Proof.
  intros Hfit Hrun. destruct (isSequencerOp o) eqn:Ho.
  - destruct o as [selector|name us u|name|type cp us u|selector|arg now|now
                  |eventType fn data|eventType]; simpl in *; try done.
    + injection Hrun as <-.
      destruct arg as [| | | |opts fn data]; simpl.
      * unfold stopLoop. by destruct (isLoopRunning s).
      * unfold startLoop. by destruct (isLoopRunning s).
      * split; simpl; [lia|by left].
      * unfold toggleGrid. by destruct (isLoopRunning s).
      * destruct Hfit as [Hi Hd].
        destruct opts as [steps interval|i]; unfold configureLoop, stepDataFits; simpl.
        -- destruct fn, data as [d|]; simpl; try (split; [done|by left]);
             destruct (decide (Z.of_nat (length d) = _)); simpl;
             (split; [done|]); first [by right | by left].
        -- destruct (truthyQ i); simpl; split; first [done | by left].
    + injection Hrun as <-. destruct (inStepWindow_dec now s) as [Hin|Hout].
      * rewrite (checkup_fire _ _ Hin). by apply loopStep_fits in Hfit.
      * by rewrite (checkup_skip _ _ Hout).
    + unfold bind in Hrun. destruct fn as [f|]; [|by injection Hrun as <-].
      destruct (decide (eventType = "step")); [|by injection Hrun as <-].
      destruct data; [|done]. by injection Hrun as <-.
    + injection Hrun as <-. unfold unbind. by destruct (decide (eventType = "step")).
  - apply (runOp_graph_frame _ _ _ Ho) in Hrun. unfold stepDataFits in *.
    by injection Hrun as _ _ -> _ _ -> -> _ _ _.
Qed.

(** X10.  Started from a state in which the step data, if any, has one
    item per step (as in the initial state), every script keeps it so:
    [loop] only accepts a data array whose length is the step count and
    drops any other.  Hence the global callback of a step never gets
    an out-of-range item: either there is no step data and the item is
    null, or the index it is called with lies inside the data and the
    item is the one stored there (null when that one is undefined). *)
Theorem step_data_always_fits (ops : list op) (s s' : Engine)
  (Hfit : stepDataFits s)
  (Hrun : runOps hostHas hostProps hostConnects ops s = Ok s') :
  stepDataFits s' ∧
  ∀ cb, loopCB s' = Some cb →
    ∃ c rest, calls (loopStep s') = calls s' ++ c :: rest ∧ c_callback c = cb ∧
      ((c_data c = [] ∧ c_item c = PNull) ∨
       (∃ x, c_data c !! Z.to_nat (c_index c) = Some x ∧
             (0 ≤ c_index c < Z.of_nat (length (c_data c)))%Z ∧
             c_item c = ifUndef x PNull)).
Proof.
  assert (stepDataFits s') as Hfit'.
  { revert s Hfit Hrun. induction ops as [|o ops IH]; intros s Hfit Hrun; simpl in Hrun.
    - by injection Hrun as <-.
    - bind_inv Hrun as s1 Hs1. apply (IH s1); [|done]. by eapply runOp_fits. }
  split; [done|]. intros cb Hcb.
  destruct (loopStep_unfold s') as (_ & _ & _ & _ & _ & _ & _ & _ & ->).
  unfold globalCall. simpl. rewrite Hcb. simpl. eexists _, _. split; [done|].
  split; [done|]. simpl. destruct Hfit' as [Hi [Hd|Hd]].
  - left. rewrite Hd. split; [done|]. unfold arrayAt.
    by destruct (_ <? 0)%Z.
  - destruct (loopData s') as [|x0 d0] eqn:Ed; [left|right].
    + split; [done|]. unfold arrayAt. by destruct (_ <? 0)%Z.
    + rewrite <- Ed in *.
      assert (0 < loopStepSize s')%Z as Hn by (rewrite <- Hd, Ed; simpl; lia).
      destruct (Z.eqb_spec (loopStepSize s') 0) as [|_]; [lia|].
      pose proof (advance_range (loopIndex s') (loopStepSize s') Hn Hi) as Hr.
      destruct (lookup_lt_is_Some_2 (loopData s')
                  (Z.to_nat (advance (loopIndex s') (loopStepSize s')))) as [x Hx]; [lia|].
      exists x. split; [done|]. split; [lia|].
      unfold arrayAt. destruct (Z.ltb_spec (advance (loopIndex s') (loopStepSize s')) 0); [lia|].
      by rewrite Hx.
Qed.

End Interference.


Lemma step_data_always_fits_witness :
  stepDataFits
    (loop (LoopConfigure (OptsObject (Some 2%Z) None) (Some 9) (Some [PNum 1; PNum 2]))
          0%Q initialEngine).
Proof.
  assert (stepDataFits initialEngine) as Hfit by (split; [simpl; lia|by left]).
  destruct (step_data_always_fits demoHas demoProps demoConnects
              [OpLoop (LoopConfigure (OptsObject (Some 2%Z) None) (Some 9)
                         (Some [PNum 1; PNum 2])) 0%Q]
              initialEngine _ Hfit eq_refl) as (H & _).
  exact H.
Defined.
(** X11.  [unbind("step")] right after [bind("step", f, data)] removes
    the listener just bound, because [bind] files it under the current
    selector text: the result is what [unbind] alone would have given,
    and when no earlier listener was bound under that selector text it
    is the state before the [bind]. *)
Theorem unbind_undoes_bind (f : nat) (d : list propval) (s : Engine) :
  ∃ s1, bind "step" (Some f) (Some d) s = Ok s1 ∧
        loopListeners s1 = loopListeners s ++
          [mkListener "step" f d (Z.of_nat (length d)) (-1) (selectedNodes s)
                      (currentSelector s)] ∧
        unbind "step" s1 = unbind "step" s ∧
        ((∀ l, l ∈ loopListeners s → l_selector l ≠ currentSelector s) →
         unbind "step" s1 = s).
Proof.
  eexists. split; [reflexivity|]. split; [done|].
  assert (unbind "step"
            (set_loopListeners
               (loopListeners s ++
                [mkListener "step" f d (Z.of_nat (length d)) (-1) (selectedNodes s)
                            (currentSelector s)]) s) = unbind "step" s) as Heq.
  { unfold unbind. simpl. rewrite !unbind_fold_filter. simpl.
    rewrite filter_app, filter_cons, decide_False by (simpl; intros H; by apply H).
    by rewrite filter_nil, app_nil_r. }
  split; [done|]. intros Hnone. rewrite Heq.
  unfold unbind. simpl. rewrite unbind_fold_filter. simpl.
  replace (filter (fun l => l_selector l ≠ currentSelector s) (loopListeners s))
    with (loopListeners s); [by destruct s|].
  symmetry. clear Heq. revert Hnone. generalize (currentSelector s).
  induction (loopListeners s) as [|l ls IH]; intros cur Hnone; [done|].
  rewrite filter_cons.
  destruct (decide (l_selector l ≠ cur)) as [_|Hn];
    [|exfalso; apply Hn, Hnone; by left].
  f_equal. apply IH. intros l' Hl'. apply Hnone. by right.
Qed.

Lemma unbind_undoes_bind_witness :
  ∃ s1, bind "step" (Some 3) (Some [PNum 1]) initialEngine = Ok s1 ∧
        unbind "step" s1 = initialEngine.
Proof.
  destruct (unbind_undoes_bind 3 [PNum 1] initialEngine) as (s1 & Hb & _ & _ & H).
  exists s1. split; [exact Hb|]. apply H. intros l Hl. by apply elem_of_nil in Hl.
Defined.
(** ** Finding inside a macro *)

Lemma stripForeign_past_end (s : Engine) (m : uuid) (fuel i : nat) (arr : list uuid) :
  length arr ≤ i → stripForeign s m fuel i arr = Ok arr.
Proof.
  intros Hi. destruct fuel as [|fuel]; [done|]. simpl.
  by rewrite lookup_ge_None_2.
Qed.

Lemma stripForeign_afterStrip (s : Engine) (m : uuid) (fuel : nat) :
  ∀ pre l,
    length l ≤ fuel →
    (∀ x, x ∈ l → Js.truthyStr x = true → is_Some (getNodeWithUUID s x)) →
    stripForeign s m fuel (length pre) (pre ++ l)
    = Ok (pre ++ afterStrip (foreignTo s m) l).
Proof.
  induction fuel as [|fuel IH]; intros pre l Hlen Hres.
  - destruct l; [|simpl in Hlen; lia]. done.
  - destruct l as [|x l'].
    + simpl. rewrite app_nil_r. by rewrite lookup_ge_None_2.
    + simpl stripForeign. rewrite list_lookup_middle by done.
      simpl afterStrip. unfold foreignTo at 1.
      assert (∀ y, y ∈ l' → Js.truthyStr y = true → is_Some (getNodeWithUUID s y))
        as Hres' by (intros y Hy; apply Hres; by right).
      assert (stripForeign s m fuel (S (length pre)) (pre ++ x :: l')
              = Ok (pre ++ x :: afterStrip (foreignTo s m) l')) as Hkeep.
      { replace (S (length pre)) with (length (pre ++ [x]))
          by (rewrite length_app; simpl; lia).
        replace (pre ++ x :: l') with ((pre ++ [x]) ++ l') by by rewrite <- app_assoc.
        rewrite IH; [by rewrite <- app_assoc| simpl in Hlen; lia|done]. }
      destruct (Js.truthyStr x) eqn:Hx; simpl; [|exact Hkeep].
      destruct (Hres x) as [w Hw]; [by left|done|].
      unfold derefNode. rewrite Hw. simpl.
      destruct (decide (macroContainerUUID w ≠ Some m)) as [Hf|Hown].
      * rewrite bool_decide_true by done.
        replace (delete (length pre) (pre ++ x :: l')) with (pre ++ l').
        2:{ clear. induction pre as [|p pre IHp]; [done|]. simpl. by rewrite <- IHp. }
        destruct l' as [|y r].
        -- rewrite app_nil_r. apply stripForeign_past_end. lia.
        -- replace (S (length pre)) with (length (pre ++ [y]))
             by (rewrite length_app; simpl; lia).
           replace (pre ++ y :: r) with ((pre ++ [y]) ++ r) by by rewrite <- app_assoc.
           rewrite IH; [by rewrite <- app_assoc| simpl in Hlen; lia|].
           intros z Hz. apply Hres'. by right.
      * rewrite bool_decide_false by done. exact Hkeep.
Qed.

Lemma afterStrip_sublist (f : uuid → bool) (l : list uuid) : afterStrip f l `sublist_of` l.
Proof.
  assert (∀ n l, length l ≤ n → afterStrip f l `sublist_of` l) as H.
  { clear l. induction n as [|n IH]; intros l Hl.
    - destruct l; [done|simpl in Hl; lia].
    - destruct l as [|x [|y r]]; simpl; [done|destruct (f x); by repeat constructor|].
      simpl in Hl. destruct (f x).
      + apply sublist_cons, sublist_skip, IH. lia.
      + apply sublist_skip. apply (IH (y :: r)). simpl. lia. }
  by apply (H (length l)).
Qed.

Lemma afterStrip_keeps_own (f : uuid → bool) (l : list uuid) (x : uuid) :
  x ∈ l → f x = false → x ∈ afterStrip f l.
Proof.
  assert (∀ n l, length l ≤ n → x ∈ l → f x = false → x ∈ afterStrip f l) as H.
  { clear l. induction n as [|n IH]; intros l Hl Hx Hf.
    - destruct l; [by apply elem_of_nil in Hx|simpl in Hl; lia].
    - destruct l as [|a [|y r]].
      + by apply elem_of_nil in Hx.
      + apply list_elem_of_singleton in Hx as ->. simpl. rewrite Hf. by left.
      + simpl in Hl. simpl afterStrip. destruct (f a) eqn:Ea.
        * apply elem_of_cons in Hx as [->|Hx]; [congruence|].
          apply elem_of_cons in Hx as [->|Hx]; [by left|].
          right. apply IH; [lia|done..].
        * apply elem_of_cons in Hx as [->|Hx]; [by left|].
          right. apply (IH (y :: r)); [simpl; lia|done..]. }
  by apply (H (length l)).
Qed.

(** X12.  Inside a macro that is being recorded, [find(selector)]
    looks the selector up with the recording namespace put in front of
    every clause that lacks it, and then strips the ids that do not
    belong to the innermost macro with a [forEach] that splices the
    array it walks: each removal makes the next element slide into the
    visited slot and escape the test.  So the selection is a
    subsequence of what was found and contains every found member of
    the innermost macro, but a foreign id that directly follows a
    removed foreign id stays selected. *)
Theorem findInMacro_strips_with_skips (selector0 : string) (s : Engine) (top : MacroRef)
  (Hrec : getCurrentMacro s = Some top)
  (Hres : ∀ x, x ∈ getNodesWithSelector (nodeLookup s) (scopedSelector s selector0) →
               Js.truthyStr x = true → is_Some (getNodeWithUUID s x)) :
  let found := getNodesWithSelector (nodeLookup s) (scopedSelector s selector0) in
  let kept := afterStrip (foreignTo s (m_uuid top)) found in
  findInMacro selector0 s
  = Ok (set_selectedNodes kept (set_currentSelector (scopedSelector s selector0) s)) ∧
  kept `sublist_of` found ∧
  (∀ x w, x ∈ found → getNodeWithUUID s x = Some w →
          macroContainerUUID w = Some (m_uuid top) → x ∈ kept) ∧
  (∀ x y rest, foreignTo s (m_uuid top) x = true →
     afterStrip (foreignTo s (m_uuid top)) (x :: y :: rest)
     = y :: afterStrip (foreignTo s (m_uuid top)) rest).
Proof.
  intros found kept. split; [|split; [|split]].
  - unfold findInMacro. rewrite Hrec. simpl.
    fold (scopedSelector s selector0). fold found.
    pose proof (stripForeign_afterStrip s (m_uuid top) (length found) [] found) as H.
    simpl in H. rewrite H; done.
  - apply afterStrip_sublist.
  - intros x w Hx Hw Hown. apply afterStrip_keeps_own; [done|].
    unfold foreignTo. rewrite Hw, bool_decide_false by (intros H; by apply H).
    by rewrite andb_false_r.
  - intros x y rest Hf. simpl. by rewrite Hf.
Qed.

(** In the third of three [sine] macros, [find("osc")] finds the
    oscillators of all three; the first is stripped, the second slips
    through, the third is the macro's own. *)
Lemma findInMacro_strips_with_skips_witness :
  findInMacro "osc" thirdSine
  = Ok (set_selectedNodes ["b1"; "c1"] (set_currentSelector "sine osc" thirdSine)).
Proof.
  assert (getCurrentMacro thirdSine = Some (mkMacroRef "C" "sine")) as Hrec by reflexivity.
  destruct (findInMacro_strips_with_skips "osc" thirdSine _ Hrec) as (H & _).
  - intros x Hx _. vm_compute in Hx.
    apply elem_of_cons in Hx as [->|Hx]; [by eexists|].
    apply elem_of_cons in Hx as [->|Hx]; [by eexists|].
    apply list_elem_of_singleton in Hx as ->. by eexists.
  - exact H.
Defined.
(** ** Keys no selector reaches *)

Lemma split_pieces_no_sep (sep : Ascii.ascii) (s c : string) :
  c ∈ Js.split sep s → Js.includes (String sep EmptyString) c = false.
Proof.
  revert c. induction s as [|a r IH]; intros c; simpl.
  - intros H. apply list_elem_of_singleton in H as ->. simpl.
    by destruct (decide (sep = sep)).
  - destruct (decide (a = sep)) as [->|Hne].
    + intros H. apply elem_of_cons in H as [->|H]; [|by apply IH].
      simpl. by destruct (decide (sep = sep)).
    + destruct (Js.split sep r) as [|w ws] eqn:E.
      * intros H. apply list_elem_of_singleton in H as ->. simpl.
        destruct (decide (sep = a)); [congruence|]. done.
      * intros H. apply elem_of_cons in H as [->|H]; [|apply IH; by right].
        assert (Js.includes (String sep "") w = false) as Hw by (apply IH; by left).
        simpl. destruct (decide (sep = a)); [congruence|].
        destruct w; simpl in *; done.
Qed.

Lemma foldl_selectorStep_agree (lookup lookup' : gmap string (list string))
  (clauses : list string) (nodes : list string) :
  (∀ c, c ∈ clauses → lookup !! c = lookup' !! c) →
  foldl (selectorStep lookup) nodes clauses = foldl (selectorStep lookup') nodes clauses.
Proof.
  revert nodes. induction clauses as [|c cs IH]; intros nodes H; [done|]. simpl.
  rewrite IH by (intros c' Hc'; apply H; by right).
  f_equal. unfold selectorStep. by rewrite (H c) by by left.
Qed.

Lemma append_inj_l (p a b : string) : p +:+ a = p +:+ b → a = b.
Proof. induction p as [|c p IH]; simpl; [done|]. intros [= H]. by apply IH. Qed.

Lemma append_dot_not_star (p t : string) : p +:+ "." +:+ t ≠ "*".
Proof. destruct p as [|a [|b p]]; simpl; try done. Qed.

Lemma truthyStr_append_r (a b : string) :
  Js.truthyStr b = true → Js.truthyStr (a +:+ b) = true.
Proof. destruct a; [done|]. done. Qed.

Lemma setter_lookup_ne (map : gmap string (list string)) (key v k : string) :
  k ≠ key → setter map key v !! k = map !! k.
Proof.
  intros Hne. unfold setter. destruct (Js.truthyStr key); [|done].
  destruct (map !! key); by rewrite lookup_insert_ne.
Qed.

Lemma setter_fold_lookup_ne (map : gmap string (list string)) (key v k : string)
  (tokens : list string) :
  k ≠ key → foldl (fun l _ => setter l key v) map tokens !! k = map !! k.
Proof.
  intros Hne. revert map. induction tokens as [|t ts IH]; intros map; [done|].
  simpl. by rewrite IH, setter_lookup_ne.
Qed.

Lemma setNodeLookup_other (node : AudioNode) (s : Engine) (k : string) :
  k ∉ indexKeys (getCurrentMacroNamespace s) (nodeType node)
                (cp_settings (parameters node)) →
  nodeLookup (setNodeLookup node s) !! k = nodeLookup s !! k.
Proof.
  unfold setNodeLookup, indexKeys. simpl. intros Hk.
  rewrite !setter_lookup_ne by set_solver.
  destruct (s_class (cp_settings (parameters node))) as [c|];
    destruct (s_id (cp_settings (parameters node))) as [i|];
    rewrite ?setter_fold_lookup_ne, ?setter_lookup_ne by set_solver; done.
Qed.

(** X13.  Selectors are split at commas before they are looked up, so
    an index key that contains a comma is never read: removing it
    changes the result of no query.  That is where [setNodeLookup]
    files a node whose class attribute lists several classes -- under
    the whole attribute, once per listed class -- while none of the
    single classes gets an entry for it: such a node is found by its
    type, its id and the wildcard, never by a class. *)
Theorem class_lists_are_not_indexed (node : AudioNode) (s : Engine) (c : string)
  (Hclass : s_class (cp_settings (parameters node)) = Some c)
  (Hlist : Js.includes "," c = true) :
  let ns := getCurrentMacroNamespace s in
  let s' := setNodeLookup node s in
  (∀ lookup k selector, Js.includes "," k = true →
     getNodesWithSelector (delete k lookup) selector
     = getNodesWithSelector lookup selector) ∧
  Js.includes "," (ns +:+ "." +:+ c) = true ∧
  a_uuid node ∈ bucket (nodeLookup s') (ns +:+ "." +:+ c) ∧
  (∀ tok, tok ∈ Js.split "," c → nodeType node ≠ "." +:+ tok →
     bucket (nodeLookup s') (ns +:+ "." +:+ tok)
     = bucket (nodeLookup s) (ns +:+ "." +:+ tok)).
Proof.
  intros ns s'. split; [|split; [|split]].
  - intros lookup k selector Hk. unfold getNodesWithSelector.
    apply foldl_selectorStep_agree. intros cl Hcl.
    apply split_pieces_no_sep in Hcl.
    rewrite lookup_delete_ne; [done|]. intros ->. congruence.
  - apply includes_append_r. by apply (includes_append_r _ ".").
  - apply setNodeLookup_elem. right. split; [done|]. split.
    + apply (truthyStr_append_r ns). done.
    + unfold indexKeys. rewrite Hclass. fold ns.
      destruct (s_id _); set_solver.
  - intros tok Htok Hty. apply split_pieces_no_sep in Htok.
    assert (tok ≠ c) as Hne by (intros ->; congruence).
    unfold bucket, s'. rewrite setNodeLookup_other; [done|].
    unfold indexKeys. rewrite Hclass. fold ns.
    assert (ns +:+ "." +:+ tok ≠ ns +:+ "." +:+ c) as H1
      by (intros H; apply append_inj_l in H; by injection H).
    assert (ns +:+ "." +:+ tok ≠ "*") as H2 by apply append_dot_not_star.
    assert (ns +:+ "." +:+ tok ≠ ns +:+ nodeType node) as H3
      by (intros H; apply append_inj_l in H; by apply Hty).
    destruct (s_id _) as [i|]; [|set_solver].
    assert (ns +:+ "." +:+ tok ≠ ns +:+ "#" +:+ i) as H4
      by (intros H; by apply append_inj_l in H).
    set_solver.
Qed.

Lemma class_lists_are_not_indexed_witness :
  bucket (nodeLookup (setNodeLookup twoClasses initialEngine)) ".a"
  = bucket (nodeLookup initialEngine) ".a".
Proof.
  destruct (class_lists_are_not_indexed twoClasses initialEngine "a,b" eq_refl eq_refl)
    as (_ & _ & _ & H).
  apply (H "a"); [by left|discriminate].
Defined.
(** ** Filtering and searching *)

Lemma keep_fold (s : Engine) (test : AudioNode → bool) (l acc : list uuid) :
  (∀ x, x ∈ l → is_Some (getNodeWithUUID s x)) →
  foldl (fun acc x =>
           tmp ← acc; n ← derefNode s x; Ok (if test n then tmp ++ [x] else tmp))
        (Ok acc) l
  = Ok (acc ++ filter (fun x => match getNodeWithUUID s x with
                                | Some n => test n
                                | None => false
                                end = true) l).
Proof.
  revert acc. induction l as [|x l IH]; intros acc Hres.
  - simpl. by rewrite app_nil_r.
  - destruct (Hres x) as [n Hn]; [by left|].
    assert (derefNode s x = Ok n) as Hd by (unfold derefNode; by rewrite Hn).
    simpl foldl. rewrite Hd. simpl mbind. unfold result_bind.
    rewrite IH by (intros y Hy; apply Hres; by right).
    rewrite filter_cons.
    destruct (decide (match getNodeWithUUID s x with
                      | Some n => test n
                      | None => false
                      end = true)) as [Ht|Ht]; rewrite Hn in Ht.
    + rewrite Ht. by rewrite <- app_assoc.
    + by destruct (test n).
Qed.

Lemma keep_fold_throw (s : Engine) (test : AudioNode → bool) (l : list uuid)
  (acc : result (list uuid)) :
  (∃ x, x ∈ l ∧ getNodeWithUUID s x = None) ∨ (∃ msg, acc = Throw msg) →
  ∃ msg,
    foldl (fun acc x =>
             tmp ← acc; n ← derefNode s x; Ok (if test n then tmp ++ [x] else tmp))
          acc l
    = Throw msg.
Proof.
  revert acc. induction l as [|x l IH]; intros acc [(y & Hy & Hnone)|(msg & ->)].
  - by apply elem_of_nil in Hy.
  - by exists msg.
  - simpl foldl. apply IH. apply elem_of_cons in Hy as [->|Hy].
    + right. destruct acc as [tmp|msg]; [|by exists msg].
      unfold derefNode. rewrite Hnone. by eexists.
    + left. by exists y.
  - simpl foldl. apply IH. right. by exists msg.
Qed.

(** X14.  [filter(sel)] returns, in selection order, exactly the
    selected ids whose wrapper passes the test, and the selection
    itself is not touched; it throws as soon as one selected id has no
    wrapper, and without argument it returns the empty array.  The
    test compares the wrapper's type with the selector, its whole class
    attribute with what follows the dot, or its id with what follows
    the hash; a type selector that contains a hash further on is
    compared without its first character. *)
Theorem filter_keeps_matching_in_order (str : string) (s : Engine) :
  cracked_filter None s = Ok [] ∧
  ((∀ u, u ∈ selectedNodes s → is_Some (getNodeWithUUID s u)) →
   cracked_filter (Some str) s
   = Ok (filter (fun u => passes s str u = true) (selectedNodes s))) ∧
  ((∃ u, u ∈ selectedNodes s ∧ getNodeWithUUID s u = None) →
   ∃ msg, cracked_filter (Some str) s = Throw msg) ∧
  (∀ n name, filterTest ("#" +:+ name) n = bool_decide (getID n = name)) ∧
  (∀ n name, filterTest ("." +:+ name) n = bool_decide (getClass n = name)) ∧
  (∀ n, getSelectorType str = SelType →
        filterTest str n
        = bool_decide (nodeType n = if Js.includes "#" str then Js.drop 1 str else str)).
Proof.
  split; [done|]. split; [|split; [|split; [|split]]].
  - intros Hres. unfold cracked_filter. by rewrite keep_fold.
  - intros Hbad. unfold cracked_filter. apply keep_fold_throw. by left.
  - intros n name. unfold filterTest, filterName. simpl.
    by destruct name.
  - intros n name. unfold filterTest, filterName. simpl. done.
  - intros n Hty. unfold filterTest, filterName. rewrite Hty.
    destruct str as [|c r]; [done|].
    assert (Js.startsWith "." (String c r) = false) as ->.
    { simpl. destruct (decide ("."%char = c)) as [<-|]; [done|done]. }
    done.
Qed.

Lemma filter_keeps_matching_in_order_witness :
  cracked_filter (Some "osc") (set_selectedNodes ["a1"; "A"; "c1"] thirdSine)
  = Ok ["a1"; "c1"].
Proof.
  destruct (filter_keeps_matching_in_order "osc"
              (set_selectedNodes ["a1"; "A"; "c1"] thirdSine)) as (_ & H & _).
  rewrite H; [reflexivity|].
  intros u Hu.
  apply elem_of_cons in Hu as [->|Hu]; [by eexists|].
  apply elem_of_cons in Hu as [->|Hu]; [by eexists|].
  apply list_elem_of_singleton in Hu as ->. by eexists.
Defined.

(** X15.  [search(str)] on a macro wrapper looks [str] up under the
    wrapper's recorded namespace and keeps, in order and without
    duplicates, exactly the ids whose wrapper is a direct member of
    that macro; unlike the [forEach] of [findInMacro] it lets no
    foreign id through.  An empty [str] gives the empty array. *)
Theorem search_returns_members_only (this : AudioNode) (str : string) (s : Engine)
  (Hres : ∀ u, u ∈ getNodesWithSelector (nodeLookup s) (macroNameSpace this +:+ str) →
               is_Some (getNodeWithUUID s u)) :
  search this "" s = Ok [] ∧
  (Js.truthyStr str = true →
   let found := getNodesWithSelector (nodeLookup s) (macroNameSpace this +:+ str) in
   search this str s = Ok (filter (fun u => memberOf s (a_uuid this) u = true) found) ∧
   NoDup (filter (fun u => memberOf s (a_uuid this) u = true) found) ∧
   ∀ u, u ∈ filter (fun u => memberOf s (a_uuid this) u = true) found →
        ∃ w, getNodeWithUUID s u = Some w ∧ macroContainerUUID w = Some (a_uuid this)).
Proof.
  split; [done|]. intros Hstr found. split; [|split].
  - unfold search. rewrite Hstr. fold found. by rewrite keep_fold.
  - apply NoDup_filter. unfold found. rewrite getNodesWithSelector_arrayUnique.
    apply arrayUnique_NoDup.
  - intros u Hu. apply list_elem_of_filter in Hu as [Hm _]. unfold memberOf in Hm.
    destruct (getNodeWithUUID s u) as [w|]; [|done].
    exists w. split; [done|]. by apply bool_decide_eq_true in Hm.
Qed.

Lemma search_returns_members_only_witness :
  search sineC "osc" closedSines = Ok ["c1"].
Proof.
  destruct (search_returns_members_only sineC "osc" closedSines) as (_ & H).
  - intros u Hu. vm_compute in Hu.
    apply elem_of_cons in Hu as [->|Hu]; [by eexists|].
    apply elem_of_cons in Hu as [->|Hu]; [by eexists|].
    apply list_elem_of_singleton in Hu as ->. by eexists.
  - destruct (H eq_refl) as (Hs & _). exact Hs.
Defined.
(** ** What scripts keep *)

Section Registry.

Variable hostHas : string -> bool.
Variable hostProps : handle -> CreationParams -> gmap string propval.
Variable hostConnects : Native -> endpoint -> bool.

Lemma connectOne_dom x u s s' :
  connectOne hostConnects x u s = Ok s' → dom (nodeStore s') = dom (nodeStore s).
Proof.
  intros H. apply connectOne_spec in H as (w & _ & _ & _ & ->).
  by rewrite !dom_alter_L.
Qed.

Lemma connectAll_dom l u s s' :
  connectAll hostConnects l u s = Ok s' → dom (nodeStore s') = dom (nodeStore s).
Proof.
  revert s. induction l as [|x l IH]; intros s; simpl.
  - by intros [= <-].
  - destruct (getNodeWithUUID s x); [|apply IH].
    intros H. bind_inv H as s1 Hs1. apply connectOne_dom in Hs1.
    rewrite <- Hs1. by apply IH.
Qed.

Lemma connectPreviousToSelected_loop_dom p ids s s' :
  connectPreviousToSelected_loop hostConnects p ids s = Ok s' →
  dom (nodeStore s') = dom (nodeStore s).
Proof.
  revert s. induction ids as [|x ids IH]; intros s; simpl.
  - by intros [= <-].
  - destruct (getNodeWithUUID s x), p; try apply IH.
    intros H. bind_inv H as s1 Hs1. apply connectOne_dom in Hs1.
    rewrite <- Hs1. by apply IH.
Qed.

(** What [createNode] leaves behind, registry and index. *)
Lemma createNode_registers type cp us u s s' :
  createNode hostHas hostProps hostConnects type cp us u s = Ok s' →
  dom (nodeStore s') = {[u]} ∪ dom (nodeStore s) ∧
  currentMacro s' = currentMacro s ∧
  ((selectedNodes s' = selectedNodes s ∧ previousNode s' = previousNode s) ∨
   (selectedNodes s' = [] ∧ previousNode s' = Some u)) ∧
  ∃ node s0,
    nodeLookup s' = nodeLookup (setNodeLookup node s0) ∧
    nodeLookup s0 = nodeLookup s ∧ currentMacro s0 = currentMacro s ∧
    a_uuid node = u ∧ nodeType node = type ∧ parameters node = mergedParams cp us.
Proof.
  unfold createNode.
  destruct (newAudioNode _ _ type cp us u s) as [node0 s0] eqn:E0.
  destruct (saveNode node0 s0) as [node s1] eqn:E1.
  apply newAudioNode_spec in E0 as (Hs0 & Hst0 & Hl0 & Hu0 & Hty0 & Hp0 & _).
  assert (currentMacro s0 = currentMacro s) as Hm0
    by exact (f_equal currentMacro Hs0).
  assert (nodeLookup s1 = nodeLookup (setNodeLookup node s0) ∧
          a_uuid node = u ∧ nodeType node = type ∧
          parameters node = mergedParams cp us ∧
          dom (nodeStore s1) = {[u]} ∪ dom (nodeStore s) ∧
          currentMacro s1 = currentMacro s) as (Hl1 & Hu1 & Hty1 & Hp1 & Hd1 & Hm1).
  { unfold saveNode, updateMacro in E1.
    destruct (getCurrentMacro s0) as [top|]; injection E1 as <- <-.
    - unfold setMacroContainerUUID. destruct (Js.truthyStr (m_uuid top)); simpl;
        rewrite dom_insert_L, dom_alter_L, Hst0, Hu0; done.
    - simpl. by rewrite dom_insert_L, Hst0, Hu0. }
  assert (selectedNodes s1 = selectedNodes s ∧ previousNode s1 = previousNode s)
    as [Hsel1 Hprev1].
  { apply saveNode_spec in E1 as (Hs1 & _). rewrite Hs0 in Hs1.
    split; [exact (f_equal selectedNodes Hs1)|exact (f_equal previousNode Hs1)]. }
  assert (nodeLookup s' = nodeLookup s1 → dom (nodeStore s') = dom (nodeStore s1) →
          currentMacro s' = currentMacro s1 →
          ((selectedNodes s' = selectedNodes s ∧ previousNode s' = previousNode s) ∨
           (selectedNodes s' = [] ∧ previousNode s' = Some u)) →
          dom (nodeStore s') = {[u]} ∪ dom (nodeStore s) ∧
          currentMacro s' = currentMacro s ∧
          ((selectedNodes s' = selectedNodes s ∧ previousNode s' = previousNode s) ∨
           (selectedNodes s' = [] ∧ previousNode s' = Some u)) ∧
          ∃ node s0,
            nodeLookup s' = nodeLookup (setNodeLookup node s0) ∧
            nodeLookup s0 = nodeLookup s ∧ currentMacro s0 = currentMacro s ∧
            a_uuid node = u ∧ nodeType node = type ∧
            parameters node = mergedParams cp us) as Hgoal.
  { intros -> -> -> Hsp. split; [done|]. split; [done|]. split; [done|].
    by exists node, s0. }
  destruct (isMacro node).
  - intros [= <-]. apply Hgoal; try done. by left.
  - intros H. bind_inv H as s2 Hs2. injection H as <-.
    pose proof (connectAll_session _ _ _ _ _ Hs2) as Hse.
    apply connectAll_dom in Hs2.
    apply Hgoal; simpl; [by apply session_lookup|done| |].
    + exact (f_equal currentMacro Hse).
    + right. by rewrite Hu1.
Qed.









End Registry.

Lemma setter_lookup_eq (map : gmap string (list string)) (key v : string) :
  Js.truthyStr key = true → setter map key v !! key = Some (bucket map key ++ [v]).
Proof.
  intros Hk. unfold setter, bucket. rewrite Hk.
  destruct (map !! key) as [l|] eqn:E; by rewrite lookup_insert_eq.
Qed.

Lemma append_hash_not_star (p t : string) : p +:+ "#" +:+ t ≠ "*".
Proof. destruct p as [|a [|b p]]; simpl; try done. Qed.

Lemma namespace_type_not_star (s : Engine) (type : string) :
  type ≠ "*" → getCurrentMacroNamespace s +:+ type ≠ "*".
Proof.
  intros Hty. destruct (currentMacro s) as [|m ms] eqn:E.
  - unfold getCurrentMacroNamespace. by rewrite E.
  - intros H. assert (Js.includes " " (getCurrentMacroNamespace s +:+ type) = true) as Hs.
    { apply includes_append_l, namespace_has_space. by rewrite E. }
    by rewrite H in Hs.
Qed.

Lemma setNodeLookup_star (node : AudioNode) (s : Engine) :
  nodeType node ≠ "*" →
  bucket (nodeLookup (setNodeLookup node s)) "*"
  = bucket (nodeLookup s) "*" ++ [a_uuid node].
Proof.
  intros Hty. unfold setNodeLookup. simpl. unfold bucket at 1.
  rewrite setter_lookup_ne by (intros H; symmetry in H; by apply namespace_type_not_star in H).
  rewrite setter_lookup_eq by done. simpl. f_equal. unfold bucket.
  destruct (s_class (cp_settings (parameters node))) as [c|];
    destruct (s_id (cp_settings (parameters node))) as [i|];
    rewrite ?setter_fold_lookup_ne, ?setter_lookup_ne; try done;
    try (intros H; symmetry in H; by apply append_dot_not_star in H);
    try (intros H; symmetry in H; by apply append_hash_not_star in H).
Qed.

Section Wildcard.

Variable hostHas : string -> bool.
Variable hostProps : handle -> CreationParams -> gmap string propval.
Variable hostConnects : Native -> endpoint -> bool.

Lemma createNode_star type cp us u s s' :
  type ≠ "*" →
  createNode hostHas hostProps hostConnects type cp us u s = Ok s' →
  bucket (nodeLookup s') "*" = bucket (nodeLookup s) "*" ++ [u] ∧
  dom (nodeStore s') = dom (nodeStore s) ∪ {[u]}.
Proof.
  intros Hty Hrun.
  apply createNode_registers in Hrun
    as (Hdom & _ & _ & node & s0 & Hl & Hl0 & _ & Hu & Hnt & _).
  split; [|set_solver].
  rewrite Hl, setNodeLookup_star, Hl0, Hu by (by rewrite Hnt). done.
Qed.

Lemma find_store selector s s' : find selector s = Ok s' → nodeStore s' = nodeStore s.
Proof.
  unfold find. destruct selector as [sel|]; [|by intros [= <-]].
  destruct (recordingMacro s); [|by intros [= <-]].
  intros H. bind_inv H as s1 Hs1. injection H as <-.
  unfold findInMacro in Hs1. bind_inv Hs1 as top Htop. bind_inv Hs1 as kept Hkept.
  by injection Hs1 as <-.
Qed.

Lemma runOp_star o s s' :
  createdType o ≠ Some "*" →
  runOp hostHas hostProps hostConnects o s = Ok s' →
  bucket (nodeLookup s') "*" = bucket (nodeLookup s) "*" ++ createdBy o ∧
  dom (nodeStore s') = dom (nodeStore s) ∪ list_to_set (createdBy o).
Proof.
  intros Hty Hrun. destruct (isSequencerOp o) eqn:Ho.
  - apply (runOp_sequencer_frame _ _ _ _ _ _ Ho) in Hrun.
    injection Hrun as -> -> _ _ _ _ _ _.
    destruct o; try done; simpl; rewrite app_nil_r; (split; [done|set_solver]).
  - destruct o as [selector|name us u|name|type cp us u|selector|arg now|now
                  |eventType fn data|eventType]; simpl in *; try done.
    + rewrite (find_lookup _ _ _ Hrun), (find_store _ _ _ Hrun), app_nil_r.
      split; [done|set_solver].
    + unfold begin, createMacro in Hrun.
      destruct (Js.truthyStr name).
      * bind_inv Hrun as s1 Hs1. injection Hrun as <-. simpl.
        apply createNode_star in Hs1 as [-> ->]; [|congruence].
        split; [done|set_solver].
      * injection Hrun as <-. rewrite app_nil_r. split; [done|set_solver].
    + injection Hrun as <-. rewrite end_lookup, app_nil_r. split; [done|].
      unfold end_. destruct (getCurrentMacro s) as [top|]; [|set_solver].
      destruct (decide (m_type top = name)); [|set_solver].
      simpl. rewrite dom_alter_L. set_solver.
    + apply createNode_star in Hrun as [-> ->]; [|congruence].
      split; [done|set_solver].
    + unfold cracked_connect in Hrun. bind_inv Hrun as s1 Hs1.
      unfold connectPreviousToSelected in Hrun.
      pose proof (connectPreviousToSelected_loop_session _ _ _ _ _ Hrun) as Hse.
      apply connectPreviousToSelected_loop_dom in Hrun.
      apply session_lookup in Hse.
      rewrite Hse, Hrun, app_nil_r.
      set (tmp := match getPreviousNode s with Some p => Some p | None => _ end).
      replace (nodeLookup (setPreviousNode tmp s1)) with (nodeLookup s1)
        by by destruct tmp.
      replace (nodeStore (setPreviousNode tmp s1)) with (nodeStore s1)
        by by destruct tmp.
      rewrite (find_lookup _ _ _ Hs1), (find_store _ _ _ Hs1).
      split; [done|set_solver].
Qed.

(** X17.  The wildcard entry of the lookup index and the registry list
    the same wrappers: over any script (none of whose wrappers has the
    type ["*"]) the wildcard entry grows by exactly the uuids of the
    wrappers the script creates, in creation order -- macro wrappers
    included, wherever they are nested -- and the registry grows by
    exactly the same uuids; nothing is ever taken out of either. *)
Theorem wildcard_lists_every_wrapper (ops : list op) (s s' : Engine)
  (Htypes : Forall (fun o => createdType o ≠ Some "*") ops)
  (Hrun : runOps hostHas hostProps hostConnects ops s = Ok s') :
  bucket (nodeLookup s') "*" = bucket (nodeLookup s) "*" ++ flat_map createdBy ops ∧
  dom (nodeStore s') = dom (nodeStore s) ∪ list_to_set (flat_map createdBy ops).
Proof.
  revert s Hrun. induction Htypes as [|o ops Ho _ IH]; intros s Hrun; simpl in *.
  - injection Hrun as <-. rewrite app_nil_r. split; [done|set_solver].
  - bind_inv Hrun as s1 Hs1. apply (runOp_star _ _ _ Ho) in Hs1 as [Hb Hd].
    destruct (IH _ Hrun) as [-> ->]. rewrite Hb, Hd, <- app_assoc.
    split; [done|]. rewrite list_to_set_app_L. set_solver.
Qed.

End Wildcard.

Lemma wildcard_lists_every_wrapper_witness :
  bucket (nodeLookup afterNestedMacro) "*" = ["uo"; "um"; "u1"] ∧
  dom (nodeStore afterNestedMacro) = {["uo"; "um"; "u1"]}.
Proof.
  destruct (wildcard_lists_every_wrapper demoHas demoProps demoConnects nestedMacroScript
              initialEngine afterNestedMacro) as (Hb & Hd).
  - repeat constructor; discriminate.
  - reflexivity.
  - split; [exact Hb|]. rewrite Hd. simpl. set_solver.
Defined.
(** ** Macro recorder: recording *)

Lemma append_assoc (x y z : string) : (x +:+ y) +:+ z = x +:+ y +:+ z.
Proof.
  induction x as [|c x IH]; [done|].
  change (String c ((x +:+ y) +:+ z) = String c (x +:+ y +:+ z)). by rewrite IH.
Qed.

Lemma join_app (a b : list string) : Js.join (a ++ b) = Js.join a +:+ Js.join b.
Proof.
  unfold Js.join. induction a as [|x a IH]; simpl; [done|].
  by rewrite IH, append_assoc.
Qed.

Lemma namespace_push (s : Engine) (m : MacroRef) :
  getCurrentMacroNamespace (set_currentMacro (currentMacro s ++ [m]) s)
  = getCurrentMacroNamespace s +:+ m_type m +:+ " ".
Proof.
  unfold getCurrentMacroNamespace. simpl.
  rewrite flat_map_app, join_app. f_equal.
Qed.

Section Recording.

Variable hostHas : string -> bool.
Variable hostProps : handle -> CreationParams -> gmap string propval.
Variable hostConnects : Native -> endpoint -> bool.

(** X18.  [begin(name)] with a non-empty name never fails and makes no
    primitive: it registers an empty macro wrapper of type [name] and
    pushes it on the recording stack.  A following [end(name)] pops
    exactly that entry, so the stack is as before, and stamps the
    wrapper with the namespace of the whole stack at that moment: the
    namespace before the [begin], then [name], then a space.  With an
    empty name [begin] does nothing. *)
Theorem begin_end_round_trip (name : string) (us : Settings) (u : uuid) (s : Engine)
  (Hname : Js.truthyStr name = true) :
  begin hostHas hostProps hostConnects "" us u s = Ok s ∧
  ∃ s1 w,
    begin hostHas hostProps hostConnects name us u s = Ok s1 ∧
    heap s1 = heap s ∧
    currentMacro s1 = currentMacro s ++ [mkMacroRef u name] ∧
    nodeStore s1 !! u = Some w ∧
    nodeType w = name ∧ nativeNode w = Members [] ∧ macroNameSpace w = "" ∧
    currentMacro (end_ name s1) = currentMacro s ∧
    nodeStore (end_ name s1) !! u
    = Some (set_macroNameSpace (getCurrentMacroNamespace s +:+ name +:+ " ") w).
Proof.
  split; [done|].
  unfold begin, createMacro, createNode. rewrite Hname.
  destruct (newAudioNode hostHas hostProps name macroParams us u s) as [node0 s0] eqn:E0.
  destruct (saveNode node0 s0) as [node s1] eqn:E1.
  pose proof (newAudioNode_spec _ _ _ _ _ _ _ _ _ E0)
    as (Hs0 & _ & _ & Hu0 & Hty0 & _ & _ & _ & _ & Hmac).
  assert (heap s0 = heap s ∧ nativeNode node0 = Members [] ∧ macroNameSpace node0 = "")
    as (Hh0 & Hn0 & Hns0).
  { unfold newAudioNode, audioNodeFactory in E0. simpl in E0. by injection E0 as <- <-. }
  pose proof (saveNode_store _ _ _ _ E1) as (Hh1 & Hst1 & _).
  pose proof (saveNode_spec _ _ _ _ E1) as (Hs1 & Hu1 & Hn1 & _ & _ & _ & Hty1).
  assert (macroNameSpace node = "") as Hns1.
  { unfold saveNode, updateMacro in E1.
    destruct (getCurrentMacro s0) as [top|]; injection E1 as <- _; [|done].
    unfold setMacroContainerUUID. by destruct (Js.truthyStr (m_uuid top)). }
  assert (currentMacro s1 = currentMacro s) as Hm1.
  { rewrite Hs0 in Hs1. exact (f_equal currentMacro Hs1). }
  unfold isMacro. rewrite Hn1, Hn0. simpl.
  eexists _, node. split; [reflexivity|]. simpl.
  rewrite Hu0 in Hst1.
  split; [by rewrite Hh1|]. split; [by rewrite Hm1|]. split; [done|].
  split; [by rewrite Hty1|]. split; [by rewrite Hn1|]. split; [done|].
  unfold end_, getCurrentMacro. simpl. rewrite last_snoc. simpl.
  rewrite decide_True by done. simpl.
  rewrite removelast_last. split; [done|].
  rewrite lookup_alter, decide_True, Hst1 by done. simpl. f_equal.
  unfold setMacroNameSpace.
  assert (getCurrentMacroNamespace
            (set_currentMacro (currentMacro s1 ++ [mkMacroRef u name]) s1)
          = getCurrentMacroNamespace s +:+ name +:+ " ") as ->.
  { rewrite namespace_push. simpl. unfold getCurrentMacroNamespace. by rewrite Hm1. }
  rewrite truthyStr_append_r; [done|]. by apply truthyStr_append_l.
Qed.

End Recording.

Lemma begin_end_round_trip_witness :
  ∃ s1 w,
    demoBegin "M" emptySettings "um2" recordingM = Ok s1 ∧
    nodeStore s1 !! "um2" = Some w ∧
    nodeStore (end_ "M" s1) !! "um2" = Some (set_macroNameSpace "M M " w).
Proof.
  destruct (begin_end_round_trip demoHas demoProps demoConnects "M" emptySettings "um2"
              recordingM eq_refl)
    as (_ & s1 & w & Hb & _ & _ & Hw & _ & _ & _ & _ & He).
  exists s1, w. split; [exact Hb|]. split; [exact Hw|exact He].
Defined.
Section Members.

Variable hostHas : string -> bool.
Variable hostProps : handle -> CreationParams -> gmap string propval.
Variable hostConnects : Native -> endpoint -> bool.

Lemma connectAll_sameShape l u s s' :
  connectAll hostConnects l u s = Ok s' → sameShape s s'.
Proof.
  revert s. induction l as [|x l IH]; intros s; simpl.
  - intros [= <-]. apply sameShape_refl.
  - destruct (getNodeWithUUID s x); [|apply IH].
    intros H. bind_inv H as s1 Hs1.
    apply connectOne_spec in Hs1 as (w & _ & Hsh & _).
    eapply sameShape_trans; [done|]. by apply IH.
Qed.

Lemma sameShape_lookup s s' k x :
  sameShape s s' → nodeStore s !! k = Some x →
  ∃ x', nodeStore s' !! k = Some x' ∧ nativeNode x' = nativeNode x ∧
        macroContainerUUID x' = macroContainerUUID x ∧ a_uuid x' = a_uuid x.
Proof.
  intros [H _] Hk. specialize (H k). apply fmap_eq_cases in H. rewrite Hk in H.
  destruct (nodeStore s' !! k) as [x'|]; [|done].
  apply coreEq_fields in H as (H1 & H2 & _ & H3 & _). by exists x'.
Qed.

(** X19.  While a macro is being recorded, creating a wrapper (a node
    or a nested macro) appends its native node -- the primitive, or the
    nested member array -- to the end of the member array of the
    innermost recording macro and tags the new wrapper with that
    macro's uuid; the member arrays and owners of all other wrappers
    stay as they were, so a macro's members are in creation order. *)
Theorem recording_appends_member
  (type : string) (cp : CreationParams) (us : Settings) (u : uuid) (s s' : Engine)
  (top : MacroRef) (w : AudioNode) (ms : list member)
  (Hrec : getCurrentMacro s = Some top)
  (Htop : Js.truthyStr (m_uuid top) = true)
  (Hw : nodeStore s !! m_uuid top = Some w)
  (Hms : nativeNode w = Members ms)
  (Hfresh : nodeStore s !! u = None)
  (Hrun : createNode hostHas hostProps hostConnects type cp us u s = Ok s') :
  ∃ w' n,
    nodeStore s' !! m_uuid top = Some w' ∧ nodeStore s' !! u = Some n ∧
    nativeNode w' = Members (ms ++ [asMember n]) ∧
    macroContainerUUID n = Some (m_uuid top) ∧
    ∀ k x, k ≠ u → k ≠ m_uuid top → nodeStore s !! k = Some x →
      ∃ x', nodeStore s' !! k = Some x' ∧ nativeNode x' = nativeNode x ∧
            macroContainerUUID x' = macroContainerUUID x.
Proof.
  unfold createNode in Hrun.
  destruct (newAudioNode _ _ type cp us u s) as [node0 s0] eqn:E0.
  destruct (saveNode node0 s0) as [node s1] eqn:E1.
  pose proof (newAudioNode_spec _ _ _ _ _ _ _ _ _ E0)
    as (Hs0 & Hst0 & _ & Hu0 & _).
  assert (getCurrentMacro s0 = Some top) as Hrec0.
  { unfold getCurrentMacro in *. apply (f_equal currentMacro) in Hs0. simpl in Hs0.
    by rewrite Hs0. }
  assert (u ≠ m_uuid top) as Hne by (intros ->; congruence).
  unfold saveNode, updateMacro in E1. rewrite Hrec0 in E1.
  unfold setMacroContainerUUID in E1. rewrite Htop in E1.
  injection E1 as <- <-.
  set (node := set_macroContainerUUID (Some (m_uuid top)) node0) in *.
  set (s1 := setNodeLookup node (setNode node (set_nodeStore _ s0))) in *.
  assert (nodeStore s1 !! m_uuid top
          = Some (set_nativeNode (Members (ms ++ [asMember node])) w)) as Htop1.
  { unfold s1. simpl. rewrite Hu0, lookup_insert_ne by done.
    rewrite lookup_alter, decide_True, Hst0, Hw by done. simpl.
    unfold addNativeNode. by rewrite Hms. }
  assert (nodeStore s1 !! u = Some node) as Hu1.
  { unfold s1. simpl. by rewrite Hu0, lookup_insert_eq. }
  assert (∀ k x, k ≠ u → k ≠ m_uuid top → nodeStore s !! k = Some x →
                 nodeStore s1 !! k = Some x) as Hother1.
  { intros k x Hk1 Hk2 Hx. unfold s1. simpl.
    rewrite Hu0, lookup_insert_ne by done.
    by rewrite lookup_alter, decide_False, Hst0 by done. }
  assert (sameShape s1 s') as Hshape.
  { destruct (isMacro node).
    - injection Hrun as <-. apply sameShape_refl.
    - bind_inv Hrun as s2 Hs2. injection Hrun as <-.
      apply connectAll_sameShape in Hs2. destruct Hs2 as [H1 H2]. by split. }
  destruct (sameShape_lookup _ _ _ _ Hshape Htop1) as (w' & Hw' & Hn' & _).
  destruct (sameShape_lookup _ _ _ _ Hshape Hu1) as (n & Hn & Hnn & Hnc & Hnu).
  exists w', n. split; [done|]. split; [done|]. split.
  - rewrite Hn'. simpl. do 3 f_equal. unfold asMember. by rewrite Hnn, Hnu.
  - split; [by rewrite Hnc|].
    intros k x Hk1 Hk2 Hx. apply (Hother1 _ _ Hk1 Hk2) in Hx.
    destruct (sameShape_lookup _ _ _ _ Hshape Hx) as (x' & Hx' & H1 & H2 & _).
    by exists x'.
Qed.

End Members.

Lemma recording_appends_member_witness :
  ∃ w' n,
    nodeStore recordedFoo !! "um" = Some w' ∧ nodeStore recordedFoo !! "u1" = Some n ∧
    nativeNode w' = Members ([] ++ [asMember n]).
Proof.
  destruct (recording_appends_member demoHas demoProps demoConnects
              "osc" oscParams fooSettings "u1" recordingM recordedFoo
              (mkMacroRef "um" "M")
              (mkNode "um" None "" macroParams "M" (Members []) None false [] ∅) [])
    as (w' & n & H1 & H2 & H3 & _); try reflexivity.
  exists w', n. split; [exact H1|]. split; [exact H2|exact H3].
Defined.
(** ** Connecting to selected nodes *)

Section ConnectSelector.

Variable hostConnects : Native -> endpoint -> bool.




End ConnectSelector.

(** ** The native edge of a connection *)

Section NativeEdge.

Variable hostConnects : Native -> endpoint -> bool.

(** X21.  A successful [connect] never touches a wrapper and adds at
    most one native edge, out of the primitive at the output boundary
    of the source.  It adds none when a wrapper is connected to itself,
    when the source is a macro without members, and when the last
    member of the source macro is itself a macro: the output boundary
    is then a member array, which has no [connect] method, and the
    failure is only logged. *)
Theorem connect_adds_at_most_one_edge (this x : uuid) (s s' : Engine)
  (Hrun : connect hostConnects this x s = Ok s') :
  nodeStore s' = nodeStore s ∧ session s' = session s ∧
  (s' = s ∨
   ∃ tn h n to,
     derefNode s this = Ok tn ∧ getNodeToConnect tn FromSide = ENode h ∧
     heap s !! h = Some n ∧ endpointTruthy to = true ∧ hostConnects n to = true ∧
     s' = set_heap (<[h := set_n_out (n_out n ++ [to]) n]> (heap s)) s) ∧
  (this = x → s' = s) ∧
  (∀ tn ms, derefNode s this = Ok tn → nativeNode tn = Members ms →
            (ms = [] ∨ ∃ o, last ms = Some (MArray o)) → s' = s).
Proof.
  pose proof (connect_spec _ _ _ _ _ Hrun) as (Hst & Hse & _).
  split; [done|]. split; [done|].
  unfold connect in Hrun. bind_inv Hrun as tn Htn. bind_inv Hrun as xn Hxn.
  destruct (decide (a_uuid tn ≠ a_uuid xn)) as [Hne|Heq].
  - bind_inv Hrun as nodes Hnodes.
    pose proof (getNodesToConnect_from _ _ _ _ Hnodes) as Hfrom.
    unfold connectResolved in Hrun. rewrite Hfrom in Hrun.
    split; [|split].
    + destruct (getNodeToConnect tn FromSide) as [| |h| |] eqn:Eep;
        try (left; by injection Hrun as <-).
      destruct (endpointTruthy (nc_to nodes)) eqn:Et; [|left; by injection Hrun as <-].
      right. unfold nativeConnect in Hrun. bind_inv Hrun as n Hn.
      destruct (hostConnects n (nc_to nodes)) eqn:Eh; [|done]. injection Hrun as <-.
      exists tn, h, n, (nc_to nodes). repeat split; try done.
      unfold derefNative in Hn. by destruct (heap s !! h); [injection Hn as ->|].
    + intros ->. rewrite Htn in Hxn. by injection Hxn as <-.
    + intros tn' ms Htn' Hms Hlast. rewrite Htn in Htn'. injection Htn' as <-.
      unfold getNodeToConnect in Hrun.
      rewrite Hms in Hrun. destruct Hlast as [->|[o Ho]].
      * by injection Hrun as <-.
      * rewrite Ho in Hrun. by injection Hrun as <-.
  - injection Hrun as <-. split; [by left|]. split; done.
Qed.

End NativeEdge.

Lemma connect_adds_at_most_one_edge_witness :
  connect demoConnects "T" "L2" lfoThenNested = Ok lfoThenNested.
Proof.
  destruct (connect demoConnects "T" "L2" lfoThenNested) as [s'|] eqn:E;
    [|vm_compute in E; discriminate].
  destruct (connect_adds_at_most_one_edge demoConnects "T" "L2" lfoThenNested s' E)
    as (_ & _ & _ & _ & H).
  f_equal. apply (H outerMacro [MArray "S"]); [reflexivity|reflexivity|].
  right. by exists "S".
Defined.
(** ** Nested arrays *)

Lemma nested_induction {A} (P : nested A → Prop)
  (Hitem : ∀ a, P (NItem a))
  (Harray : ∀ l, Forall P l → P (NArray l)) :
  ∀ x, P x.
Proof.
  fix IH 1. intros [a|l]; [apply Hitem|]. apply Harray.
  induction l as [|y l IHl]; constructor; [apply IH|apply IHl].
Qed.

Lemma flattenInto_array {A} (l : list (nested A)) (r : list A) :
  flattenInto (NArray l) r = flatten l r.
Proof.
  unfold flatten. simpl. revert r. induction l as [|y l IH]; intros r; [done|].
  simpl. apply IH.
Qed.

Lemma flatten_cons {A} (x : nested A) (a : list (nested A)) (r : list A) :
  flatten (x :: a) r = flatten a (flattenInto x r).
Proof. done. Qed.

Lemma flattenInto_items {A} (x : nested A) :
  ∀ r : list A, flattenInto x r = r ++ itemsOf x.
Proof.
  induction x as [a|l IH] using nested_induction; intros r; [done|].
  rewrite flattenInto_array. simpl itemsOf. revert r.
  induction IH as [|y l Hy _ IHl]; intros r.
  - simpl. by rewrite app_nil_r.
  - rewrite flatten_cons, IHl, Hy. simpl. by rewrite <- app_assoc.
Qed.

(** X22.  [flatten(a, r)] pushes on the accumulator the items of [a]
    in depth-first, left-to-right order and changes nothing else of it;
    so how the items are grouped into inner arrays does not matter, a
    flat array is returned as it is, and flattening distributes over
    concatenation. *)
Theorem flatten_lists_items_in_order {A} (a b : list (nested A)) (r : list A) :
  flatten a r = r ++ flat_map itemsOf a ∧
  flatten (a ++ b) [] = flatten a [] ++ flatten b [] ∧
  flatten [NArray a] r = flatten a r ∧
  flatten (NItem <$> r) [] = r ∧
  length (flatten a r) = length r + length (flat_map itemsOf a).
Proof.
  assert (∀ (a : list (nested A)) r, flatten a r = r ++ flat_map itemsOf a) as H.
  { clear. intros a. induction a as [|x a IH]; intros r.
    - simpl. by rewrite app_nil_r.
    - rewrite flatten_cons, IH, flattenInto_items. simpl. by rewrite <- app_assoc. }
  split; [apply H|]. split; [by rewrite !H, flat_map_app|].
  split; [by rewrite flatten_cons, flattenInto_array|]. split.
  - rewrite H. simpl. induction r as [|x r IH]; [done|].
    rewrite fmap_cons. simpl. by f_equal.
  - by rewrite H, length_app.
Qed.

(** ** Playback *)

Section PlaybackFacts.

Variable hostHas : string -> bool.
Variable hostProps : handle -> CreationParams -> gmap string propval.
Variable hostConnects : Native -> endpoint -> bool.

(** What resetting a wrapper of one primitive changes. *)
Lemma resetLeaf_frame (thisNode : AudioNode) (h : handle) (m : string) (s s' : Engine) :
  methodOf (parameters thisNode) = Some m → hostHas m = true →
  resetLeaf hostHas hostProps hostConnects thisNode h s = Ok s' →
  let h' := fresh (dom (heap s)) in
  heap s !! h' = None ∧
  nodeStore s'
  = alter (fun n => set_isPlaying false (set_nativeNode (Leaf h') n)) (a_uuid thisNode)
          (nodeStore s) ∧
  session s' = session s ∧
  (∀ k n, heap s !! k = Some n →
     ∃ n', heap s' !! k = Some n' ∧ n_uuid n' = n_uuid n ∧ n_props n' = n_props n) ∧
  (∃ old new, heap s !! h = Some old ∧ heap s' !! h' = Some new ∧
              n_uuid new = a_uuid thisNode ∧
              n_props new
              = (if truthy (nativeProp old "buffer")
                 then <["buffer" := nativeProp old "buffer"]>
                        (hostProps h' (parameters thisNode))
                 else hostProps h' (parameters thisNode))) ∧
  (∀ k, is_Some (heap s' !! k) → k = h' ∨ is_Some (heap s !! k)).
Proof.
  intros Hmethod Hhost Hok h'.
  assert (heap s !! h' = None) as Hfresh.
  { apply not_elem_of_dom. apply is_fresh. }
  split; [done|].
  unfold resetLeaf in Hok. bind_inv Hok as old Hold.
  unfold audioNodeFactory in Hok. rewrite Hmethod, Hhost in Hok. fold h' in Hok.
  bind_inv Hok as s4 Hs4. bind_inv Hok as s5 Hs5.
  apply connectEach_spec in Hs4 as (A1 & A2 & A3 & A4 & _).
  apply connectPrevious_spec in Hs5 as (B1 & B2 & B3 & B4 & _).
  simpl in A1, A2.
  set (s3heap := alter (set_n_uuid (a_uuid thisNode)) h'
                   (<[h' := mkNative "" (hostProps h' (parameters thisNode)) []]> (heap s)))
    in *.
  assert (∀ k n, heap s !! k = Some n →
            ∃ n', heap s5 !! k = Some n' ∧ n_uuid n' = n_uuid n ∧ n_props n' = n_props n)
    as Hold5.
  { intros k n Hk.
    destruct (outGrows_trans _ _ _ A4 B4 k n) as (n' & Hn' & Hu' & Hp' & _).
    - simpl. unfold s3heap. rewrite lookup_alter_ne, lookup_insert_ne; [done|..];
        intros <-; congruence.
    - by exists n'. }
  assert (∃ new, heap s5 !! h' = Some new ∧ n_uuid new = a_uuid thisNode ∧
                 n_props new = hostProps h' (parameters thisNode)) as Hnew5.
  { destruct (outGrows_trans _ _ _ A4 B4 h'
                (mkNative (a_uuid thisNode) (hostProps h' (parameters thisNode)) []))
      as (n' & Hn' & Hu' & Hp' & _).
    - simpl. unfold s3heap. by rewrite lookup_alter, decide_True, lookup_insert_eq.
    - by exists n'. }
  assert (∀ k, is_Some (heap s5 !! k) → k = h' ∨ is_Some (heap s !! k)) as Hdom5.
  { intros k Hk. destruct (decide (k = h')) as [->|Hne]; [by left|right].
    destruct B3 as [_ B3]. destruct A3 as [_ A3].
    specialize (B3 k). specialize (A3 k). simpl in A3.
    unfold s3heap in A3. rewrite lookup_alter_ne, lookup_insert_ne in A3 by done.
    destruct Hk as [n5 Hn5]. rewrite Hn5 in B3.
    destruct (heap s4 !! k) as [n4|]; [|done].
    destruct (heap s !! k) as [n0|]; [by eexists|done]. }
  assert (nodeStore s5
          = alter (set_nativeNode (Leaf h')) (a_uuid thisNode) (nodeStore s)) as Hst5.
  { by rewrite B1, A1. }
  assert (session s5 = session s) as Hse5 by (by rewrite B2, A2).
  injection Hok as <-.
  split; [|split; [|split; [|split]]].
  - assert (alter (set_isPlaying false) (a_uuid thisNode) (nodeStore s5)
            = alter (fun n => set_isPlaying false (set_nativeNode (Leaf h') n))
                    (a_uuid thisNode) (nodeStore s)) as Hgoal.
    { rewrite Hst5. apply map_eq. intros k. rewrite !lookup_alter.
      destruct (decide (a_uuid thisNode = k)) as [<-|Hne];
        rewrite ?decide_True, ?decide_False by done; [|done].
      by destruct (nodeStore s !! a_uuid thisNode). }
    by destruct (truthy (nativeProp old "buffer")).
  - by destruct (truthy (nativeProp old "buffer")).
  - intros k n Hk. destruct (Hold5 k n Hk) as (n' & Hn' & Hu' & Hp').
    destruct (truthy (nativeProp old "buffer")); simpl; [|by exists n'].
    rewrite lookup_alter_ne by (intros <-; congruence). by exists n'.
  - destruct Hnew5 as (new & Hnew & Hu & Hp).
    assert (heap s !! h = Some old) as Hold'.
    { unfold derefNative in Hold. destruct (heap s !! h); [|done]. by injection Hold as ->. }
    exists old.
    destruct (truthy (nativeProp old "buffer")); simpl; [|by exists new].
    rewrite lookup_alter, decide_True, Hnew by done. simpl. eexists.
    split; [done|]. split; [done|]. split; [done|]. simpl. by rewrite Hp.
  - intros k Hk. apply Hdom5.
    destruct (truthy (nativeProp old "buffer")); simpl in Hk; [|done].
    rewrite lookup_alter in Hk. destruct (decide (h' = k)) as [<-|]; [|done].
    destruct (heap s5 !! h'); [by eexists|]. by destruct Hk.
Qed.

Lemma isSource_props (n n' : Native) : n_props n' = n_props n → isSource n' = isSource n.
Proof.
  intros H. unfold isSource, hasMethod, nativeProp. simpl. by rewrite H.
Qed.

Lemma setIsPlaying_lookup (u : uuid) (b : bool) (s : Engine) (k : uuid) :
  nodeStore (setIsPlaying u b s) !! k
  = (if decide (u = k) then set_isPlaying b else id) <$> nodeStore s !! k.
Proof.
  unfold setIsPlaying. simpl. rewrite lookup_alter.
  destruct (decide (u = k)) as [->|]; destruct (nodeStore s !! k); done.
Qed.

(** Starting the primitive of a wrapper that is not playing. *)
Lemma startFrom_leaf (fuel : nat) (id : uuid) (w : AudioNode) (h : handle)
  (p p' : Player) :
  playsOnce hostHas p →
  nodeStore (engine p) !! id = Some w → nativeNode w = Leaf h → isPlaying w = false →
  startFrom (S fuel) id (MNative h) p = Ok p' →
  playsOnce hostHas p' ∧
  selectedNodes (engine p') = selectedNodes (engine p) ∧
  currentMacro (engine p') = currentMacro (engine p) ∧
  stopped p' = stopped p ∧
  (∀ k, isMacro <$> nodeStore (engine p') !! k = isMacro <$> nodeStore (engine p) !! k) ∧
  ∃ n, heap (engine p) !! h = Some n ∧
       if hasMethod n "start"
       then started p' = started p ++ [h] ∧ engine p' = setIsPlaying id true (engine p)
       else p' = p.
Proof.
  intros (Ha & Hb & Hc & Hd) Hw Hleaf Hplay Hrun. simpl in Hrun.
  bind_inv Hrun as n Hn. unfold derefNative in Hn.
  destruct (heap (engine p) !! h) as [n0|] eqn:Eh; [|done]. injection Hn as ->.
  destruct (hasMethod n "start") eqn:Hstart; cycle 1.
  { injection Hrun as <-. split; [done|]. split; [done|]. split; [done|].
    split; [done|]. split; [done|]. exists n. by rewrite Hstart. }
  assert (isSource n = true) as Hsrc by (unfold isSource; by rewrite Hstart).
  destruct (Hd id w h n Hw Hleaf Eh Hsrc) as (Htr & Hkey & Htag & Hfresh & Hfac).
  rewrite Htag in Hrun. unfold derefNode, getNodeWithUUID in Hrun.
  rewrite Htr, Hw in Hrun. simpl in Hrun. rewrite Hplay in Hrun. simpl in Hrun.
  injection Hrun as <-. cbn [engine started stopped].
  assert (setIsPlaying id true (setIsPlaying id true (engine p))
          = setIsPlaying id true (engine p)) as Hidem.
  { unfold setIsPlaying, set_nodeStore. simpl. f_equal. apply map_eq. intros k.
    rewrite !lookup_alter. destruct (decide (id = k)) as [<-|]; [|done].
    rewrite ?decide_True by done.
    by destruct (nodeStore (engine p) !! id). }
  rewrite Hidem.
  assert (∀ u w0, nodeStore (setIsPlaying id true (engine p)) !! u = Some w0 →
            ∃ w1, nodeStore (engine p) !! u = Some w1 ∧
                  w0 = (if decide (id = u) then set_isPlaying true w1 else w1)) as Hback.
  { intros u w0 Hu. rewrite setIsPlaying_lookup in Hu.
    destruct (nodeStore (engine p) !! u) as [w1|]; [|done]. injection Hu as <-.
    exists w1. split; [done|]. by destruct (decide (id = u)). }
  split; [|split; [done|]; split; [done|]; split; [done|]; split;
            [|exists n; by rewrite Hstart]].
  - split; [|split; [|split]]; cbn [engine started stopped].
    + apply NoDup_app. split; [done|]. split; [|apply NoDup_singleton].
      intros x Hx Hx'. apply list_elem_of_singleton in Hx' as ->. by apply Hfresh.
    + intros x Hx. apply elem_of_app in Hx as [Hx|Hx]; [by apply Hb|].
      apply list_elem_of_singleton in Hx as ->. exists n. exact Eh.
    + intros u w0 h0 Hu Hl. destruct (Hback u w0 Hu) as (w1 & E1 & ->).
      apply (Hc u w1 h0 E1). by destruct (decide (id = u)).
    + intros u w0 h0 n0 Hu Hl Hn0 Hs0. destruct (Hback u w0 Hu) as (w1 & E1 & ->).
      assert (nativeNode w1 = Leaf h0) as Hl1 by (by destruct (decide (id = u))).
      destruct (Hd u w1 h0 n0 E1 Hl1 Hn0 Hs0) as (H1 & H2 & H3 & H4 & m & Hm & Hh).
      split; [done|]. split; [by destruct (decide (id = u))|]. split; [done|]. split.
      * destruct (decide (id = u)) as [<-|Hne]; [done|]. intros Hp0 Hin.
        apply elem_of_app in Hin as [Hin|Hin]; [by apply H4|].
        apply list_elem_of_singleton in Hin as ->.
        change (heap (engine p) !! h = Some n0) in Hn0.
        rewrite Eh in Hn0. injection Hn0 as <-. congruence.
      * exists m. split; [|done]. by destruct (decide (id = u)).
  - intros k. cbn [engine]. rewrite setIsPlaying_lookup.
    destruct (nodeStore (engine p) !! k); [|done]. simpl.
    by destruct (decide (id = k)).
Qed.

(** Stopping the primitive of a wrapper that is playing. *)
Lemma stopFrom_leaf (fuel : nat) (id : uuid) (w : AudioNode) (h : handle)
  (p p' : Player) :
  playsOnce hostHas p →
  nodeStore (engine p) !! id = Some w → nativeNode w = Leaf h → isPlaying w = true →
  stopFrom hostHas hostProps hostConnects (S fuel) id (MNative h) p = Ok p' →
  playsOnce hostHas p' ∧
  selectedNodes (engine p') = selectedNodes (engine p) ∧
  currentMacro (engine p') = currentMacro (engine p) ∧
  started p' = started p ∧
  (∀ k, isMacro <$> nodeStore (engine p') !! k = isMacro <$> nodeStore (engine p) !! k) ∧
  ∃ n, heap (engine p) !! h = Some n ∧
       if hasMethod n "stop"
       then stopped p' = stopped p ++ [h] ∧
            ∃ w', nodeStore (engine p') !! id = Some w' ∧
                  nativeNode w' = Leaf (fresh (dom (heap (engine p)))) ∧
                  isPlaying w' = false ∧ parameters w' = parameters w ∧
                  ∃ new, heap (engine p') !! fresh (dom (heap (engine p))) = Some new ∧
                         n_props new
                         = (if truthy (nativeProp n "buffer")
                            then <["buffer" := nativeProp n "buffer"]>
                                   (hostProps (fresh (dom (heap (engine p)))) (parameters w))
                            else hostProps (fresh (dom (heap (engine p)))) (parameters w))
       else p' = p.
Proof.
  intros (Ha & Hb & Hc & Hd) Hw Hleaf Hplay Hrun. simpl in Hrun.
  bind_inv Hrun as n Hn. unfold derefNative in Hn.
  destruct (heap (engine p) !! h) as [n0|] eqn:Eh; [|done]. injection Hn as ->.
  destruct (hasMethod n "stop") eqn:Hstop; cycle 1.
  { injection Hrun as <-. split; [done|]. split; [done|]. split; [done|].
    split; [done|]. split; [done|]. exists n. by rewrite Hstop. }
  assert (isSource n = true) as Hsrc
    by (unfold isSource; rewrite Hstop; apply orb_true_r).
  destruct (Hd id w h n Hw Hleaf Eh Hsrc) as (Htr & Hkey & Htag & _ & m & Hm & Hhost).
  rewrite Htag in Hrun.
  assert (derefNode (engine p) id = Ok w) as Hderef
    by (unfold derefNode, getNodeWithUUID; by rewrite Htr, Hw).
  rewrite Hderef in Hrun. simpl in Hrun. rewrite Hplay in Hrun.
  bind_inv Hrun as s1 Hs1. injection Hrun as <-. cbn [engine started stopped].
  unfold resetNode in Hs1. rewrite Hderef in Hs1. simpl in Hs1. rewrite Hleaf in Hs1.
  destruct (resetLeaf_frame w h m _ _ Hm Hhost Hs1)
    as (Hfresh & Hst1 & Hse1 & Hold1 & (old & new & Hold & Hnew & Hnewtag & Hnewprops)
        & Hdom1).
  rewrite Eh in Hold. injection Hold as <-.
  rewrite Hkey in Hst1, Hnewtag.
  set (h' := fresh (dom (heap (engine p)))) in *.
  set (e' := setIsPlaying id false (setIsPlaying id false s1)).
  assert (heap e' = heap s1) as Hheap by done.
  assert (∀ u w0, nodeStore e' !! u = Some w0 →
            ∃ w1, nodeStore (engine p) !! u = Some w1 ∧
                  isMacro w0 = isMacro w1 ∧
                  a_uuid w0 = a_uuid w1 ∧ parameters w0 = parameters w1 ∧
                  (u ≠ id → w0 = w1) ∧
                  (u = id → nativeNode w0 = Leaf h' ∧ isPlaying w0 = false)) as Hback.
  { intros u w0 Hu. unfold e' in Hu. rewrite !setIsPlaying_lookup, Hst1, lookup_alter in Hu.
    destruct (decide (id = u)) as [<-|Hne].
    - rewrite Hw in Hu. simpl in Hu. injection Hu as <-.
      exists w. unfold isMacro. simpl. rewrite Hleaf. by repeat split.
    - destruct (nodeStore (engine p) !! u) as [w1|]; [|done]. simpl in Hu.
      injection Hu as <-. exists w1. by repeat split. }
  assert (∀ u w1, nodeStore (engine p) !! u = Some w1 →
            ∃ w0, nodeStore e' !! u = Some w0) as Hfwd.
  { intros u w1 Hu. unfold e'. rewrite !setIsPlaying_lookup, Hst1, lookup_alter.
    destruct (decide (id = u)) as [<-|Hne]; rewrite Hu; by eexists. }
  split; [|split; [|split; [|split; [done|split]]]].
  - split; [done|]. split; [|split].
    + intros x Hx. destruct (Hb x Hx) as [nx Hnx].
      destruct (Hold1 x nx Hnx) as (nx' & Hnx' & _). by exists nx'.
    + intros u w0 h0 Hu Hl. destruct (Hback u w0 Hu) as (w1 & E1 & _ & _ & _ & Hne & Heq).
      destruct (decide (u = id)) as [->|Hneq].
      * destruct (Heq eq_refl) as [Hl' _]. rewrite Hl in Hl'. injection Hl' as ->.
        by exists new.
      * rewrite (Hne Hneq) in Hl. destruct (Hc u w1 h0 E1 Hl) as [n1 Hn1].
        destruct (Hold1 h0 n1 Hn1) as (n1' & Hn1' & _). by exists n1'.
    + intros u w0 h0 n1 Hu Hl Hn1 Hs1'.
      destruct (Hback u w0 Hu) as (w1 & E1 & _ & Hu1 & Hp1 & Hne & Heq).
      destruct (decide (u = id)) as [->|Hneq].
      * destruct (Heq eq_refl) as [Hl' Hpl]. rewrite Hl in Hl'. injection Hl' as ->.
        rewrite E1 in Hw. injection Hw as ->.
        split; [done|]. split; [by rewrite Hu1|]. split.
        { change (heap s1 !! h' = Some n1) in Hn1. rewrite Hnew in Hn1.
          by injection Hn1 as <-. }
        split.
        { intros _ Hin. destruct (Hb h' Hin) as [? ?]. congruence. }
        exists m. split; [by rewrite Hp1|done].
      * rewrite (Hne Hneq) in *. destruct (Hc u w1 h0 E1 Hl) as [n0 Hn0].
        destruct (Hold1 h0 n0 Hn0) as (n0' & Hn0' & Htag0 & Hprops0).
        change (heap s1 !! h0 = Some n1) in Hn1. rewrite Hn0' in Hn1.
        injection Hn1 as <-.
        rewrite (isSource_props _ _ Hprops0) in Hs1'.
        destruct (Hd u w1 h0 n0 E1 Hl Hn0 Hs1') as (H1 & H2 & H3 & H4 & H5).
        split; [done|]. split; [done|]. split; [congruence|]. split; done.
  - unfold e'. exact (f_equal selectedNodes Hse1).
  - unfold e'. exact (f_equal currentMacro Hse1).
  - intros k. destruct (nodeStore e' !! k) as [w0|] eqn:E0.
    + destruct (Hback k w0 E0) as (w1 & E1 & Hm1 & _). rewrite E1. simpl. by rewrite Hm1.
    + destruct (nodeStore (engine p) !! k) as [w1|] eqn:E1; [|done].
      destruct (Hfwd k w1 E1) as [w0 Hw0]. congruence.
  - exists n. split; [done|]. rewrite Hstop. split; [done|].
    destruct (Hfwd id w Hw) as [w0 Hw0].
    destruct (Hback id w0 Hw0) as (w1 & E1 & _ & _ & Hp1 & _ & Heq).
    rewrite Hw in E1. injection E1 as <-.
    destruct (Heq eq_refl) as [Hl0 Hpl0].
    exists w0. split; [done|]. split; [done|]. split; [done|]. split; [done|].
    by exists new.
Qed.

Lemma each_selected_cons (g : uuid → Player → result Player) (id : uuid)
  (l : list uuid) (p0 : Player) :
  foldl (fun acc id => p0 ← acc; g id p0) (Ok p0) (id :: l)
  = match g id p0 with
    | Ok p1 => foldl (fun acc id => p0 ← acc; g id p0) (Ok p1) l
    | Throw msg => Throw msg
    end.
Proof.
  simpl. destruct (g id p0) as [p1|msg]; [done|].
  induction l as [|x l IH]; [done|]. exact IH.
Qed.

Lemma leaf_under_frame (p p0 : Player) (id : uuid) (currNode : AudioNode) :
  leavesSelected p → playbackFrame hostHas p p0 → id ∈ selectedNodes (engine p) →
  getNodeWithUUID (engine p0) id = Some currNode →
  nodeStore (engine p0) !! id = Some currNode ∧
  ∃ h, nativeNode currNode = Leaf h ∧ ownNode id currNode = MNative h.
Proof.
  intros Hleaves (_ & _ & _ & Hmac) Hid Hget.
  assert (nodeStore (engine p0) !! id = Some currNode) as Hst.
  { unfold getNodeWithUUID in Hget. by destruct (Js.truthyStr id). }
  split; [done|]. specialize (Hmac id). rewrite Hst in Hmac.
  destruct (nodeStore (engine p) !! id) as [w|] eqn:Ew; [|done].
  simpl in Hmac. injection Hmac as Hmac.
  pose proof (Hleaves id w Hid Ew) as Hw. rewrite <- Hmac in Hw.
  unfold isMacro in Hw. unfold ownNode.
  destruct (nativeNode currNode) as [h|]; [|done]. by exists h.
Qed.

Lemma start_loop_keeps (p : Player) (l : list uuid) (p0 p' : Player) :
  leavesSelected p → playbackFrame hostHas p p0 → stopped p0 = stopped p →
  (∀ id, id ∈ l → id ∈ selectedNodes (engine p)) →
  foldl (fun acc id => p0 ← acc; startSelected id p0) (Ok p0) l = Ok p' →
  playbackFrame hostHas p p' ∧ stopped p' = stopped p.
Proof.
  intros Hleaves. revert p0. induction l as [|id l IH]; intros p0 Hframe Hstop Hsub Hrun.
  - simpl in Hrun. by injection Hrun as <-.
  - rewrite each_selected_cons in Hrun.
    destruct (startSelected id p0) as [p1|msg] eqn:E1; [|done].
    apply (IH p1); try done; [| |intros; apply Hsub; by right].
    + unfold startSelected in E1.
      destruct (getNodeWithUUID (engine p0) id) as [currNode|] eqn:Eget;
        [|by injection E1 as <-].
      destruct (leaf_under_frame p p0 id currNode Hleaves Hframe) as (Hst & h & Hl & Hown);
        [apply Hsub; by left|done|].
      destruct (isPlaying currNode) eqn:Eplay; cbn [negb] in E1; [by injection E1 as <-|].
      rewrite Hown in E1. unfold pushFuel in E1.
      destruct Hframe as (Hinv & Hsel & Hmacs & Hmac).
      destruct (startFrom_leaf (size (nodeStore (engine p0))) _ _ _ _ _ Hinv Hst Hl Eplay E1)
        as (Hinv1 & Hsel1 & Hmacs1 & Hstop1 & Hmac1 & _).
      split; [done|]. split; [congruence|]. split; [congruence|].
      intros k. by rewrite Hmac1.
    + unfold startSelected in E1.
      destruct (getNodeWithUUID (engine p0) id) as [currNode|] eqn:Eget;
        [|by injection E1 as <-].
      destruct (leaf_under_frame p p0 id currNode Hleaves Hframe) as (Hst & h & Hl & Hown);
        [apply Hsub; by left|done|].
      destruct (isPlaying currNode) eqn:Eplay; cbn [negb] in E1; [by injection E1 as <-|].
      rewrite Hown in E1. unfold pushFuel in E1.
      destruct Hframe as (Hinv & Hsel & Hmacs & Hmac).
      destruct (startFrom_leaf (size (nodeStore (engine p0))) _ _ _ _ _ Hinv Hst Hl Eplay E1)
        as (_ & _ & _ & Hstop1 & _). congruence.
Qed.

Lemma stop_loop_keeps (p : Player) (l : list uuid) (p0 p' : Player) :
  leavesSelected p → playbackFrame hostHas p p0 → started p0 = started p →
  (∀ id, id ∈ l → id ∈ selectedNodes (engine p)) →
  foldl (fun acc id => p0 ← acc; stopSelected hostHas hostProps hostConnects id p0)
        (Ok p0) l = Ok p' →
  playbackFrame hostHas p p' ∧ started p' = started p.
Proof.
  intros Hleaves. revert p0. induction l as [|id l IH]; intros p0 Hframe Hstart Hsub Hrun.
  - simpl in Hrun. by injection Hrun as <-.
  - rewrite (each_selected_cons (stopSelected hostHas hostProps hostConnects)) in Hrun.
    destruct (stopSelected hostHas hostProps hostConnects id p0) as [p1|msg] eqn:E1;
      [|done].
    apply (IH p1); try done; [| |intros; apply Hsub; by right].
    + unfold stopSelected in E1.
      destruct (getNodeWithUUID (engine p0) id) as [currNode|] eqn:Eget;
        [|by injection E1 as <-].
      destruct (leaf_under_frame p p0 id currNode Hleaves Hframe) as (Hst & h & Hl & Hown);
        [apply Hsub; by left|done|].
      destruct (isPlaying currNode) eqn:Eplay; [|by injection E1 as <-].
      rewrite Hown in E1. unfold pushFuel in E1.
      destruct Hframe as (Hinv & Hsel & Hmacs & Hmac).
      destruct (stopFrom_leaf (size (nodeStore (engine p0))) _ _ _ _ _ Hinv Hst Hl Eplay E1)
        as (Hinv1 & Hsel1 & Hmacs1 & Hstart1 & Hmac1 & _).
      split; [done|]. split; [congruence|]. split; [congruence|].
      intros k. by rewrite Hmac1.
    + unfold stopSelected in E1.
      destruct (getNodeWithUUID (engine p0) id) as [currNode|] eqn:Eget;
        [|by injection E1 as <-].
      destruct (leaf_under_frame p p0 id currNode Hleaves Hframe) as (Hst & h & Hl & Hown);
        [apply Hsub; by left|done|].
      destruct (isPlaying currNode) eqn:Eplay; [|by injection E1 as <-].
      rewrite Hown in E1. unfold pushFuel in E1.
      destruct Hframe as (Hinv & Hsel & Hmacs & Hmac).
      destruct (stopFrom_leaf (size (nodeStore (engine p0))) _ _ _ _ _ Hinv Hst Hl Eplay E1)
        as (_ & _ & _ & Hstart1 & _). congruence.
Qed.

Lemma frame_leaves (p p' : Player) :
  leavesSelected p → playbackFrame hostHas p p' → leavesSelected p'.
Proof.
  intros Hleaves (_ & Hsel & _ & Hmac) u w Hu Hw. rewrite Hsel in Hu.
  specialize (Hmac u). rewrite Hw in Hmac.
  destruct (nodeStore (engine p) !! u) as [w0|] eqn:E0; [|done].
  simpl in Hmac. injection Hmac as ->. by apply (Hleaves u w0).
Qed.

(** X23.  Played through wrappers of single primitives, no primitive is
    ever started twice.  Suppose no primitive has been started twice so
    far, every wrapper of a playable primitive is the wrapper that
    primitive is tagged with, and a wrapper that is not playing holds a
    primitive that was never started.  Then, with only such wrappers
    selected, all of this still holds after a successful [start()] and
    after a successful [stop()]: [start()] starts only primitives of
    wrappers that are not playing, [stop()] makes no native [start] and
    leaves every stopped wrapper with a fresh primitive. *)
Theorem leaf_playback_starts_each_primitive_once (p p' : Player)
  (Hinv : playsOnce hostHas p)
  (Hleaves : leavesSelected p) :
  (cracked_start p = Ok p' →
   playsOnce hostHas p' ∧ leavesSelected p' ∧ NoDup (started p') ∧
   stopped p' = stopped p) ∧
  (cracked_stop hostHas hostProps hostConnects p = Ok p' →
   playsOnce hostHas p' ∧ leavesSelected p' ∧ NoDup (started p') ∧
   started p' = started p).
Proof.
  assert (playbackFrame hostHas p p) as Hframe by (by split).
  split.
  - unfold cracked_start. destruct (recordingMacro (engine p)).
    + intros [= <-]. split; [done|]. split; [done|]. split; [by destruct Hinv|done].
    + intros Hrun. apply (start_loop_keeps p) in Hrun as (Hf & Hs); try done.
      split; [by destruct Hf|]. split; [by eapply frame_leaves|].
      split; [by destruct Hf as ((? & _) & _)|done].
  - unfold cracked_stop. intros Hrun.
    apply (stop_loop_keeps p) in Hrun as (Hf & Hs); try done.
    split; [by destruct Hf|]. split; [by eapply frame_leaves|].
    split; [by destruct Hf as ((? & _) & _)|done].
Qed.

Lemma playsOnceb_sound (p : Player) : playsOnceb hostHas p = true → playsOnce hostHas p.
Proof.
  unfold playsOnceb. intros H.
  apply andb_prop in H as [H H3]. apply andb_prop in H as [H1 H2].
  apply bool_decide_eq_true in H1.
  rewrite forallb_forall in H2. rewrite forallb_forall in H3.
  assert (∀ u w, nodeStore (engine p) !! u = Some w → sourceKept hostHas p u w = true)
    as Hkept.
  { intros u w Hu. apply (H3 (u, w)). apply list_elem_of_In.
    by apply elem_of_map_to_list. }
  split; [done|]. split; [|split].
  - intros h Hh. apply list_elem_of_In in Hh. apply H2 in Hh.
    by apply bool_decide_eq_true in Hh.
  - intros u w h Hu Hl. specialize (Hkept u w Hu). unfold sourceKept in Hkept.
    rewrite Hl in Hkept. destruct (heap (engine p) !! h); [by eexists|done].
  - intros u w h n Hu Hl Hn Hs. specialize (Hkept u w Hu). unfold sourceKept in Hkept.
    rewrite Hl, Hn, Hs in Hkept. simpl in Hkept.
    apply andb_prop in Hkept as [Hk K5]. apply andb_prop in Hk as [Hk K4].
    apply andb_prop in Hk as [Hk K3]. apply andb_prop in Hk as [K1 K2].
    apply bool_decide_eq_true in K2. apply bool_decide_eq_true in K3.
    split; [done|]. split; [done|]. split; [done|]. split.
    + intros Hidle. rewrite Hidle in K4. simpl in K4.
      by apply bool_decide_eq_true in K4.
    + destruct (methodOf (parameters w)) as [m|]; [|done]. by exists m.
Qed.

(** Starting a wrapper whose primitive has a [start] method. *)
Lemma startSelected_runs (p : Player) (id : uuid) (w : AudioNode) (h : handle) (n : Native) :
  playsOnce hostHas p →
  nodeStore (engine p) !! id = Some w → nativeNode w = Leaf h → isPlaying w = false →
  heap (engine p) !! h = Some n → hasMethod n "start" = true →
  ∃ p1, startSelected id p = Ok p1 ∧ playsOnce hostHas p1 ∧
        started p1 = started p ++ [h] ∧ stopped p1 = stopped p ∧
        engine p1 = setIsPlaying id true (engine p).
Proof.
  intros Hinv Hw Hleaf Hidle Hn Hstart.
  assert (isSource n = true) as Hsrc by (unfold isSource; by rewrite Hstart).
  destruct Hinv as (Ha & Hb & Hc & Hd).
  destruct (Hd id w h n Hw Hleaf Hn Hsrc) as (Htr & Hkey & Htag & Hfresh & Hfac).
  pose proof (conj Ha (conj Hb (conj Hc Hd)) : playsOnce hostHas p) as Hinv.
  destruct (startSelected id p) as [p1|msg] eqn:E.
  - exists p1. split; [done|]. unfold startSelected, getNodeWithUUID in E.
    rewrite Htr, Hw, Hidle in E. cbn [negb] in E. unfold ownNode in E. rewrite Hleaf in E.
    unfold pushFuel in E.
    destruct (startFrom_leaf _ _ _ _ _ _ Hinv Hw Hleaf Hidle E)
      as (Hinv1 & _ & _ & Hst & _ & n' & Hn' & Hres).
    rewrite Hn in Hn'. injection Hn' as <-. rewrite Hstart in Hres.
    destruct Hres as [Hres1 Hres2]. done.
  - exfalso. unfold startSelected, getNodeWithUUID in E.
    rewrite Htr, Hw, Hidle in E. cbn [negb] in E. unfold ownNode in E. rewrite Hleaf in E.
    unfold pushFuel in E. simpl in E. unfold derefNative in E. rewrite Hn in E.
    simpl in E. rewrite Hstart, Htag in E. unfold derefNode, getNodeWithUUID in E.
    rewrite Htr, Hw in E. simpl in E. by rewrite Hidle in E.
Qed.

(** X24.  A source that was stopped can be played again.  Let the one
    selected wrapper hold a primitive with [start] and [stop] methods
    that is not playing, on a host whose factory gives every primitive
    made from the wrapper's parameters a [start] method.  Then [start()]
    starts that primitive, a second [start()] changes nothing, and after
    a successful [stop()] -- which stops that primitive and starts
    none -- a further [start()] starts the fresh primitive that [stop()]
    put into the wrapper, not the stopped one. *)
Theorem stopped_source_plays_again (p : Player) (id : uuid) (w : AudioNode)
  (h : handle) (n : Native)
  (Hinv : playsOnce hostHas p)
  (Hrec : recordingMacro (engine p) = false)
  (Hsel : selectedNodes (engine p) = [id])
  (Hw : nodeStore (engine p) !! id = Some w)
  (Hleaf : nativeNode w = Leaf h)
  (Hidle : isPlaying w = false)
  (Hn : heap (engine p) !! h = Some n)
  (Hstart : hasMethod n "start" = true)
  (Hstop : hasMethod n "stop" = true)
  (Hhost : ∀ k, ∃ f, hostProps k (parameters w) !! "start" = Some (PFun f)) :
  ∃ p1, cracked_start p = Ok p1 ∧
        started p1 = started p ++ [h] ∧ stopped p1 = stopped p ∧
        cracked_start p1 = Ok p1 ∧
        ∀ p2, cracked_stop hostHas hostProps hostConnects p1 = Ok p2 →
              started p2 = started p ++ [h] ∧ stopped p2 = stopped p ++ [h] ∧
              ∃ p3, cracked_start p2 = Ok p3 ∧
                    started p3 = started p ++ [h; fresh (dom (heap (engine p)))] ∧
                    fresh (dom (heap (engine p))) ≠ h.
Proof.
  destruct (startSelected_runs p id w h n Hinv Hw Hleaf Hidle Hn Hstart)
    as (p1 & Hrun1 & Hinv1 & Hst1 & Hsp1 & He1).
  assert (Js.truthyStr id = true) as Htr.
  { destruct Hinv as (_ & _ & _ & Hd).
    apply (Hd id w h n Hw Hleaf Hn). unfold isSource. by rewrite Hstart. }
  assert (nodeStore (engine p1) !! id = Some (set_isPlaying true w)) as Hw1.
  { rewrite He1, setIsPlaying_lookup, Hw, decide_True by done. done. }
  assert (selectedNodes (engine p1) = [id]) as Hsel1 by (by rewrite He1).
  assert (recordingMacro (engine p1) = false) as Hrec1 by (by rewrite He1).
  assert (heap (engine p1) = heap (engine p)) as Hheap1 by (by rewrite He1).
  exists p1. split; [|split; [done|split; [done|split]]].
  - unfold cracked_start. rewrite Hrec, Hsel, each_selected_cons, Hrun1. done.
  - unfold cracked_start. rewrite Hrec1, Hsel1, each_selected_cons.
    unfold startSelected, getNodeWithUUID. by rewrite Htr, Hw1.
  - intros p2 Hrun2. unfold cracked_stop in Hrun2.
    rewrite Hsel1, (each_selected_cons (stopSelected hostHas hostProps hostConnects))
      in Hrun2.
    destruct (stopSelected hostHas hostProps hostConnects id p1) as [p2'|msg] eqn:E2;
      [|done].
    simpl in Hrun2. injection Hrun2 as ->.
    unfold stopSelected, getNodeWithUUID in E2. rewrite Htr, Hw1 in E2.
    cbn [isPlaying set_isPlaying] in E2. unfold ownNode in E2.
    cbn [nativeNode set_isPlaying] in E2. rewrite Hleaf in E2. unfold pushFuel in E2.
    destruct (stopFrom_leaf _ id (set_isPlaying true w) h p1 p2 Hinv1 Hw1 Hleaf eq_refl E2)
      as (Hinv2 & Hsel2 & Hmac2 & Hst2 & _ & n' & Hn' & Hres).
    rewrite Hheap1, Hn in Hn'. injection Hn' as <-. rewrite Hstop in Hres.
    destruct Hres as (Hsp2 & w2 & Hw2 & Hleaf2 & Hidle2 & Hpar2 & new & Hnew & Hprops).
    rewrite Hheap1 in Hleaf2, Hnew, Hprops.
    set (h2 := fresh (dom (heap (engine p)))) in *.
    split; [congruence|]. split; [congruence|].
    assert (hasMethod new "start" = true) as Hstart2.
    { unfold hasMethod, nativeProp. rewrite decide_False by done. rewrite Hprops.
      destruct (Hhost h2) as [f Hf]. cbn [parameters set_isPlaying] in *.
      destruct (truthy (nativeProp n "buffer")).
      - rewrite lookup_insert_ne by done. by rewrite Hf.
      - by rewrite Hf. }
    destruct (startSelected_runs p2 id w2 h2 new Hinv2 Hw2 Hleaf2 Hidle2 Hnew Hstart2)
      as (p3 & Hrun3 & _ & Hst3 & _).
    exists p3. split; [|split].
    + unfold cracked_start, recordingMacro. rewrite Hmac2. fold (recordingMacro (engine p1)).
      rewrite Hrec1, Hsel2, Hsel1, each_selected_cons, Hrun3. done.
    + rewrite Hst3, Hst2, Hst1, <- app_assoc. done.
    + intros Heq. assert (h2 ∈ dom (heap (engine p))) as Hin.
      { rewrite Heq. apply elem_of_dom. by eexists. }
      by apply is_fresh in Hin.
Qed.

End PlaybackFacts.

Lemma leaf_playback_starts_each_primitive_once_witness :
  playsOnce demoHas oscSelected ∧ leavesSelected oscSelected ∧
  cracked_start oscSelected = Ok oscPlaying ∧
  playsOnce demoHas oscPlaying ∧ leavesSelected oscPlaying ∧
  NoDup (started oscPlaying) ∧ stopped oscPlaying = stopped oscSelected.
Proof.
  assert (playsOnce demoHas oscSelected) as Hinv
    by (apply playsOnceb_sound; vm_compute; reflexivity).
  assert (leavesSelected oscSelected) as Hleaves.
  { intros u w Hu Hw. apply list_elem_of_singleton in Hu as ->.
    vm_compute in Hw. injection Hw as <-. reflexivity. }
  split; [exact Hinv|]. split; [exact Hleaves|].
  assert (cracked_start oscSelected = Ok oscPlaying) as Hrun by (vm_compute; reflexivity).
  split; [exact Hrun|].
  exact (proj1 (leaf_playback_starts_each_primitive_once demoHas playableProps demoConnects
                  oscSelected oscPlaying Hinv Hleaves) Hrun).
Defined.

Lemma stopped_source_plays_again_witness :
  ∃ p1, cracked_start oscSelected = Ok p1 ∧
        started p1 = started oscSelected ++ [1] ∧ stopped p1 = stopped oscSelected ∧
        cracked_start p1 = Ok p1 ∧
        ∀ p2, cracked_stop demoHas playableProps demoConnects p1 = Ok p2 →
              started p2 = started oscSelected ++ [1] ∧
              stopped p2 = stopped oscSelected ++ [1] ∧
              ∃ p3, cracked_start p2 = Ok p3 ∧
                    started p3
                    = started oscSelected ++ [1; fresh (dom (heap (engine oscSelected)))] ∧
                    fresh (dom (heap (engine oscSelected))) ≠ 1.
Proof.
  assert (playsOnce demoHas oscSelected) as Hinv
    by (apply playsOnceb_sound; vm_compute; reflexivity).
  eapply (stopped_source_plays_again demoHas playableProps demoConnects oscSelected "o"
            _ 1 _ Hinv); try (vm_compute; reflexivity).
  intros k. exists "start". reflexivity.
Defined.
